(** * A shallow embedding of the storage core of martingoe/dbms

    The development follows the Rust sources module by module:
    - [disk_management/lru_replacer.rs] and [disk_management/buffer_pool.rs]
      (module [BP]);
    - [extendible_hashing/*.rs] (module [EH]);
    - [b_plus_tree/*.rs] (module [BPT]);
    - [table/table_page.rs] (module [TP]);
    - [table/table_directory_page.rs] (module [TD]).

    Conventions.  A Rust panic (an [unwrap]/[expect] on [None]/[Err], an
    out-of-range slice index, an arithmetic overflow of a debug build) is
    modelled by the result [None] of an [option]; a value the Rust function
    returns as [Option]/[Result] is modelled by a value of the matching type
    inside the [Some]. *)

From Stdlib Require Import ZArith Lia Bool List.
From stdpp Require Import base gmap list.
Import ListNotations.

(** Rust's [v[i] = x] on a [Vec]: panics when [i] is out of range. *)
Definition vec_set {A} (l : list A) (i : nat) (x : A) : option (list A) :=
  if decide (i < length l) then Some (<[i := x]> l) else None.

(** [common/rid.rs]: [Rid { page_id: u32, slot_id: u32 }]. *)
Record Rid := mkRid { rid_page_id : Z; slot_id : Z }.

(* ------------------------------------------------------------------ *)
(** * Disk manager, LRU replacer and buffer pool *)
(* ------------------------------------------------------------------ *)

Module BP.

Definition POOL_SIZE : nat := 100.

Section BufferPool.

(** The content of one 4096-byte page; the pool never looks inside. *)
Variable Page : Type.
(** Content of the backing file before any write of the pool. *)
Variable disk0 : nat -> Page.

(** [LRUReplacer]: a priority queue keyed by page id whose priority is the
    time stamp of the last [add_page].  Time stamps only grow, so the queue
    is kept as the list of its page ids ordered by time stamp, oldest
    first; [push] of an id already present moves it to the newest end. *)
Definition lru_add_page (lru : list nat) (p : nat) : list nat :=
  filter (fun q => q <> p) lru ++ [p].

Definition lru_drop_page (lru : list nat) (p : nat) : list nat :=
  filter (fun q => q <> p) lru.

Definition lru_pop_least_recently_used (lru : list nat) : option nat * list nat :=
  match lru with
  | [] => (None, [])
  | p :: rest => (Some p, rest)
  end.

Record PageTableEntry := mkPTE {
  frame_index : nat;
  dirty : bool;
  ref_count : nat
}.

Definition PageTableEntry_new (frame_id : nat) : PageTableEntry :=
  mkPTE frame_id false 1.

(** [BufferPool]: the frames, the page table, the replacer and the
    backing file, the latter as the log of its page writes (newest first). *)
Record BufferPool := mkBP {
  data : list (option Page);
  page_table : gmap nat PageTableEntry;
  lru_replacer : list nat;
  disk_writes : list (nat * Page)
}.

Definition BufferPool_new : BufferPool :=
  mkBP (replicate POOL_SIZE None) ∅ [] [].

(** [DiskManager::read_page]: the last write to that page, else the
    original file content. *)
Definition read_page (st : BufferPool) (page_id : nat) : Page :=
  match find (fun w => Nat.eqb (fst w) page_id) (disk_writes st) with
  | Some (_, pg) => pg
  | None => disk0 page_id
  end.

Definition write_page (st : BufferPool) (page_id : nat) (pg : Page) : BufferPool :=
  mkBP (data st) (page_table st) (lru_replacer st) ((page_id, pg) :: disk_writes st).

Definition load_page_from_disk (st : BufferPool) (page_id frame_index : nat)
  : option BufferPool :=
  let raw_page := read_page st page_id in
  let pt := <[page_id := PageTableEntry_new frame_index]> (page_table st) in
  d ← vec_set (data st) frame_index (Some raw_page);
  Some (mkBP d pt (lru_replacer st) (disk_writes st)).

(** Index of the first [None] frame. *)
Fixpoint first_none {A} (l : list (option A)) : option nat :=
  match l with
  | [] => None
  | None :: _ => Some 0
  | Some _ :: r => S <$> first_none r
  end.

(** [BufferPool::load_page]. *)
Definition load_page (st : BufferPool) (page_id : nat)
  : option (option nat * BufferPool) :=
  match page_table st !! page_id with
  | Some e =>
      let e' := mkPTE (frame_index e) (dirty e) (S (ref_count e)) in
      let lru := if Nat.eqb (ref_count e') 1
                 then lru_drop_page (lru_replacer st) page_id
                 else lru_replacer st in
      Some (Some (frame_index e),
            mkBP (data st) (<[page_id := e']> (page_table st)) lru (disk_writes st))
  | None =>
      if Nat.eqb (size (page_table st)) POOL_SIZE then
        let '(popped, lru) := lru_pop_least_recently_used (lru_replacer st) in
        let st1 := mkBP (data st) (page_table st) lru (disk_writes st) in
        match popped with
        | Some index =>
            match page_table st1 !! index with
            | None => None
            | Some pte =>
                let frame_index := frame_index pte in
                st2 ← (if dirty pte then
                         match data st1 !! frame_index with
                         | Some (Some pg) => Some (write_page st1 index pg)
                         | _ => None
                         end
                       else Some st1);
                st3 ← load_page_from_disk st2 page_id frame_index;
                Some (Some frame_index, st3)
            end
        | None => Some (None, st1)
        end
      else
        match first_none (data st) with
        | None => None
        | Some frame_index =>
            st1 ← load_page_from_disk st page_id frame_index;
            Some (Some frame_index, st1)
        end
  end.

(** Result of a Rust function returning [Result<(), &str>]. *)
Inductive RResult := ROk | RErr.

(** [BufferPool::unload_page_id]. *)
Definition unload_page_id (st : BufferPool) (page_id : nat) : RResult * BufferPool :=
  match page_table st !! page_id with
  | None => (RErr, st)
  | Some e =>
      if Nat.eqb (ref_count e) 0 then (RErr, st)
      else
        let e' := mkPTE (frame_index e) (dirty e) (ref_count e - 1) in
        let lru := if Nat.eqb (ref_count e') 0
                   then lru_add_page (lru_replacer st) page_id
                   else lru_replacer st in
        (ROk, mkBP (data st) (<[page_id := e']> (page_table st)) lru (disk_writes st))
  end.

(** The [for (page_id, page_table) in self.page_table.drain()] loop: the
    entries are visited in the map's iteration order. *)
Fixpoint flush_entries (d : list (option Page)) (ents : list (nat * PageTableEntry))
    (writes : list (nat * Page)) : option (list (nat * Page)) :=
  match ents with
  | [] => Some writes
  | (page_id, e) :: rest =>
      if dirty e then
        match d !! frame_index e with
        | Some (Some pg) => flush_entries d rest ((page_id, pg) :: writes)
        | _ => None
        end
      else flush_entries d rest writes
  end.

(** [BufferPool::unload_all_pages_and_write_to_file]. *)
Definition unload_all_pages_and_write_to_file (st : BufferPool) : option BufferPool :=
  writes ← flush_entries (data st) (map_to_list (page_table st)) (disk_writes st);
  Some (mkBP (replicate (length (data st)) None) ∅ [] writes).

(** [BufferPool::update_page]. *)
Definition update_page (st : BufferPool) (page_id : nat) (new_data : Page)
  : option (RResult * BufferPool) :=
  r ← load_page st page_id;
  match r with
  | (Some frame_id, st1) =>
      let pt := match page_table st1 !! page_id with
                | Some e => <[page_id := mkPTE (frame_index e) true (ref_count e)]> (page_table st1)
                | None => page_table st1
                end in
      d ← vec_set (data st1) frame_id (Some new_data);
      Some (ROk, mkBP d pt (lru_replacer st1) (disk_writes st1))
  | (None, st1) => Some (RErr, st1)
  end.

(** The operations a client of the pool performs. *)
Inductive op :=
  | OpLoad (page_id : nat)
  | OpUnload (page_id : nat)
  | OpUpdate (page_id : nat) (pg : Page)
  | OpFlush.

Definition step (st : BufferPool) (o : op) : option BufferPool :=
  match o with
  | OpLoad p => snd <$> load_page st p
  | OpUnload p => Some (snd (unload_page_id st p))
  | OpUpdate p pg => snd <$> update_page st p pg
  | OpFlush => unload_all_pages_and_write_to_file st
  end.

Fixpoint run_ops (st : BufferPool) (os : list op) : option BufferPool :=
  match os with
  | [] => Some st
  | o :: rest => st' ← step st o; run_ops st' rest
  end.

(** The invariant of the spec: a resident page is in the replacer iff it
    is unpinned. *)
Definition lru_invariant (st : BufferPool) : Prop :=
  forall pid e, page_table st !! pid = Some e ->
    (pid ∈ lru_replacer st <-> ref_count e = 0).

(** Every dirty page-table entry names a filled frame: the condition under
    which the flush of [unload_all_pages_and_write_to_file] does not panic. *)
Definition dirty_frames_filled (st : BufferPool) : Prop :=
  forall pid e, page_table st !! pid = Some e -> dirty e = true ->
    exists pg, data st !! frame_index e = Some (Some pg).

End BufferPool.

Arguments mkBP {Page}.
Arguments data {Page}.
Arguments page_table {Page}.
Arguments lru_replacer {Page}.
Arguments disk_writes {Page}.
Arguments read_page {Page}.
Arguments step {Page}.
Arguments lru_invariant {Page}.
Arguments OpUpdate {Page}.
Arguments BufferPool_new {Page}.
Arguments load_page {Page}.
Arguments unload_page_id {Page}.
Arguments update_page {Page}.
Arguments unload_all_pages_and_write_to_file {Page}.
Arguments run_ops {Page}.
Arguments OpLoad {Page}.
Arguments OpUnload {Page}.
Arguments OpFlush {Page}.
Arguments dirty_frames_filled {Page}.
Arguments write_page {Page}.
Arguments load_page_from_disk {Page}.

(** Every frame filled in [d] is still filled in [d']. *)
Definition frames_kept {Page} (d d' : list (option Page)) : Prop :=
  forall j pg, d !! j = Some (Some pg) -> exists pg', d' !! j = Some (Some pg').

End BP.

(* ------------------------------------------------------------------ *)
(** * B+ tree pages and search *)
(* ------------------------------------------------------------------ *)

Module BPT.

Definition PAGE_SIZE : nat := 4096.
Definition RID_SIZE : nat := 8.

(** Bytes of a page, each in [0, 256). *)
Abbreviation bytes := (list Z).

(** Little-endian fixed-width encoding of an unsigned integer of [w] bytes
    ([bincode] with [with_fixed_int_encoding]). *)
Fixpoint encode_uint (w : nat) (x : Z) : bytes :=
  match w with
  | O => []
  | S w' => Z.modulo x 256 :: encode_uint w' (Z.div x 256)
  end.

Fixpoint decode_le (bs : bytes) : Z :=
  match bs with
  | [] => 0
  | b :: r => b + 256 * decode_le r
  end.

(** [bincode::decode_from_slice] of a [w]-byte integer: an error when the
    slice is too short, the leading [w] bytes otherwise. *)
Definition decode_uint (w : nat) (sl : bytes) : option Z :=
  if decide (w <= length sl) then Some (decode_le (take w sl)) else None.

(** [&data[a..b]]: panics unless [a <= b <= data.len()]. *)
Definition slice (l : bytes) (a b : nat) : option bytes :=
  if decide (a <= b /\ b <= length l) then Some (take (b - a) (drop a l)) else None.

(** Overwrite [l[a..a+|bs|]] with [bs]. *)
Definition write_at (l : bytes) (a : nat) (bs : bytes) : bytes :=
  take a l ++ bs ++ drop (a + length bs) l.


(** [BPlusTreeInternalPageHeader] (21 bytes). *)
Record InternalHeader := mkIH {
  own_pid : Z; b_plus_tree_page_type : Z; lsn : Z;
  current_size : Z; max_size : Z; parent_pid : Z
}.

Record KeyPagePair := mkKP { key : Z; page_id : Z }.

Record BPlusTreeInternalPage := mkInternal {
  header : InternalHeader;
  key_page_pairs : list KeyPagePair
}.

Definition encode_internal_header (h : InternalHeader) : bytes :=
  encode_uint 4 (own_pid h) ++ encode_uint 1 (b_plus_tree_page_type h) ++
  encode_uint 4 (lsn h) ++ encode_uint 4 (current_size h) ++
  encode_uint 4 (max_size h) ++ encode_uint 4 (parent_pid h).

Definition decode_internal_header (bs : bytes) : InternalHeader :=
  mkIH (decode_le (take 4 bs)) (decode_le (take 1 (drop 4 bs)))
       (decode_le (take 4 (drop 5 bs))) (decode_le (take 4 (drop 9 bs)))
       (decode_le (take 4 (drop 13 bs))) (decode_le (take 4 (drop 17 bs))).

Section Internal.
(** [std::mem::size_of::<KeyType>()]. *)
Variable key_width : nat.

Definition encode_key_page_pair (kp : KeyPagePair) : bytes :=
  encode_uint key_width (key kp) ++ encode_uint 4 (page_id kp).

(** [BPlusTreeInternalPage::to_raw_page]; outer [None] is a panic, inner
    [None] the [Option] the function returns. *)
Fixpoint write_pairs (res : bytes) (current_start : nat) (ps : list KeyPagePair)
  : option bytes :=
  let key_size := key_width + 4 in
  match ps with
  | [] => Some res
  | kp :: rest =>
      _ ← slice res current_start (current_start + key_size);
      write_pairs (write_at res current_start (encode_key_page_pair kp))
                  (current_start + key_size) rest
  end.

Definition internal_to_raw_page (p : BPlusTreeInternalPage) : option (option bytes) :=
  let res := replicate PAGE_SIZE 0%Z in
  let res := write_at res 0 (encode_internal_header (header p)) in
  res ← write_pairs res 21 (key_page_pairs p);
  Some (Some res).

(** The loop of [BPlusTreeInternalPage::from_raw_page]: the right-hand
    side [decode_from_slice(..).ok()?] is evaluated first, then
    [vec[i] = ..] indexes the vector. *)
Fixpoint read_pairs (raw : bytes) (vec : list KeyPagePair) (i n : nat)
  : option (option (list KeyPagePair)) :=
  let key_size := key_width + 4 in
  match n with
  | O => Some (Some vec)
  | S n' =>
      let start_index := 21 + i * key_size in
      sl ← slice raw start_index (start_index + key_size);
      match decode_uint key_width sl, decode_uint 4 (drop key_width sl) with
      | Some k, Some pid =>
          vec' ← vec_set vec i (mkKP k pid);
          read_pairs raw vec' (S i) n'
      | _, _ => Some None
      end
  end.

(** [BPlusTreeInternalPage::from_raw_page]: [Vec::with_capacity] creates
    an empty vector. *)
Definition internal_from_raw_page (raw : bytes) : option (option BPlusTreeInternalPage) :=
  hb ← slice raw 0 21;
  let h := decode_internal_header hb in
  r ← read_pairs raw [] 0 (Z.to_nat (current_size h));
  match r with
  | Some vec => Some (Some (mkInternal h vec))
  | None => Some None
  end.

End Internal.

(** [BPlusTreeInternalPage::get_child_node]; [None] is a panic (index out
    of bounds).  [&&] evaluates [key < pairs[i + 1].key] first. *)
Fixpoint child_loop (ps : list KeyPagePair) (k : Z) (i n : nat) : option (option Z) :=
  match n with
  | O => Some None
  | S n' =>
      next ← ps !! (i + 1);
      if Z.ltb k (key next) then
        cur ← ps !! i;
        if Z.geb k (key cur) then Some (Some (page_id cur)) else child_loop ps k (S i) n'
      else child_loop ps k (S i) n'
  end.

Definition get_child_node (p : BPlusTreeInternalPage) (k : Z) : option Z :=
  let ps := key_page_pairs p in
  p1 ← ps !! 1;
  if Z.ltb k (key p1) then
    p0 ← ps !! 0; Some (page_id p0)
  else
    r ← child_loop ps k 1 (length ps - 1);
    match r with
    | Some pid => Some pid
    | None => last_kp ← last ps; Some (page_id last_kp)
    end.

(** [BPlusTreeLeafPageHeader] (29 bytes). *)
Record LeafHeader := mkLH {
  l_own_pid : Z; l_page_type : Z; l_lsn : Z; l_current_size : Z;
  l_max_size : Z; l_parent_pid : Z; next_leaf : Z; prev_leaf : Z
}.

Record BPlusTreeLeafPage := mkLeaf {
  lheader : LeafHeader;
  keys : list Z;
  rids : list Rid
}.

Definition decode_leaf_header (bs : bytes) : LeafHeader :=
  mkLH (decode_le (take 4 bs)) (decode_le (take 1 (drop 4 bs)))
       (decode_le (take 4 (drop 5 bs))) (decode_le (take 4 (drop 9 bs)))
       (decode_le (take 4 (drop 13 bs))) (decode_le (take 4 (drop 17 bs)))
       (decode_le (take 4 (drop 21 bs))) (decode_le (take 4 (drop 25 bs))).

Section Leaf.
Variable key_width : nat.

(** The loop of [BPlusTreeLeafPage::from_raw_page]: the rid is decoded
    from a slice of [size_of::<KeyType>()] bytes. *)
Fixpoint read_leaf (raw : bytes) (key_start rid_start n : nat)
  : option (option (list Z * list Rid)) :=
  match n with
  | O => Some (Some ([], []))
  | S n' =>
      ksl ← slice raw key_start (key_start + key_width);
      match decode_uint key_width ksl with
      | None => Some None
      | Some k =>
          rsl ← slice raw rid_start (rid_start + key_width);
          match decode_uint 4 rsl, decode_uint 4 (drop 4 rsl), decide (8 <= length rsl) with
          | Some a, Some b, left _ =>
              r ← read_leaf raw (key_start + key_width) (rid_start + RID_SIZE) n';
              match r with
              | Some (ks, rs) => Some (Some (k :: ks, mkRid a b :: rs))
              | None => Some None
              end
          | _, _, _ => Some None
          end
      end
  end.

Definition leaf_from_raw_page (raw : bytes) : option (option BPlusTreeLeafPage) :=
  hb ← slice raw 0 29;
  if decide (29 <= length hb) then
    let h := decode_leaf_header hb in
    (* [PAGE_SIZE - max_size * RID_SIZE] underflows (panics) when too big *)
    if decide (Z.to_nat (l_max_size h) * RID_SIZE <= PAGE_SIZE) then
      r ← read_leaf raw 29 (PAGE_SIZE - Z.to_nat (l_max_size h) * RID_SIZE)
                    (Z.to_nat (l_current_size h));
      match r with
      | Some (ks, rs) => Some (Some (mkLeaf h ks rs))
      | None => Some None
      end
    else None
  else Some None.

Definition encode_leaf_header (h : LeafHeader) : bytes :=
  encode_uint 4 (l_own_pid h) ++ encode_uint 1 (l_page_type h) ++
  encode_uint 4 (l_lsn h) ++ encode_uint 4 (l_current_size h) ++
  encode_uint 4 (l_max_size h) ++ encode_uint 4 (l_parent_pid h) ++
  encode_uint 4 (next_leaf h) ++ encode_uint 4 (prev_leaf h).

Fixpoint write_seq (res : bytes) (start width : nat) (items : list bytes) : option bytes :=
  match items with
  | [] => Some res
  | it :: rest =>
      _ ← slice res start (start + width);
      write_seq (write_at res start it) (start + width) width rest
  end.

(** [BPlusTreeLeafPage::to_raw_page]: [drain(0..current_size)] panics when
    fewer keys or rids are present. *)
Definition leaf_to_raw_page (p : BPlusTreeLeafPage) : option (option bytes) :=
  let h := lheader p in
  let current_size := Z.to_nat (l_current_size h) in
  let max_size := Z.to_nat (l_max_size h) in
  let res := write_at (replicate PAGE_SIZE 0%Z) 0 (encode_leaf_header h) in
  if decide (current_size <= length (keys p)) then
    if decide (current_size <= length (rids p)) then
      res ← write_seq res 29 key_width (map (encode_uint key_width) (take current_size (keys p)));
      if decide (max_size * RID_SIZE <= PAGE_SIZE) then
        res ← write_seq res (PAGE_SIZE - max_size * RID_SIZE) RID_SIZE
                (map (fun r => encode_uint 4 (rid_page_id r) ++ encode_uint 4 (slot_id r))
                     (take current_size (rids p)));
        Some (Some res)
      else None
    else None
  else None.

End Leaf.

(** [keys.binary_search(key).ok()]: on keys sorted without duplicates it
    finds the unique position holding [key]. *)
Fixpoint find_index (ks : list Z) (k : Z) : option nat :=
  match ks with
  | [] => None
  | k' :: r => if Z.eqb k k' then Some 0 else S <$> find_index r k
  end.

Definition get_rid_of (l : BPlusTreeLeafPage) (k : Z) : option Rid :=
  i ← find_index (keys l) k; rids l !! i.

(** [keys.binary_search(&key)] on keys sorted without duplicates: [Ok(i)]
    when [keys[i] = key], [Err(i)] otherwise, and in both cases [i] is the
    number of keys smaller than [key]; [insert] and [remove] take [i] from
    either arm. *)
Definition search_pos (ks : list Z) (k : Z) : nat := length (List.filter (fun x => Z.ltb x k) ks).

(** Keys in strictly increasing order, the order [binary_search] needs. *)
Fixpoint keys_sorted (ks : list Z) : bool :=
  match ks with
  | x :: ((y :: _) as r) => (x <? y)%Z && keys_sorted r
  | _ => true
  end.

(** [Vec::insert]: panics when the index is past the end. *)
Definition vec_insert {A} (i : nat) (x : A) (l : list A) : option (list A) :=
  if decide (i <= length l) then Some (take i l ++ x :: drop i l) else None.

(** [Vec::remove]: panics when the index is out of range. *)
Definition vec_remove {A} (i : nat) (l : list A) : option (A * list A) :=
  x ← l !! i; Some (x, take i l ++ drop (S i) l).

(** [BPlusTreeLeafPage::insert]; the [todo!] of a full node panics.  The
    header, [current_size] included, is left as it is. *)
Definition leaf_insert (l : BPlusTreeLeafPage) (k : Z) (r : Rid)
  : option (option nat * BPlusTreeLeafPage) :=
  if Z.eqb (l_current_size (lheader l)) (l_max_size (lheader l)) then None
  else
    let pos := search_pos (keys l) k in
    ks ← vec_insert pos k (keys l);
    rs ← vec_insert pos r (rids l);
    Some (Some pos, mkLeaf (lheader l) ks rs).

(** [BPlusTreeLeafPage::remove]; the [todo!] of a half-filled node panics
    ([max_size / 2] is a [u32] division).  The header is left as it is. *)
Definition leaf_remove (l : BPlusTreeLeafPage) (k : Z)
  : option (option (Z * Rid) * BPlusTreeLeafPage) :=
  if Z.eqb (l_current_size (lheader l)) (Z.div (l_max_size (lheader l)) 2) then None
  else
    let pos := search_pos (keys l) k in
    '(k', ks) ← vec_remove pos (keys l);
    '(r', rs) ← vec_remove pos (rids l);
    Some (Some (k', r'), mkLeaf (lheader l) ks rs).

Inductive BPlusTreePage :=
  | InternalPage (p : BPlusTreeInternalPage)
  | LeafPage (p : BPlusTreeLeafPage).

Section Tree.
Variable key_width : nat.
Variable disk0 : nat -> bytes.

(** [BPlusTreePage::from_raw_page]: the type byte at offset 4. *)
Definition page_from_raw_page (raw : bytes) : option (option BPlusTreePage) :=
  match raw !! 4 with
  | None => None
  | Some t =>
      if Z.eqb t 1 then
        match leaf_from_raw_page key_width raw with
        | None => None
        | Some r => Some (LeafPage <$> r)
        end
      else if Z.eqb t 0 then
        match internal_from_raw_page key_width raw with
        | None => None
        | Some r => Some (InternalPage <$> r)
        end
      else Some None
  end.

(** [buffer_pool.data[frame].as_ref()?] followed by the decoding. *)
Definition frame_page (st : BP.BufferPool bytes) (frame : nat)
  : option (option BPlusTreePage) :=
  match BP.data st !! frame with
  | None => None
  | Some None => Some None
  | Some (Some raw) => page_from_raw_page raw
  end.

(** The [while let InternalPage(..)] loop of [get_leaf_of]; [fuel] bounds
    the number of descents, running out of it is reported as [None]. *)
Fixpoint descend (fuel : nat) (k : Z) (st : BP.BufferPool bytes) (cur : BPlusTreePage)
  : option (option BPlusTreePage * BP.BufferPool bytes) :=
  match cur with
  | LeafPage _ => Some (Some cur, st)
  | InternalPage ip =>
      match fuel with
      | O => None
      | S fuel' =>
          next_pid ← get_child_node ip k;
          r ← BP.load_page disk0 st (Z.to_nat next_pid);
          match r with
          | (None, st1) => Some (None, st1)
          | (Some frame, st1) =>
              pg ← frame_page st1 frame;
              match pg with
              | None => Some (None, st1)
              | Some pg' => descend fuel' k st1 pg'
              end
          end
      end
  end.

(** [BPlusTreeIndex::get_leaf_of]. *)
Definition get_leaf_of (fuel : nat) (root_pid : nat) (k : Z) (st : BP.BufferPool bytes)
  : option (option BPlusTreePage * BP.BufferPool bytes) :=
  r ← BP.load_page disk0 st root_pid;
  match r with
  | (None, st1) => Some (None, st1)
  | (Some frame, st1) =>
      pg ← frame_page st1 frame;
      match pg with
      | None => Some (None, st1)
      | Some pg' => descend fuel k st1 pg'
      end
  end.

(** [BPlusTreeIndex::search]. *)
Definition search (fuel : nat) (root_pid : nat) (k : Z) (st : BP.BufferPool bytes)
  : option (option Rid * BP.BufferPool bytes) :=
  r ← get_leaf_of fuel root_pid k st;
  match r with
  | (Some (LeafPage l), st1) => Some (get_rid_of l k, st1)
  | (_, st1) => Some (None, st1)
  end.

End Tree.

(** Every element of a byte list is a byte value. *)
Definition byte_range (l : bytes) : Prop := Forall (fun b => (0 <= b < 256)%Z) l.

End BPT.

(* ------------------------------------------------------------------ *)
(** * Table (heap) page *)
(* ------------------------------------------------------------------ *)

Module TP.

Definition TUPLE_HEADER_SIZE : Z := 5.

(** End of the fixed header [own_pid (u32) | free_space_pointer (u16) |
    tuple_count (u16)]; [to_raw_page] writes the slot headers from here. *)
Definition HEADER_END : Z := 8.

Record TupleHeader := mkTH { tuple_offset : Z; tuple_size : Z; free : bool }.

Record Tuple := mkTuple { tdata : list Z; own_rid : Rid }.

Record TablePage := mkTP {
  own_pid : Z;
  free_space_pointer : Z;
  tuple_count : Z;
  tuple_headers : list TupleHeader;
  tuples : list Tuple
}.

(** A [u16] result of [-], [+] or [*]: out of range is an overflow panic. *)
Definition u16_checked (x : Z) : option Z :=
  if (0 <=? x)%Z && (x <? 65536)%Z then Some x else None.

(** [TablePage::insert]. *)
Definition insert (p : TablePage) (tuple_data : list Z) : option (option Rid * TablePage) :=
  let len := (Z.of_nat (length tuple_data) mod 65536)%Z in   (* [as u16] *)
  fsp ← u16_checked (free_space_pointer p - len);
  let p1 := mkTP (own_pid p) fsp (tuple_count p) (tuple_headers p) (tuples p) in
  c1 ← u16_checked (tuple_count p + 1);
  lhs ← u16_checked (c1 * TUPLE_HEADER_SIZE);
  if (fsp <=? lhs)%Z then Some (None, p1)
  else
    let tuple_header := mkTH fsp len false in
    let rid := mkRid (own_pid p) (Z.of_nat (length (tuple_headers p))) in
    cnt ← u16_checked (tuple_count p + 1);
    Some (Some rid, mkTP (own_pid p) fsp cnt (tuple_headers p ++ [tuple_header])
                         (tuples p ++ [mkTuple tuple_data rid])).

(** The page invariant of the spec. *)
Definition table_invariant (p : TablePage) : Prop :=
  (HEADER_END + tuple_count p * TUPLE_HEADER_SIZE <= free_space_pointer p)%Z.

(** [TablePage::remove].  [||] reads [tuple_headers[slot_id].free] only
    when [slot_id < tuple_count]; the [println!] of the early return reads
    [tuple_headers[slot_id].free] as well, which panics when [slot_id] is
    past the end of the vector. *)
Definition remove (p : TablePage) (slot_id : nat) : option (option Tuple * TablePage) :=
  if Z.leb (tuple_count p) (Z.of_nat slot_id) then
    _ ← tuple_headers p !! slot_id;
    Some (None, p)
  else
    th ← tuple_headers p !! slot_id;
    if free th then Some (None, p)
    else
      hs ← vec_set (tuple_headers p) slot_id (mkTH (tuple_offset th) (tuple_size th) true);
      previous ← tuples p !! slot_id;
      ts ← vec_set (tuples p) slot_id
                   (mkTuple [] (mkRid (own_pid p) (Z.of_nat slot_id mod 4294967296)));
      Some (Some previous, mkTP (own_pid p) (free_space_pointer p) (tuple_count p) hs ts).

(** [bincode::encode_into_slice(value, &mut data[a..b], ..).unwrap()]: the
    range must be valid, and the encoding must fit in the slice (otherwise
    [encode_into_slice] returns an error and [unwrap] panics); the encoding
    is written at the start of the slice. *)
Definition encode_into_slice (res : BPT.bytes) (a b : nat) (enc : BPT.bytes) : option BPT.bytes :=
  _ ← BPT.slice res a b;
  if decide (length enc <= b - a) then Some (BPT.write_at res a enc) else None.

(** A [TupleHeader] as bincode encodes it: two [u16] and a [bool] byte. *)
Definition encode_tuple_header (th : TupleHeader) : BPT.bytes :=
  BPT.encode_uint 2 (tuple_offset th) ++ BPT.encode_uint 2 (tuple_size th) ++
  [if free th then 1%Z else 0%Z].

(** A [Vec<u8>] as bincode encodes it: its length as a [u64] (fixed-int
    encoding; [skip_fixed_array_length] only concerns arrays), then the
    bytes. *)
Definition encode_vec_u8 (d : list Z) : BPT.bytes :=
  BPT.encode_uint 8 (Z.of_nat (length d)) ++ d.

(** The loop of [TablePage::to_raw_page]: for slot [i], the header at
    [index], then [self.tuples[i].data] into
    [result_data[offset..(offset + size) as usize]] (a [u16] addition). *)
Fixpoint write_tuples (res : BPT.bytes) (index : nat) (hs : list TupleHeader) (ts : list Tuple)
  : option BPT.bytes :=
  match hs with
  | [] => Some res
  | th :: hs' =>
      res1 ← encode_into_slice res index (index + 5) (encode_tuple_header th);
      t ← head ts;
      e ← u16_checked (tuple_offset th + tuple_size th);
      res2 ← encode_into_slice res1 (Z.to_nat (tuple_offset th)) (Z.to_nat e)
                               (encode_vec_u8 (tdata t));
      write_tuples res2 (index + 5) hs' (tail ts)
  end.

(** [TablePage::to_raw_page]. *)
Definition to_raw_page (p : TablePage) : option BPT.bytes :=
  let res := replicate BPT.PAGE_SIZE 0%Z in
  res ← encode_into_slice res 0 4 (BPT.encode_uint 4 (own_pid p));
  res ← encode_into_slice res 4 6 (BPT.encode_uint 2 (free_space_pointer p));
  res ← encode_into_slice res 6 8 (BPT.encode_uint 2 (tuple_count p));
  write_tuples res 8 (tuple_headers p) (tuples p).

(** bincode's [bool]: the byte 0 or 1, any other byte is an error. *)
Definition decode_bool (b : Z) : option bool :=
  if Z.eqb b 0 then Some false else if Z.eqb b 1 then Some true else None.

Definition decode_tuple_header (sl : BPT.bytes) : option TupleHeader :=
  off ← BPT.decode_uint 2 sl;
  sz ← BPT.decode_uint 2 (drop 2 sl);
  fb ← BPT.decode_uint 1 (drop 4 sl);
  fr ← decode_bool fb;
  Some (mkTH off sz fr).

(** The loop of [TablePage::from_raw_page] over [0..tuple_count]; a header
    that does not decode is a panic ([unwrap]). *)
Fixpoint read_tuples (data : BPT.bytes) (own : Z) (i slot_id n : nat)
  : option (list TupleHeader * list Tuple) :=
  match n with
  | O => Some ([], [])
  | S n' =>
      sl ← BPT.slice data i (i + 5);
      th ← decode_tuple_header sl;
      let a := Z.to_nat (tuple_offset th) in
      td ← BPT.slice data a (a + Z.to_nat (tuple_size th));
      r ← read_tuples data own (i + 5) (S slot_id) n';
      Some (th :: fst r, mkTuple td (mkRid own (Z.of_nat slot_id)) :: snd r)
  end.

(** [TablePage::from_raw_page]; the inner [None] is its [Err]. *)
Definition from_raw_page (data : BPT.bytes) : option (option TablePage) :=
  s0 ← BPT.slice data 0 4;
  match BPT.decode_uint 4 s0 with
  | None => Some None
  | Some own =>
      s1 ← BPT.slice data 4 6;
      match BPT.decode_uint 2 s1 with
      | None => Some None
      | Some fsp =>
          s2 ← BPT.slice data 6 8;
          match BPT.decode_uint 2 s2 with
          | None => Some None
          | Some cnt =>
              r ← read_tuples data own 8 0 (Z.to_nat cnt);
              Some (Some (mkTP own fsp cnt (fst r) (snd r)))
          end
      end
  end.

(** A 4096-byte table page holding one tuple: [own_pid] 0,
    [free_space_pointer] 4000, [tuple_count] 1, the slot header (offset
    4000, size 3, live) at byte 8, and the bytes 7, 8, 9 at offset 4000. *)
Definition table_page_bytes_one_tuple : BPT.bytes :=
  [0; 0; 0; 0; 160; 15; 1; 0; 160; 15; 3; 0; 0]%Z ++ replicate 3987 0%Z ++
  [7; 8; 9]%Z ++ replicate 93 0%Z.

End TP.

(* ------------------------------------------------------------------ *)
(** * Table directory page *)
(* ------------------------------------------------------------------ *)

(** [table/table_directory_page.rs]: a 16-byte header and
    [(PAGE_SIZE - 16) / 5 = 816] entries of a [u8] and a [u32]. *)
Module TD.

Record DirectoryEntry := mkDE { capacity : Z; de_page_id : Z }.

Record TableDirectoryPage := mkTD {
  own_pid : Z;
  lsn : Z;
  prev_directory : Z;
  next_directory : Z;
  entries : list DirectoryEntry
}.

Definition ENTRY_COUNT : nat := (BPT.PAGE_SIZE - 16) / 5.

Definition encode_entry (e : DirectoryEntry) : BPT.bytes :=
  BPT.encode_uint 1 (capacity e) ++ BPT.encode_uint 4 (de_page_id e).

(** The derived bincode encoding of the struct: fixed-width little-endian
    integers, the array without its length. *)
Definition encode (p : TableDirectoryPage) : BPT.bytes :=
  BPT.encode_uint 4 (own_pid p) ++ BPT.encode_uint 4 (lsn p) ++
  BPT.encode_uint 4 (prev_directory p) ++ BPT.encode_uint 4 (next_directory p) ++
  concat (map encode_entry (entries p)).

(** [TableDirectoryPage::to_raw_page]: [encode_into_slice] into a zeroed
    [[u8; 4096]]; [expect] panics when the encoding does not fit. *)
Definition to_raw_page (p : TableDirectoryPage) : option BPT.bytes :=
  let enc := encode p in
  if decide (length enc <= BPT.PAGE_SIZE)
  then Some (BPT.write_at (replicate BPT.PAGE_SIZE 0%Z) 0 enc) else None.

Fixpoint decode_entries (bs : BPT.bytes) (n : nat) : option (list DirectoryEntry) :=
  match n with
  | O => Some []
  | S n' =>
      c ← BPT.decode_uint 1 bs;
      pid ← BPT.decode_uint 4 (drop 1 bs);
      rest ← decode_entries (drop 5 bs) n';
      Some (mkDE c pid :: rest)
  end.

(** [TableDirectoryPage::from_raw_page]: [decode_from_slice] of the whole
    page; [expect] panics when it fails. *)
Definition from_raw_page (data : BPT.bytes) : option TableDirectoryPage :=
  own ← BPT.decode_uint 4 data;
  l ← BPT.decode_uint 4 (drop 4 data);
  prev ← BPT.decode_uint 4 (drop 8 data);
  next ← BPT.decode_uint 4 (drop 12 data);
  es ← decode_entries (drop 16 data) ENTRY_COUNT;
  Some (mkTD own l prev next es).

End TD.

(* ------------------------------------------------------------------ *)
(** * Extendible hash index *)
(* ------------------------------------------------------------------ *)

Module EH.

(** Capacity of the two arrays of [HashDirectoryPage]. *)
Definition DIR_SIZE : nat := 512.

(** The key and value types of an index, with what the Rust bounds give:
    [Eq] ([key_eqb]), [Default], [Hash] through [DefaultHasher]
    ([get_hash], a [u64]), and the bucket capacity
    [PAGE_SIZE / (2 + size_of::<K>() + size_of::<V>())]. *)
Record HashParams := mkHashParams {
  Key : Type;
  Value : Type;
  key_eqb : Key -> Key -> bool;
  key_default : Key;
  value_default : Value;
  get_hash : Key -> N;
  number_of_entries : nat
}.

Section Index.
Variable P : HashParams.
Local Abbreviation K := (Key P).
Local Abbreviation V := (Value P).

(** [HashBucketPage]: three parallel vectors. *)
Record HashBucketPage := mkBucket {
  readable : list bool;
  has_been_occupied : list bool;
  key_values : list (K * V)
}.

(** [HashBucketPage::from_raw_page] of a zero-filled page: nothing
    readable, nothing occupied, every pair decoded from zero bytes, which
    is the default pair for the integer types of the index. *)
Definition empty_bucket : HashBucketPage :=
  mkBucket (replicate (number_of_entries P) false) (replicate (number_of_entries P) false)
           (replicate (number_of_entries P) (key_default P, value_default P)).

Definition toggle_readable (b : HashBucketPage) (index : nat) : option HashBucketPage :=
  match readable b !! index with
  | Some r => Some (mkBucket (<[index := negb r]> (readable b)) (has_been_occupied b) (key_values b))
  | None => None
  end.

Definition set_has_been_occupied (b : HashBucketPage) (index : nat) (o : bool)
  : option HashBucketPage :=
  match has_been_occupied b !! index with
  | Some _ => Some (mkBucket (readable b) (<[index := o]> (has_been_occupied b)) (key_values b))
  | None => None
  end.

Definition is_full (b : HashBucketPage) : bool := forallb (fun r => r) (readable b).

Fixpoint first_false (l : list bool) : option nat :=
  match l with
  | [] => None
  | false :: _ => Some 0
  | true :: r => S <$> first_false r
  end.

Definition first_free_index (b : HashBucketPage) : option nat := first_false (readable b).

(** [HashBucketPage::insert]; [None] is its [Err] (every caller then
    panics through [expect]), a failing [expect("Unreachable")] inside
    is a panic as well. *)
Definition bucket_insert (b : HashBucketPage) (k : K) (v : V) : option HashBucketPage :=
  index ← first_free_index b;
  b1 ← toggle_readable b index;
  b2 ← set_has_been_occupied b1 index true;
  if decide (index < length (key_values b2)) then
    Some (mkBucket (readable b2) (has_been_occupied b2) (<[index := (k, v)]> (key_values b2)))
  else None.

(** [HashBucketPage::remove_index]: toggles the flag and swaps in the
    default pair with [splice]. *)
Definition remove_index (b : HashBucketPage) (index : nat) : option ((K * V) * HashBucketPage) :=
  b1 ← toggle_readable b index;
  old ← key_values b1 !! index;
  Some (old, mkBucket (readable b1) (has_been_occupied b1)
                      (<[index := (key_default P, value_default P)]> (key_values b1))).

(** The [filter(..).next()] of [HashBucketPage::remove]: the first index
    whose key matches and whose slot is readable; [&&] only reads the flag
    of a matching key. *)
Fixpoint find_live (kvs : list (K * V)) (rd : list bool) (k : K) (i : nat) : option (option nat) :=
  match kvs with
  | [] => Some None
  | kv :: rest =>
      if key_eqb P (fst kv) k then
        match rd !! i with
        | Some true => Some (Some i)
        | Some false => find_live rest rd k (S i)
        | None => None
        end
      else find_live rest rd k (S i)
  end.

(** [HashBucketPage::remove]: the removed pair, or [None] for its [Err]. *)
Definition bucket_remove (b : HashBucketPage) (k : K) : option (option (K * V) * HashBucketPage) :=
  found ← find_live (key_values b) (readable b) k 0;
  match found with
  | None => Some (None, b)
  | Some index =>
      b1 ← toggle_readable b index;
      old ← key_values b1 !! index;
      Some (Some old, mkBucket (readable b1) (has_been_occupied b1)
                               (<[index := (key_default P, value_default P)]> (key_values b1)))
  end.

(** [HashDirectoryPage]; the arrays [[u8; 512]] and [[u32; 512]] are
    functions on indices, read and written through bounds checks. *)
Record HashDirectoryPage := mkDir {
  dir_page_id : N;
  log_id : N;
  global_depth : N;
  local_depths : nat -> N;
  bucket_page_ids : nat -> N
}.

Definition fupd {A} (f : nat -> A) (i : nat) (x : A) : nat -> A :=
  fun j => if Nat.eqb j i then x else f j.

Definition get_local_depth (d : HashDirectoryPage) (index : nat) : option N :=
  if decide (index < DIR_SIZE) then Some (local_depths d index) else None.

Definition get_bucket_page_id (d : HashDirectoryPage) (index : nat) : option N :=
  if decide (index < DIR_SIZE) then Some (bucket_page_ids d index) else None.

Definition set_local_depth (d : HashDirectoryPage) (index : nat) (x : N) : option HashDirectoryPage :=
  if decide (index < DIR_SIZE) then
    Some (mkDir (dir_page_id d) (log_id d) (global_depth d) (fupd (local_depths d) index x)
                (bucket_page_ids d))
  else None.

Definition set_bucket_page_id (d : HashDirectoryPage) (index : nat) (x : N) : option HashDirectoryPage :=
  if decide (index < DIR_SIZE) then
    Some (mkDir (dir_page_id d) (log_id d) (global_depth d) (local_depths d)
                (fupd (bucket_page_ids d) index x))
  else None.

(** [increment_local_depth]: [*depth += 1] on a [u8]. *)
Definition increment_local_depth (d : HashDirectoryPage) (index : nat)
  : option (N * HashDirectoryPage) :=
  ld ← get_local_depth d index;
  if decide (ld + 1 < 256)%N then
    d' ← set_local_depth d index (ld + 1);
    Some (ld + 1, d')%N
  else None.

Definition increment_global_depth (d : HashDirectoryPage) : option HashDirectoryPage :=
  if decide (global_depth d + 1 < 256)%N then
    Some (mkDir (dir_page_id d) (log_id d) (global_depth d + 1) (local_depths d) (bucket_page_ids d))
  else None.

Definition new_empty (own_pid bucket1_pid bucket2_pid log : N) : HashDirectoryPage :=
  mkDir own_pid log 1
        (fun i => if Nat.eqb i 0 then 1%N else if Nat.eqb i 1 then 1%N else 0%N)
        (fun i => if Nat.eqb i 0 then bucket1_pid else if Nat.eqb i 1 then bucket2_pid else 0%N).

(** [(x >> s) & 1 == 0]. *)
Definition bit_is_zero (x s : N) : bool := N.eqb (N.land (N.shiftr x s) 1) 0.

(** [bucket_index_of_key]: [hash % (1 << global_depth)]. *)
Definition bucket_index_of_key (k : K) (d : HashDirectoryPage) : nat :=
  N.to_nat (N.modulo (get_hash P k) (2 ^ global_depth d)).

(** [local_split_bucket]: the loop over [0..(1 << global_depth)]. *)
Fixpoint local_split_loop (d : HashDirectoryPage) (new_local_depth : N)
    (new_bucket_page_id old_bucket_page_id : N) (is : list nat) : option HashDirectoryPage :=
  match is with
  | [] => Some d
  | i :: rest =>
      bp ← get_bucket_page_id d i;
      d' ← (if N.eqb bp old_bucket_page_id then
              d1 ← set_local_depth d i new_local_depth;
              if bit_is_zero (N.of_nat i) (new_local_depth - 1) then
                set_bucket_page_id d1 i new_bucket_page_id
              else Some d1
            else Some d);
      local_split_loop d' new_local_depth new_bucket_page_id old_bucket_page_id rest
  end.

Definition local_split_bucket (d : HashDirectoryPage) (new_local_depth : N)
    (new_bucket_page_id old_bucket_page_id : N) : option HashDirectoryPage :=
  local_split_loop d new_local_depth new_bucket_page_id old_bucket_page_id
                   (seq 0 (2 ^ N.to_nat (global_depth d))).

(** [global_split_bucket]: the copy loop over [0..(1 << old_global_depth)]. *)
Fixpoint global_copy_loop (d : HashDirectoryPage) (half : nat) (is : list nat)
  : option HashDirectoryPage :=
  match is with
  | [] => Some d
  | i :: rest =>
      bp ← get_bucket_page_id d i;
      d1 ← set_bucket_page_id d (i + half) bp;
      ld ← get_local_depth d1 i;
      d2 ← set_local_depth d1 (i + half) ld;
      global_copy_loop d2 half rest
  end.

Definition global_split_bucket (d : HashDirectoryPage) (bucket_index : nat)
    (new_bucket_page_id : N) : option HashDirectoryPage :=
  let old_global_depth := N.to_nat (global_depth d) in
  d1 ← increment_global_depth d;
  d2 ← global_copy_loop d1 (2 ^ old_global_depth) (seq 0 (2 ^ old_global_depth));
  set_bucket_page_id d2 bucket_index new_bucket_page_id.

(** The pages of the index as the buffer pool serves them: the directory
    page, the bucket pages by page id (as decoded views), and the next page
    id the disk manager allocates ([file_length / PAGE_SIZE]).  Reads
    return the last [update_page]; pins do not change page contents. *)
Record HState := mkHState {
  directory : HashDirectoryPage;
  buckets : N -> HashBucketPage;
  next_page_id : N
}.

Definition Nupd {A} (f : N -> A) (p : N) (x : A) : N -> A :=
  fun q => if N.eqb q p then x else f q.

(** [load_new_page]: allocates a zero-filled page. *)
Definition load_new_page (st : HState) : N * HState :=
  (next_page_id st,
   mkHState (directory st) (Nupd (buckets st) (next_page_id st) empty_bucket)
            (next_page_id st + 1)).

(** [update_directory_and_bucket]. *)
Definition update_directory_and_bucket (st : HState) (d : HashDirectoryPage)
    (bucket_page_id : N) (b : HashBucketPage) : HState :=
  mkHState d (Nupd (buckets st) bucket_page_id b) (next_page_id st).

(** The rehash loop of [split_bucket] over [0..bucket_page.key_values.len()]. *)
Fixpoint rehash_loop (new_local_depth : N) (b nb : HashBucketPage) (is : list nat)
  : option (HashBucketPage * HashBucketPage) :=
  match is with
  | [] => Some (b, nb)
  | i :: rest =>
      kv ← key_values b !! i;
      if bit_is_zero (get_hash P (fst kv)) (new_local_depth - 1) then
        r ← remove_index b i;
        let '(key_value, b1) := r in
        nb1 ← bucket_insert nb (fst key_value) (snd key_value);
        rehash_loop new_local_depth b1 nb1 rest
      else rehash_loop new_local_depth b nb rest
  end.

(** [split_bucket]: the old bucket and the directory as the caller's
    variables hold them afterwards, and the pages. *)
Definition split_bucket (st : HState) (bucket_index : nat) (b : HashBucketPage)
    (d : HashDirectoryPage) : option (HashBucketPage * HashDirectoryPage * HState) :=
  r ← increment_local_depth d bucket_index;
  let '(new_local_depth, d1) := r in
  let '(new_bucket_page_id, st1) := load_new_page st in
  let new_bucket_page := buckets st1 new_bucket_page_id in
  old_bucket_page_id ← get_bucket_page_id d1 bucket_index;
  d2 ← (if N.ltb (global_depth d1) new_local_depth
        then global_split_bucket d1 bucket_index new_bucket_page_id
        else local_split_bucket d1 new_local_depth new_bucket_page_id old_bucket_page_id);
  r2 ← rehash_loop new_local_depth b new_bucket_page (seq 0 (length (key_values b)));
  let '(b', nb') := r2 in
  Some (b', d2, mkHState (directory st1) (Nupd (buckets st1) new_bucket_page_id nb')
                         (next_page_id st1)).

(** [insert_with_lock].  [fuel] bounds the depth of the recursive call;
    running out of it is reported as [None] like a panic. *)
Fixpoint insert_with_lock (fuel : nat) (st : HState) (k : K) (v : V) : option HState :=
  match fuel with
  | O => None
  | S fuel' =>
      let directory_page := directory st in
      let bucket_index := bucket_index_of_key k directory_page in
      bucket_page_id ← get_bucket_page_id directory_page bucket_index;
      let bucket_page := buckets st bucket_page_id in
      if is_full bucket_page then
        r ← split_bucket st bucket_index bucket_page directory_page;
        let '(bucket_page', directory_page', st1) := r in
        let st2 := update_directory_and_bucket st1 directory_page' bucket_page_id bucket_page' in
        st3 ← insert_with_lock fuel' st2 k v;
        Some (update_directory_and_bucket st3 directory_page' bucket_page_id bucket_page')
      else
        bucket_page' ← bucket_insert bucket_page k v;
        Some (update_directory_and_bucket st directory_page bucket_page_id bucket_page')
  end.

(** [ExtendibleHashing::remove]. *)
Definition remove (st : HState) (k : K) : option (option (K * V) * HState) :=
  let directory_page := directory st in
  let index := bucket_index_of_key k directory_page in
  bucket_pid ← get_bucket_page_id directory_page index;
  r ← bucket_remove (buckets st bucket_pid) k;
  let '(result, bucket_page) := r in
  Some (result, update_directory_and_bucket st directory_page bucket_pid bucket_page).

(** Modelled from the spec: lookup, which the sources do not define
    ("pin directory -> compute slot -> pin bucket -> linear scan of the
    readable slots comparing keys"). *)
Fixpoint scan_readable (rd : list bool) (kvs : list (K * V)) (k : K) : option V :=
  match rd, kvs with
  | r :: rd', kv :: kvs' =>
      if r && key_eqb P (fst kv) k then Some (snd kv) else scan_readable rd' kvs' k
  | _, _ => None
  end.

Definition lookup (st : HState) (k : K) : option V :=
  let d := directory st in
  bucket_page_id ← get_bucket_page_id d (bucket_index_of_key k d);
  let b := buckets st bucket_page_id in
  scan_readable (readable b) (key_values b) k.

(** [setup_new_hashmap] on an empty file: directory page 0, buckets 1 and
    2, every other page zero-filled when allocated. *)
Definition setup_new_hashmap (log : N) : HState :=
  mkHState (new_empty 0 1 2 log) (fun _ => empty_bucket) 3.

(** Live entries: readable slots. *)
Definition live (b : HashBucketPage) (e : K * V) : Prop :=
  exists i, readable b !! i = Some true /\ key_values b !! i = Some e.

(** The directory invariant of the spec. *)
Definition dir_invariant (st : HState) : Prop :=
  let d := directory st in
  forall i e, i < 2 ^ N.to_nat (global_depth d) ->
    live (buckets st (bucket_page_ids d i)) e ->
    N.modulo (get_hash P (fst e)) (2 ^ local_depths d i) =
    N.modulo (N.of_nat i) (2 ^ local_depths d i).

(** States reached from a fresh index by successful inserts and removes. *)
Inductive reachable : HState -> Prop :=
  | reach_setup log : reachable (setup_new_hashmap log)
  | reach_insert st fuel k v st' :
      reachable st -> insert_with_lock fuel st k v = Some st' -> reachable st'
  | reach_remove st k r st' :
      reachable st -> remove st k = Some (r, st') -> reachable st'.

(** Successive inserts, stopping at the first panic. *)
Fixpoint insert_all (fuel : nat) (st : HState) (kvs : list (K * V)) : option HState :=
  match kvs with
  | [] => Some st
  | (k, v) :: rest =>
      st' ← insert_with_lock fuel st k v;
      insert_all fuel st' rest
  end.

(** ** Structural facts about the directory *)

(** [a] and [b] agree on their [L] low bits. *)
Definition eqbits (a b L : N) : Prop :=
  forall n, (n < L)%N -> N.testbit a n = N.testbit b n.

(** The number of directory slots in use, [1 << global_depth]. *)
Definition nslots (d : HashDirectoryPage) : nat := 2 ^ N.to_nat (global_depth d).

(** The shape every directory of the index keeps: the slots in use fit in
    the arrays, no local depth exceeds the global depth, slots sharing a
    bucket share its local depth and agree on that many low bits, and
    every bucket id is an allocated page. *)
Definition dir_wf (d : HashDirectoryPage) (next : N) : Prop :=
  nslots d <= DIR_SIZE /\
  (forall i, i < nslots d -> (local_depths d i <= global_depth d)%N) /\
  (forall i j, i < nslots d -> j < nslots d -> bucket_page_ids d i = bucket_page_ids d j ->
     local_depths d i = local_depths d j /\ eqbits (N.of_nat i) (N.of_nat j) (local_depths d i)) /\
  (forall i, i < nslots d -> (bucket_page_ids d i < next)%N).

(** The directory [d1] produced from [d] by splitting the bucket of slot
    [s] into itself and the fresh page [new]. *)
Definition split_shape (d d1 : HashDirectoryPage) (s : nat) (new : N) : Prop :=
  let B := bucket_page_ids d s in
  let Ls := local_depths d s in
  (global_depth d <= global_depth d1)%N /\ (Ls + 1 <= global_depth d1)%N /\
  nslots d1 <= DIR_SIZE /\
  (forall i, i < nslots d1 -> bucket_page_ids d1 i = B ->
     local_depths d1 i = (Ls + 1)%N /\ N.testbit (N.of_nat i) Ls = true /\
     eqbits (N.of_nat i) (N.of_nat s) Ls) /\
  (forall i, i < nslots d1 -> bucket_page_ids d1 i = new ->
     local_depths d1 i = (Ls + 1)%N /\ N.testbit (N.of_nat i) Ls = false /\
     eqbits (N.of_nat i) (N.of_nat s) Ls) /\
  (forall i, i < nslots d1 -> bucket_page_ids d1 i <> B -> bucket_page_ids d1 i <> new ->
     exists i0, i0 < nslots d /\ bucket_page_ids d i0 = bucket_page_ids d1 i /\
       local_depths d i0 = local_depths d1 i /\
       eqbits (N.of_nat i) (N.of_nat i0) (local_depths d1 i)) /\
  (forall i0, i0 < nslots d -> bucket_page_ids d i0 <> B ->
     bucket_page_ids d1 i0 = bucket_page_ids d i0 /\ local_depths d1 i0 = local_depths d i0).

(** The directory invariant on bits. *)
Definition inv_bits (d : HashDirectoryPage) (store : N -> HashBucketPage) : Prop :=
  forall i e, i < nslots d -> live (store (bucket_page_ids d i)) e ->
    eqbits (get_hash P (fst e)) (N.of_nat i) (local_depths d i).

(** Key [k] may be stored in page [p]: every slot pointing to [p] addresses it. *)
Definition addr_ok (d : HashDirectoryPage) (k : K) (p : N) : Prop :=
  forall i, i < nslots d -> bucket_page_ids d i = p ->
    eqbits (get_hash P k) (N.of_nat i) (local_depths d i).

End Index.

Arguments mkBucket {P}.
Arguments readable {P}.
Arguments has_been_occupied {P}.
Arguments key_values {P}.
Arguments mkHState {P}.
Arguments directory {P}.
Arguments buckets {P}.
Arguments next_page_id {P}.
Arguments toggle_readable {P}.
Arguments set_has_been_occupied {P}.
Arguments is_full {P}.
Arguments first_free_index {P}.
Arguments bucket_insert {P}.
Arguments remove_index {P}.
Arguments bucket_remove {P}.
Arguments load_new_page {P}.
Arguments update_directory_and_bucket {P}.
Arguments rehash_loop {P}.
Arguments split_bucket {P}.
Arguments insert_with_lock {P}.
Arguments remove {P}.
Arguments lookup {P}.
Arguments live {P}.
Arguments dir_invariant {P}.
Arguments insert_all {P}.
Arguments inv_bits {P}.
Arguments addr_ok {P}.

(** ** [DefaultHasher]: SipHash-1-3 with the keys (0, 0) *)

Definition MASK64 : Z := Z.ones 64.
Definition add64 (a b : Z) : Z := Z.land (a + b) MASK64.
Definition rotl64 (x : Z) (b : Z) : Z :=
  Z.land (Z.lor (Z.shiftl x b) (Z.shiftr x (64 - b))) MASK64.

Record SipState := mkSip { v0 : Z; v1 : Z; v2 : Z; v3 : Z }.

Definition sip_round (s : SipState) : SipState :=
  let '(mkSip v0 v1 v2 v3) := s in
  let v0 := add64 v0 v1 in let v1 := rotl64 v1 13 in let v1 := Z.lxor v1 v0 in
  let v0 := rotl64 v0 32 in
  let v2 := add64 v2 v3 in let v3 := rotl64 v3 16 in let v3 := Z.lxor v3 v2 in
  let v0 := add64 v0 v3 in let v3 := rotl64 v3 21 in let v3 := Z.lxor v3 v0 in
  let v2 := add64 v2 v1 in let v1 := rotl64 v1 17 in let v1 := Z.lxor v1 v2 in
  let v2 := rotl64 v2 32 in
  mkSip v0 v1 v2 v3.

Fixpoint sip_rounds (n : nat) (s : SipState) : SipState :=
  match n with O => s | S n' => sip_rounds n' (sip_round s) end.

Definition le_word (bs : list Z) : Z :=
  fold_right (fun b acc => b + 256 * acc)%Z 0%Z bs.

Definition sip_compress (c : nat) (s : SipState) (m : Z) : SipState :=
  let '(mkSip v0 v1 v2 v3) := s in
  let '(mkSip v0 v1 v2 v3) := sip_rounds c (mkSip v0 v1 v2 (Z.lxor v3 m)) in
  mkSip (Z.lxor v0 m) v1 v2 v3.

(** SipHash-c-d of a byte string under the 128-bit key [(k0, k1)]. *)
Fixpoint sip_blocks (c : nat) (s : SipState) (bs : list Z) (fuel : nat) : SipState * list Z :=
  match fuel with
  | O => (s, bs)
  | S fuel' =>
      if decide (8 <= length bs) then
        sip_blocks c (sip_compress c s (le_word (take 8 bs))) (drop 8 bs) fuel'
      else (s, bs)
  end.

Definition siphash (c d : nat) (k0 k1 : Z) (msg : list Z) : Z :=
  let s := mkSip (Z.lxor k0 0x736f6d6570736575) (Z.lxor k1 0x646f72616e646f6d)
                 (Z.lxor k0 0x6c7967656e657261) (Z.lxor k1 0x7465646279746573) in
  let '(s, tail) := sip_blocks c s msg (length msg) in
  let b := Z.lor (Z.shiftl (Z.of_nat (length msg) mod 256) 56) (le_word tail) in
  let '(mkSip v0 v1 v2 v3) := sip_compress c s b in
  let '(mkSip v0 v1 v2 v3) := sip_rounds d (mkSip v0 v1 (Z.lxor v2 0xff) v3) in
  Z.lxor (Z.lxor v0 v1) (Z.lxor v2 v3).

(** [get_hash] of a [u32] key: [Hash for u32] writes its 4 little-endian
    bytes, [DefaultHasher::new()] is SipHash-1-3 keyed with zeros. *)
Definition get_hash_u32 (x : N) : N :=
  Z.to_N (siphash 1 3 0 0 (map (fun i => Z.land (Z.shiftr (Z.of_N x) (8 * Z.of_nat i)) 255) (seq 0 4))).

(** The index of [main.rs]: [ExtendibleHashing::<u32, u32>], bucket
    capacity [4096 / (2 + 4 + 4) = 409]. *)
Definition u32_index : HashParams :=
  mkHashParams N N N.eqb 0%N 0%N get_hash_u32 (4096 / (2 + 4 + 4)).

(** The first 409 keys (from 0 upwards) whose hash is even: with global
    depth 1 they all address slot 0. *)
Definition u32_even_hash_keys : list N :=
  take 409 (filter (fun x => N.even (get_hash_u32 x)) (map N.of_nat (seq 0 2000))).


(** ** Page codecs of the index *)

(** [HashDirectoryPage::to_raw_page]: page id and log id as [u32], the
    global depth byte, the 512 local depth bytes, the 512 bucket page ids
    as [u32], then zeros up to [PAGE_SIZE]. *)
Definition dir_to_raw_page (d : HashDirectoryPage) : option BPT.bytes :=
  let v := BPT.encode_uint 4 (Z.of_N (dir_page_id d)) ++ BPT.encode_uint 4 (Z.of_N (log_id d)) ++
           [Z.of_N (global_depth d)] ++
           map (fun i => Z.of_N (local_depths d i)) (seq 0 DIR_SIZE) ++
           concat (map (fun i => BPT.encode_uint 4 (Z.of_N (bucket_page_ids d i))) (seq 0 DIR_SIZE)) in
  if decide (length v <= BPT.PAGE_SIZE)
  then Some (v ++ replicate (BPT.PAGE_SIZE - length v) 0%Z) else None.

Fixpoint decode_u32s (bs : BPT.bytes) (n : nat) : option (list Z) :=
  match n with
  | O => Some []
  | S n' => x ← BPT.decode_uint 4 bs; r ← decode_u32s (drop 4 bs) n'; Some (x :: r)
  end.

(** [HashDirectoryPage::from_raw_page]; the arrays are read back as
    functions on indices (past index 511 they are never read). *)
Definition dir_from_raw_page (bytes : BPT.bytes) : option HashDirectoryPage :=
  s0 ← BPT.slice bytes 0 4;
  page_id ← BPT.decode_uint 4 s0;
  s1 ← BPT.slice bytes 4 8;
  log ← BPT.decode_uint 4 s1;
  gd ← bytes !! 8;
  ld ← BPT.slice bytes 9 521;
  s2 ← BPT.slice bytes 521 2569;
  bp ← decode_u32s s2 DIR_SIZE;
  Some (mkDir (Z.to_N page_id) (Z.to_N log) (Z.to_N gd)
              (fun i => Z.to_N (nth i ld 0%Z)) (fun i => Z.to_N (nth i bp 0%Z))).

Definition bool_byte (b : bool) : Z := if b then 1%Z else 0%Z.

(** [HashBucketPage::<u32, u32>::to_raw_page]: the readable flags, the
    occupied flags, the pairs as two [u32], then zeros; [PAGE_SIZE -
    data.len()] underflows (panics) when the data is too long. *)
Definition bucket_to_raw_page (b : HashBucketPage u32_index) : option BPT.bytes :=
  let data := map bool_byte (readable b) ++ map bool_byte (has_been_occupied b) ++
              concat (map (fun kv : N * N => BPT.encode_uint 4 (Z.of_N (fst kv)) ++
                                              BPT.encode_uint 4 (Z.of_N (snd kv)))
                          (key_values b)) in
  if decide (length data <= BPT.PAGE_SIZE)
  then Some (data ++ replicate (BPT.PAGE_SIZE - length data) 0%Z) else None.

(** The loop of [HashBucketPage::<u32, u32>::from_raw_page] over
    [0..number_of_entries]. *)
Fixpoint read_bucket (data : BPT.bytes) (n : nat) (is : list nat)
  : option (list bool * list bool * list (N * N)) :=
  match is with
  | [] => Some ([], [], [])
  | i :: rest =>
      r ← data !! i;
      o ← data !! (i + n);
      let start := 8 * i + n * 2 in
      sl ← BPT.slice data start (start + 8);
      k ← BPT.decode_uint 4 sl;
      v ← BPT.decode_uint 4 (drop 4 sl);
      t ← read_bucket data n rest;
      let '(rs, os, kvs) := t in
      Some (negb (Z.eqb r 0) :: rs, negb (Z.eqb o 0) :: os, (Z.to_N k, Z.to_N v) :: kvs)
  end.

(** [HashBucketPage::<u32, u32>::from_raw_page]: [number_of_entries =
    PAGE_SIZE / (1 + 1 + 4 + 4)]. *)
Definition bucket_from_raw_page (data : BPT.bytes) : option (HashBucketPage u32_index) :=
  let n := BPT.PAGE_SIZE / (1 + 1 + 4 + 4) in
  t ← read_bucket data n (seq 0 n);
  let '(rs, os, kvs) := t in
  Some (@mkBucket u32_index rs os kvs).

(** The eight bytes [bucket_to_raw_page] writes for one key-value pair. *)
Definition kv_bytes (kv : N * N) : BPT.bytes :=
  BPT.encode_uint 4 (Z.of_N (fst kv)) ++ BPT.encode_uint 4 (Z.of_N (snd kv)).

End EH.

(* ================================================================== *)
(** * Proofs *)
(* ================================================================== *)

(* ------------------------------------------------------------------ *)
(** ** Buffer pool *)
(* ------------------------------------------------------------------ *)

Section BufferPoolProofs.
Import BP.

(** Claim C9: [unload_page_id] fails exactly when the page is not resident
    or has no pin left; a failure leaves the pool as it was; a success
    decrements the pin count, and the page enters the replacer exactly on
    the 1 -> 0 transition. *)
Theorem unload_page_id_spec {Page} (st : BufferPool Page) (pid : nat) :
  let '(r, st') := unload_page_id st pid in
  (r = RErr <-> page_table st !! pid = None \/
               exists e, page_table st !! pid = Some e /\ ref_count e = 0) /\
  (r = RErr -> st' = st) /\
  (r = ROk -> exists e,
      page_table st !! pid = Some e /\ ref_count e <> 0 /\
      page_table st' = <[pid := mkPTE (frame_index e) (dirty e) (ref_count e - 1)]>
                         (page_table st) /\
      data st' = data st /\ disk_writes st' = disk_writes st /\
      lru_replacer st' = (if Nat.eqb (ref_count e) 1
                          then lru_add_page (lru_replacer st) pid
                          else lru_replacer st)).
Proof.
  unfold unload_page_id.
  destruct (page_table st !! pid) as [e|] eqn:He.
  - destruct (Nat.eqb (ref_count e) 0) eqn:H0.
    + apply Nat.eqb_eq in H0. split; [|split]; try done.
      split; [intros _; right; eauto|done].
    + apply Nat.eqb_neq in H0. simpl. split; [|split].
      * split; [discriminate|]. intros [?|(e' & He' & Hz)]; [congruence|].
        injection He' as <-. lia.
      * discriminate.
      * intros _. exists e. repeat split; try done.
        replace (Nat.eqb (ref_count e - 1) 0) with (Nat.eqb (ref_count e) 1); [done|].
        destruct (ref_count e) as [|[|n]]; simpl; try lia; done.
  - split; [|split]; try done. split; [intros _; left; done|done].
Qed.

Lemma flush_entries_spec {Page} (d : list (option Page)) :
  forall (ents : list (nat * PageTableEntry)) (w : list (nat * Page)),
  NoDup ents.*1 ->
  (forall pid e, (pid, e) ∈ ents -> dirty e = true ->
     exists pg, d !! frame_index e = Some (Some pg)) ->
  exists nw, flush_entries Page d ents w = Some (nw ++ w) /\
    NoDup nw.*1 /\
    (forall pid pg, (pid, pg) ∈ nw <->
       exists e, (pid, e) ∈ ents /\ dirty e = true /\
                 d !! frame_index e = Some (Some pg)).
Proof.
  induction ents as [|[pid e] rest IH]; intros w Hnd Hok; simpl.
  - exists []. split; [done|]. split; [constructor|].
    intros pid pg. split; [intros Hin; inversion Hin|intros (? & Hin & _); inversion Hin].
  - apply NoDup_cons in Hnd as [Hnin Hnd].
    assert (Hok' : forall pid' e', (pid', e') ∈ rest -> dirty e' = true ->
                     exists pg, d !! frame_index e' = Some (Some pg)).
    { intros pid' e' Hin. apply (Hok pid'). by right. }
    destruct (dirty e) eqn:Hd.
    + destruct (Hok pid e ltac:(left) Hd) as [pg Hpg]. rewrite Hpg.
      destruct (IH ((pid, pg) :: w) Hnd Hok') as (nw & Hrun & Hnd' & Hmem).
      exists (nw ++ [(pid, pg)]). rewrite Hrun, <- app_assoc. split; [done|].
      split.
      * rewrite fmap_app. simpl. apply NoDup_app. split; [done|]. split.
        -- intros x Hx Hx'. apply list_elem_of_singleton in Hx'. subst x.
           apply Hnin. apply list_elem_of_fmap in Hx as [[p q] [Hp Hin]].
           simpl in Hp. subst p. apply Hmem in Hin as (e' & Hin' & _).
           apply list_elem_of_fmap. exists (pid, e'). done.
        -- apply NoDup_singleton.
      * intros p q. rewrite elem_of_app, list_elem_of_singleton, Hmem. split.
        -- intros [(e' & Hin & Hd' & Hq)|Heq].
           ++ exists e'. split; [by right|done].
           ++ injection Heq as -> ->. exists e. split; [left|done].
        -- intros (e' & Hin & Hd' & Hq). apply elem_of_cons in Hin as [Heq|Hin].
           ++ injection Heq as -> ->. right. congruence.
           ++ left. eauto.
    + destruct (IH w Hnd Hok') as (nw & Hrun & Hnd' & Hmem).
      exists nw. split; [done|]. split; [done|].
      intros p q. rewrite Hmem. split.
      * intros (e' & Hin & Hd' & Hq). exists e'. split; [by right|done].
      * intros (e' & Hin & Hd' & Hq). apply elem_of_cons in Hin as [Heq|Hin].
        -- injection Heq as -> ->. congruence.
        -- eauto.
Qed.

(** Claim C4: when every dirty entry refers to a filled frame, flushing
    writes every dirty page exactly once (with the content of its frame),
    writes no clean page, and leaves an empty pool. *)
Theorem unload_all_pages_and_write_to_file_spec {Page} (st : BufferPool Page)
  (Hframes : forall pid e, page_table st !! pid = Some e -> dirty e = true ->
               exists pg, data st !! frame_index e = Some (Some pg)) :
  exists st', unload_all_pages_and_write_to_file st = Some st' /\
    page_table st' = ∅ /\
    length (data st') = length (data st) /\ Forall (fun f => f = None) (data st') /\
    lru_replacer st' = [] /\
    exists written, disk_writes st' = written ++ disk_writes st /\
      NoDup written.*1 /\
      (forall pid, pid ∈ written.*1 <->
         exists e, page_table st !! pid = Some e /\ dirty e = true) /\
      (forall pid pg, (pid, pg) ∈ written ->
         exists e, page_table st !! pid = Some e /\ data st !! frame_index e = Some (Some pg)).
Proof.
  unfold unload_all_pages_and_write_to_file.
  destruct (flush_entries_spec (data st) (map_to_list (page_table st)) (disk_writes st))
    as (nw & Hrun & Hnd & Hmem).
  - apply NoDup_fst_map_to_list.
  - intros pid e Hin. apply elem_of_map_to_list in Hin. eauto.
  - rewrite Hrun. simpl. eexists. split; [done|].
    split; [done|]. split; [simpl; by rewrite length_replicate|].
    split; [simpl; apply Forall_replicate; done|]. split; [done|].
    exists nw. split; [done|]. split; [done|]. split.
    + intros pid. split.
      * intros Hin. apply list_elem_of_fmap in Hin as [[p pg] [Hp Hin]]. simpl in Hp. subst p.
        apply Hmem in Hin as (e & Hin & Hd & _). apply elem_of_map_to_list in Hin. eauto.
      * intros (e & He & Hd). destruct (Hframes pid e He Hd) as [pg Hpg].
        apply list_elem_of_fmap. exists (pid, pg). split; [done|].
        apply Hmem. exists e. rewrite elem_of_map_to_list. done.
    + intros pid pg Hin. apply Hmem in Hin as (e & Hin & _ & Hpg).
      apply elem_of_map_to_list in Hin. eauto.
Qed.

Lemma unload_all_pages_and_write_to_file_spec_witness :
  let st := mkBP [Some 7; Some 8; None]
                 (<[3 := mkPTE 0 true 1]> (<[5 := mkPTE 1 false 0]> ∅)) [5] [] in
  (forall pid e, page_table st !! pid = Some e -> dirty e = true ->
     exists pg, data st !! frame_index e = Some (Some pg)) /\
  exists st', unload_all_pages_and_write_to_file st = Some st' /\
    page_table st' = ∅ /\
    length (data st') = length (data st) /\ Forall (fun f => f = None) (data st') /\
    lru_replacer st' = [] /\
    exists written, disk_writes st' = written ++ disk_writes st /\
      NoDup written.*1 /\
      (forall pid, pid ∈ written.*1 <->
         exists e, page_table st !! pid = Some e /\ dirty e = true) /\
      (forall pid pg, (pid, pg) ∈ written ->
         exists e, page_table st !! pid = Some e /\ data st !! frame_index e = Some (Some pg)).
Proof.
  intros st.
  assert (H : forall pid e, page_table st !! pid = Some e -> dirty e = true ->
                exists pg, data st !! frame_index e = Some (Some pg)).
  { intros pid e He Hd. simpl in He.
    apply lookup_insert_Some in He as [[_ <-]|[_ He]]; [exists 7; reflexivity|].
    apply lookup_insert_Some in He as [[_ <-]|[_ He]]; [discriminate|].
    rewrite lookup_empty in He. discriminate. }
  split; [exact H|]. apply (unload_all_pages_and_write_to_file_spec st H).
Defined.

(** Claim C2 (a run of the pool that breaks the claimed invariant): with
    the 100 frames pinned by pages 0..99, unpinning page 0 and loading
    page 100 evicts page 0, but page 0 keeps its page-table entry, with no
    pin left and no longer in the replacer. *)
Theorem load_page_eviction_keeps_victim :
  exists st,
    run_ops (fun p : nat => p) BufferPool_new
      (map OpLoad (seq 0 100) ++ [OpUnload 0; OpLoad 100]) = Some st /\
    page_table st !! 0 = Some (mkPTE 0 false 0) /\
    page_table st !! 100 = Some (mkPTE 0 false 1) /\
    (0 ∉ lru_replacer st) /\
    ~ lru_invariant st.
Proof.
  eexists. split; [vm_compute; reflexivity|].
  split; [vm_compute; reflexivity|]. split; [vm_compute; reflexivity|].
  split.
  - vm_compute. intros Hin. inversion Hin.
  - intros Hinv. destruct (Hinv 0 (mkPTE 0 false 0)) as [_ Hback].
    + vm_compute. reflexivity.
    + assert (Hin : 0 ∈ ([] : list nat)) by (apply Hback; reflexivity).
      inversion Hin.
Qed.

End BufferPoolProofs.

(* ------------------------------------------------------------------ *)
(** ** B+ tree pages *)
(* ------------------------------------------------------------------ *)

Section BPlusTreeProofs.
Import BPT.

Lemma length_encode_uint w x : length (encode_uint w x) = w.
Proof. revert x. induction w; intros x; simpl; [done|by rewrite IHw]. Qed.

Lemma decode_encode_uint w : forall x, (0 <= x < 256 ^ Z.of_nat w)%Z ->
  decode_le (encode_uint w x) = x.
Proof.
  induction w as [|w IH]; intros x Hx; simpl.
  - simpl in Hx. lia.
  - rewrite IH.
    + pose proof (Z.div_mod x 256). lia.
    + rewrite Nat2Z.inj_succ, Z.pow_succ_r in Hx by lia. split.
      * apply Z.div_pos; lia.
      * apply Z.div_lt_upper_bound; lia.
Qed.

Lemma length_write_at (l bs : bytes) a :
  a + length bs <= length l -> length (write_at l a bs) = length l.
Proof.
  intros H. unfold write_at. rewrite !length_app, length_take, length_drop. lia.
Qed.

Lemma take_write_at (l bs : bytes) a n :
  n <= a -> a <= length l -> take n (write_at l a bs) = take n l.
Proof.
  intros Hn Ha. unfold write_at.
  rewrite take_app_le by (rewrite length_take; lia).
  rewrite take_take. f_equal. lia.
Qed.

Lemma write_pairs_frame kw : forall ps (res res' : bytes) start,
  21 <= start -> write_pairs kw res start ps = Some res' ->
  length res' = length res /\ take 21 res' = take 21 res.
Proof.
  induction ps as [|kp ps IH]; intros res res' start Hs Hw; simpl in Hw.
  - by injection Hw as <-.
  - unfold slice in Hw. destruct (decide _) as [Hsl|]; [|discriminate]. simpl in Hw.
    assert (Hlen : length (encode_key_page_pair kw kp) = kw + 4).
    { unfold encode_key_page_pair. by rewrite length_app, !length_encode_uint. }
    destruct (IH _ _ (start + (kw + 4)) ltac:(lia) Hw) as [H1 H2]. rewrite H1, H2. split.
    + apply length_write_at. lia.
    + apply take_write_at; lia.
Qed.

(** Claim C3 (the internal-page codec does not round-trip): for every
    internal page that [to_raw_page] encodes and whose header counts at
    least one entry, [from_raw_page] on the encoding panics: it assigns
    [vec[0]] in a vector created empty by [Vec::with_capacity]. *)
Theorem internal_page_decode_encode_panics (kw : nat) (p : BPlusTreeInternalPage) (raw : bytes)
  (Hkw : kw + 25 <= PAGE_SIZE)
  (Henc : internal_to_raw_page kw p = Some (Some raw))
  (Hsize : (1 <= current_size (header p) < 2 ^ 32)%Z) :
  length raw = PAGE_SIZE /\ internal_from_raw_page kw raw = None.
Proof.
  unfold internal_to_raw_page in Henc.
  destruct (write_pairs kw _ 21 _) as [res|] eqn:Hw; [|discriminate].
  injection Henc as <-.
  destruct (write_pairs_frame kw _ _ _ 21 ltac:(lia) Hw) as [Hl Ht].
  assert (Hhl : length (encode_internal_header (header p)) = 21).
  { unfold encode_internal_header. rewrite !length_app, !length_encode_uint. done. }
  rewrite length_write_at in Hl by (rewrite length_replicate, Hhl; unfold PAGE_SIZE; lia).
  rewrite length_replicate in Hl.
  split; [done|].
  assert (Hhd : take 21 res = encode_internal_header (header p)).
  { rewrite Ht. unfold write_at. rewrite take_0, app_nil_l.
    by rewrite take_app_length'. }
  unfold internal_from_raw_page, slice.
  destruct (decide _) as [_|Hn]; [|exfalso; apply Hn; unfold PAGE_SIZE in Hl; lia].
  rewrite Nat.sub_0_r, drop_0, Hhd. cbn [mbind option_bind].
  assert (Hcs : current_size (decode_internal_header (encode_internal_header (header p)))
                = current_size (header p)).
  { unfold decode_internal_header, encode_internal_header. cbn [current_size].
    do 3 (rewrite drop_app_ge by (rewrite length_encode_uint; lia);
          rewrite length_encode_uint; simpl Nat.sub).
    rewrite drop_0, take_app_length' by (by rewrite length_encode_uint).
    apply decode_encode_uint. simpl. lia. }
  rewrite Hcs.
  destruct (Z.to_nat (current_size (header p))) as [|n] eqn:Hn; [lia|].
  cbn [read_pairs]. unfold slice. destruct (decide _) as [_|Hn']; [|exfalso; apply Hn'; unfold PAGE_SIZE in *; lia].
  cbn [mbind option_bind]. unfold decode_uint.
  rewrite length_take, length_drop.
  destruct (decide (kw <= _)) as [_|Hk]; [|exfalso; apply Hk; unfold PAGE_SIZE in *; lia].
  rewrite length_drop, length_take, length_drop.
  destruct (decide (4 <= _)) as [_|Hk]; [|exfalso; apply Hk; unfold PAGE_SIZE in *; lia].
  reflexivity.
Qed.

(** The page of the seed test [to_raw_page_test] (u32 keys). *)
Lemma internal_to_raw_page_seed_test :
  exists raw,
    internal_to_raw_page 4 (mkInternal (mkIH 10 0 1 3 120 0)
                                       [mkKP 15 0; mkKP 20 20; mkKP 45 21]) = Some (Some raw) /\
    take 45 raw = [10; 0; 0; 0; 0; 1; 0; 0; 0; 3; 0; 0; 0; 120; 0; 0; 0; 0; 0; 0; 0;
                   15; 0; 0; 0; 0; 0; 0; 0; 20; 0; 0; 0; 20; 0; 0; 0; 45; 0; 0; 0;
                   21; 0; 0; 0]%Z /\
    drop 45 raw = replicate (PAGE_SIZE - 45) 0%Z.
Proof. eexists. split; [vm_compute; reflexivity|]. split; vm_compute; reflexivity. Qed.

Lemma internal_page_decode_encode_panics_witness :
  exists raw,
    (4 + 25 <= PAGE_SIZE /\
     internal_to_raw_page 4 (mkInternal (mkIH 10 0 1 3 120 0)
                                        [mkKP 15 0; mkKP 20 20; mkKP 45 21]) = Some (Some raw) /\
     (1 <= 3 < 2 ^ 32)%Z) /\
    (length raw = PAGE_SIZE /\ internal_from_raw_page 4 raw = None).
Proof.
  eexists. assert (Henc : internal_to_raw_page 4 (mkInternal (mkIH 10 0 1 3 120 0)
                    [mkKP 15 0; mkKP 20 20; mkKP 45 21]) = Some (Some _))
    by (vm_compute; reflexivity).
  split.
  - split; [unfold PAGE_SIZE; lia|]. split; [exact Henc|lia].
  - apply (internal_page_decode_encode_panics 4 _ _ ltac:(unfold PAGE_SIZE; lia) Henc).
    simpl. lia.
Defined.

Lemma child_loop_runs_off (ps : list KeyPagePair) (k : Z) :
  (forall j kp, 1 <= j -> ps !! j = Some kp -> (key kp <= k)%Z) ->
  forall m i, 1 <= i -> i + m = length ps -> 1 <= m -> child_loop ps k i m = None.
Proof.
  intros Hle. induction m as [|m IH]; intros i Hi Hlen Hm; [lia|].
  cbn [child_loop].
  destruct m as [|m'].
  - replace (ps !! (i + 1)) with (@None KeyPagePair)
      by (symmetry; apply lookup_ge_None_2; lia). reflexivity.
  - destruct (ps !! (i + 1)) as [next|] eqn:Hn.
    + cbn [mbind option_bind].
      assert (Hk : (key next <= k)%Z) by (apply (Hle (i + 1)); [lia|done]).
      destruct (Z.ltb_spec k (key next)); [lia|].
      apply IH; lia.
    + apply lookup_ge_None_1 in Hn. lia.
Qed.

(** Claim C5 (routing at or above the last key): [get_child_node] panics
    instead of returning the last child, when the page has a single entry
    or when the key is at least every key of entries 1..n-1: the loop reads
    [key_page_pairs[i + 1]] up to [i = n - 1], one past the end. *)
Theorem get_child_node_last_panics (p : BPlusTreeInternalPage) (k : Z)
  (H : length (key_page_pairs p) = 1 \/
       (2 <= length (key_page_pairs p) /\
        forall j kp, 1 <= j -> key_page_pairs p !! j = Some kp -> (key kp <= k)%Z)) :
  get_child_node p k = None.
Proof.
  unfold get_child_node.
  destruct H as [H1|[H2 Hle]].
  - replace (key_page_pairs p !! 1) with (@None KeyPagePair)
      by (symmetry; apply lookup_ge_None_2; lia). reflexivity.
  - destruct (key_page_pairs p !! 1) as [p1|] eqn:Hp1; [|reflexivity].
    cbn [mbind option_bind].
    assert (Hk : (key p1 <= k)%Z) by (apply (Hle 1); [lia|done]).
    destruct (Z.ltb_spec k (key p1)); [lia|].
    rewrite (child_loop_runs_off _ _ Hle); [reflexivity|lia|lia|lia].
Qed.

Lemma get_child_node_last_panics_witness :
  let p := mkInternal (mkIH 10 0 1 3 120 0) [mkKP 15 0; mkKP 20 20; mkKP 45 21] in
  (length (key_page_pairs p) = 1 \/
   (2 <= length (key_page_pairs p) /\
    forall j kp, 1 <= j -> key_page_pairs p !! j = Some kp -> (key kp <= 50)%Z)) /\
  get_child_node p 50 = None.
Proof.
  intros p.
  assert (H : length (key_page_pairs p) = 1 \/
              (2 <= length (key_page_pairs p) /\
               forall j kp, 1 <= j -> key_page_pairs p !! j = Some kp -> (key kp <= 50)%Z)).
  { right. split; [simpl; lia|].
    intros j kp _ Hj. destruct j as [|[|[|j]]]; simpl in Hj; try discriminate;
      injection Hj as <-; simpl; lia. }
  split; [exact H|]. apply (get_child_node_last_panics p 50 H).
Defined.

(** Routing below the last key, for comparison: the code returns entry 0
    below key 1 and entry i between keys i and i+1. *)
Example get_child_node_seed_routes :
  map (get_child_node (mkInternal (mkIH 10 0 1 3 120 0)
                                  [mkKP 15 0; mkKP 20 20; mkKP 45 21]))
      [10; 19; 20; 44; 45]%Z = [Some 0; Some 0; Some 20; Some 20; None]%Z.
Proof. reflexivity. Qed.

(** Claim C7 (pins left by a search): the root is a leaf with key 5 (u64
    keys); page 0 is resident and unpinned before the search; the search
    finds the rid and leaves page 0 pinned once, out of the replacer. *)
Theorem search_leaves_root_pinned :
  let lf := mkLeaf (mkLH 0 1 0 1 10 0 0 0) [5%Z] [mkRid 1 2] in
  let raw := match leaf_to_raw_page 8 lf with Some (Some r) => r | _ => [] end in
  let disk0 := fun _ : nat => raw in
  exists st0 st1,
    BP.run_ops disk0 BP.BufferPool_new [BP.OpLoad 0; BP.OpUnload 0] = Some st0 /\
    BP.page_table st0 !! 0 = Some (BP.mkPTE 0 false 0) /\
    search 8 disk0 5 0 5%Z st0 = Some (Some (mkRid 1 2), st1) /\
    BP.page_table st1 !! 0 = Some (BP.mkPTE 0 false 1) /\
    BP.lru_replacer st1 = [].
Proof.
  intros lf raw disk0. eexists _, _.
  split; [vm_compute; reflexivity|].
  split; [vm_compute; reflexivity|].
  split; [vm_compute; reflexivity|].
  split; vm_compute; reflexivity.
Qed.

End BPlusTreeProofs.

(* ------------------------------------------------------------------ *)
(** ** Table page *)
(* ------------------------------------------------------------------ *)

Section TablePageProofs.
Import TP.

(** The seed test [test_insert]. *)
Example table_insert_seed_test :
  match insert (mkTP 0 4096 0 [] []) [10; 0; 15; 5]%Z with
  | Some (Some r1, p1) =>
      match insert p1 [0; 15; 5]%Z with
      | Some (Some r2, p2) =>
          free_space_pointer p1 = 4092%Z /\ tuple_headers p1 = [mkTH 4092 4 false] /\
          free_space_pointer p2 = 4089%Z /\
          tuple_headers p2 = [mkTH 4092 4 false; mkTH 4089 3 false] /\
          r1 = mkRid 0 0 /\ r2 = mkRid 0 1
      | _ => False
      end
  | _ => False
  end.
Proof. vm_compute. repeat split. Qed.

(** Claim C8 (an insert that succeeds and breaks the invariant): on an
    empty page, a 4086-byte tuple is accepted; the fixed 8-byte header is
    not counted by the check [(tuple_count + 1) * 5 >= free_space_pointer],
    and afterwards [8 + 1 * 5 > 10 = free_space_pointer]. *)
Theorem table_insert_breaks_invariant :
  let p := mkTP 0 4096 0 [] [] in
  let d := repeat 7%Z 4086 in
  table_invariant p /\
  exists p', insert p d = Some (Some (mkRid 0 0), p') /\
    free_space_pointer p' = 10%Z /\ tuple_count p' = 1%Z /\
    tuple_headers p' = [mkTH 10 4086 false] /\
    ~ table_invariant p'.
Proof.
  intros p d. split; [unfold table_invariant, HEADER_END, TUPLE_HEADER_SIZE; simpl; lia|].
  eexists. split; [vm_compute; reflexivity|].
  split; [reflexivity|]. split; [reflexivity|]. split; [reflexivity|].
  unfold table_invariant, HEADER_END, TUPLE_HEADER_SIZE. simpl. lia.
Qed.

End TablePageProofs.

(* ================================================================== *)
(** ** Extendible hashing: bits, bucket pages, directory, index *)

Section HashBitsProofs.
Import EH.

Lemma mod_eq_bits (a b L : N) :
  (a mod 2 ^ L = b mod 2 ^ L)%N <-> (forall n, (n < L)%N -> N.testbit a n = N.testbit b n).
Proof.
  split.
  - intros H n Hn.
    rewrite <- (N.mod_pow2_bits_low a L n), <- (N.mod_pow2_bits_low b L n) by lia.
    now rewrite H.
  - intros H. apply N.bits_inj. intros n.
    destruct (N.lt_ge_cases n L).
    + rewrite !N.mod_pow2_bits_low by lia. auto.
    + rewrite !N.mod_pow2_bits_high by lia. reflexivity.
Qed.

Lemma bit_is_zero_testbit (x s : N) : bit_is_zero x s = negb (N.testbit x s).
Proof.
  unfold bit_is_zero.
  assert (Hb : N.testbit x s = N.testbit (N.shiftr x s) 0) by (rewrite N.shiftr_spec'; reflexivity).
  rewrite Hb, N.bit0_eqb.
  pose proof (N.land_ones (N.shiftr x s) 1) as E. change (N.ones 1) with 1%N in E.
  rewrite E. change (2 ^ 1)%N with 2%N.
  pose proof (N.mod_lt (N.shiftr x s) 2 ltac:(lia)).
  destruct (N.shiftr x s mod 2)%N as [|p] eqn:Hm; [reflexivity|].
  destruct p; try lia; reflexivity.
Qed.

Lemma testbit_small_high (a G : N) : (a < 2 ^ G)%N -> N.testbit a G = false.
Proof.
  intros H. rewrite <- (N.mod_small a (2 ^ G)) by exact H.
  apply N.mod_pow2_bits_high. lia.
Qed.

Lemma testbit_add_pow2 (a G n : N) : (a < 2 ^ G)%N ->
  N.testbit (a + 2 ^ G) n = if N.eqb n G then true else N.testbit a n.
Proof.
  intros H.
  rewrite N.add_nocarry_lxor.
  - rewrite N.lxor_spec, N.pow2_bits_eqb.
    destruct (N.eqb_spec n G) as [->|Hne].
    + rewrite testbit_small_high by exact H. rewrite N.eqb_refl. reflexivity.
    + replace (G =? n)%N with false by (symmetry; apply N.eqb_neq; lia). now rewrite xorb_false_r.
  - apply N.bits_inj. intros n'. rewrite N.land_spec, N.bits_0, N.pow2_bits_eqb.
    destruct (N.eqb_spec G n') as [<-|]; [rewrite testbit_small_high by exact H|]; 
      now rewrite ?andb_false_r.
Qed.

Lemma lt_pow_N (i : nat) (G : N) : i < 2 ^ N.to_nat G <-> (N.of_nat i < 2 ^ G)%N.
Proof.
  replace (2 ^ N.to_nat G) with (N.to_nat (2 ^ G)) by (rewrite N2Nat.inj_pow; reflexivity).
  lia.
Qed.

Lemma of_nat_add_pow (i : nat) (G : N) : N.of_nat (i + 2 ^ N.to_nat G) = (N.of_nat i + 2 ^ G)%N.
Proof. rewrite Nat2N.inj_add, Nat2N.inj_pow, N2Nat.id. reflexivity. Qed.

Lemma pow_succ_nat (G : N) : 2 ^ N.to_nat (G + 1) = 2 ^ N.to_nat G + 2 ^ N.to_nat G.
Proof. rewrite N2Nat.inj_add. simpl. rewrite Nat.add_1_r, Nat.pow_succ_r'. lia. Qed.

End HashBitsProofs.

Section BucketPageProofs.
Import EH.
Variable P : HashParams.

Lemma first_false_lookup (l : list bool) (i : nat) : first_false l = Some i -> l !! i = Some false.
Proof.
  revert i. induction l as [|[] l IH]; intros i H; simpl in H; try discriminate.
  - destruct (first_false l) as [j|] eqn:E; simpl in H; [|discriminate].
    injection H as <-. simpl. now apply IH.
  - injection H as <-. reflexivity.
Qed.

Lemma bucket_insert_shape (b b' : HashBucketPage P) k v :
  bucket_insert b k v = Some b' ->
  exists idx, readable b !! idx = Some false /\ idx < length (key_values b) /\
    readable b' = <[idx := true]> (readable b) /\
    key_values b' = <[idx := (k, v)]> (key_values b).
Proof.
  unfold bucket_insert, first_free_index, toggle_readable, set_has_been_occupied.
  intros H.
  destruct (first_false (readable b)) as [idx|] eqn:Hf; simpl in H; [|discriminate].
  pose proof (first_false_lookup _ _ Hf) as Hr. rewrite Hr in H. simpl in H.
  destruct (has_been_occupied b !! idx); simpl in H; [|discriminate].
  destruct (decide _) as [Hlt|]; [|discriminate]. injection H as <-.
  exists idx. simpl in *. auto.
Qed.

Lemma bucket_insert_live (b b' : HashBucketPage P) k v e :
  bucket_insert b k v = Some b' -> live b' e -> live b e \/ e = (k, v).
Proof.
  intros H [i [Hr Hk]]. destruct (bucket_insert_shape _ _ _ _ H) as (idx & Hf & Hlt & Hrd & Hkv).
  rewrite Hrd in Hr. rewrite Hkv in Hk.
  destruct (decide (i = idx)) as [->|Hne].
  - right. apply list_lookup_insert_Some in Hk. naive_solver.
  - left. exists i. rewrite list_lookup_insert_ne in Hr by congruence. rewrite list_lookup_insert_ne in Hk by congruence. auto.
Qed.

Lemma bucket_insert_keeps (b b' : HashBucketPage P) k v e :
  bucket_insert b k v = Some b' -> live b e -> live b' e.
Proof.
  intros H [i [Hr Hk]]. destruct (bucket_insert_shape _ _ _ _ H) as (idx & Hf & Hlt & Hrd & Hkv).
  exists i. rewrite Hrd, Hkv.
  destruct (decide (i = idx)) as [->|Hne]; [congruence|].
  rewrite !list_lookup_insert_ne by congruence. auto.
Qed.

Lemma remove_index_shape (b b1 : HashBucketPage P) i kv :
  remove_index b i = Some (kv, b1) ->
  exists r, readable b !! i = Some r /\ readable b1 = <[i := negb r]> (readable b) /\
    key_values b !! i = Some kv /\
    key_values b1 = <[i := (key_default P, value_default P)]> (key_values b).
Proof.
  unfold remove_index, toggle_readable. intros H.
  destruct (readable b !! i) as [r|] eqn:Hr; simpl in H; [|discriminate].
  destruct (key_values b !! i) as [kv0|] eqn:Hk; simpl in H; [|discriminate].
  injection H as <- <-. exists r. simpl. auto.
Qed.

Lemma find_live_true kvs rd k n idx :
  find_live P kvs rd k n = Some (Some idx) -> rd !! idx = Some true.
Proof.
  revert n. induction kvs as [|kv kvs IH]; intros n H; simpl in H; [discriminate|].
  destruct (key_eqb P (fst kv) k); [|eauto].
  destruct (rd !! n) as [[]|] eqn:Hr; [|eauto|discriminate].
  injection H as <-. exact Hr.
Qed.

Lemma bucket_remove_live (b b' : HashBucketPage P) k r e :
  bucket_remove b k = Some (r, b') -> live b' e -> live b e.
Proof.
  unfold bucket_remove, toggle_readable. intros H Hl.
  destruct (find_live P (key_values b) (readable b) k 0) as [found|] eqn:Hf; simpl in H; [|discriminate].
  destruct found as [idx|].
  - pose proof (find_live_true _ _ _ _ _ Hf) as Hr. rewrite Hr in H. simpl in H.
    destruct (key_values b !! idx) as [old|] eqn:Hk; simpl in H; [|discriminate].
    injection H as <- <-. destruct Hl as [i [Hri Hki]]. simpl in Hri, Hki.
    destruct (decide (i = idx)) as [->|Hne].
    + rewrite list_lookup_insert_eq in Hri; [discriminate|]. apply lookup_lt_Some in Hr. exact Hr.
    + exists i. rewrite list_lookup_insert_ne in Hri by congruence. rewrite list_lookup_insert_ne in Hki by congruence. auto.
  - injection H as <- <-. exact Hl.
Qed.

Lemma bucket_remove_absent (b : HashBucketPage P) k :
  length (readable b) = length (key_values b) ->
  forallb (fun '(r, kv) => negb (r && key_eqb P (fst kv) k)) (zip (readable b) (key_values b)) = true ->
  bucket_remove b k = Some (None, b).
Proof.
  unfold bucket_remove. intros Hlen Hall.
  enough (E : forall kvs rd n, length rd = n + length kvs ->
            forallb (fun '(r, kv) => negb (r && key_eqb P (fst kv) k)) (zip (drop n rd) kvs) = true ->
            find_live P kvs rd k n = Some None).
  { rewrite (E _ _ 0); [reflexivity|lia|]. rewrite drop_0. exact Hall. }
  induction kvs as [|kv kvs IH]; intros rd n Hl Hf; [reflexivity|].
  simpl. destruct (drop n rd) as [|r rd'] eqn:Hd.
  { apply (f_equal length) in Hd. rewrite length_drop in Hd. simpl in Hd, Hl. lia. }
  assert (Hrn : rd !! n = Some r).
  { rewrite <- (Nat.add_0_r n), <- lookup_drop, Hd. reflexivity. }
  assert (Hdrop : drop (S n) rd = rd').
  { rewrite <- Nat.add_1_r, <- drop_drop, Hd. reflexivity. }
  simpl in Hf. apply andb_prop in Hf as [Hh Ht].
  destruct (key_eqb P (fst kv) k) eqn:Hkey.
  - rewrite Hrn. destruct r; [discriminate|].
    apply IH; [simpl in Hl; lia|]. rewrite Hdrop. exact Ht.
  - apply IH; [simpl in Hl; lia|]. rewrite Hdrop. exact Ht.
Qed.

Lemma bucket_insert_new_live (b b' : HashBucketPage P) k v :
  bucket_insert b k v = Some b' -> live b' (k, v).
Proof.
  intros H. destruct (bucket_insert_shape _ _ _ _ H) as (idx & Hf & Hlt & Hrd & Hkv).
  exists idx. rewrite Hrd, Hkv. split; apply list_lookup_insert_eq; [|exact Hlt].
  apply lookup_lt_Some in Hf. exact Hf.
Qed.

Lemma rehash_loop_spec (L : N) (b nb b' nb' : HashBucketPage P) (is : list nat) :
  rehash_loop L b nb is = Some (b', nb') -> NoDup is ->
  (forall i, i ∈ is -> readable b !! i = Some true \/ readable b !! i = None) ->
  (forall i e, readable b' !! i = Some true -> key_values b' !! i = Some e ->
     readable b !! i = Some true /\ key_values b !! i = Some e /\
     (i ∈ is -> N.testbit (get_hash P (fst e)) (L - 1) = true)) /\
  (forall e, live nb' e -> live nb e \/ (live b e /\ N.testbit (get_hash P (fst e)) (L - 1) = false)) /\
  (forall i e, i ∈ is -> readable b !! i = Some true -> key_values b !! i = Some e ->
     if N.testbit (get_hash P (fst e)) (L - 1)
     then readable b' !! i = Some true /\ key_values b' !! i = Some e
     else live nb' e) /\
  (forall e, live nb e -> live nb' e) /\
  (forall j, j ∉ is -> readable b' !! j = readable b !! j /\ key_values b' !! j = key_values b !! j).
Proof.
  revert b nb. induction is as [|i rest IH]; intros b nb H Hnd Hpre.
  - simpl in H. injection H as <- <-.
    split; [intros i e Hr Hk; split; [|split]; auto; intros Hin; apply elem_of_nil in Hin; contradiction|].
    split; [auto|]. split; [intros i e Hin; apply elem_of_nil in Hin; contradiction|].
    split; auto.
  - apply NoDup_cons in Hnd as [Hni Hnd].
    assert (Hpre' : forall j, j ∈ rest -> readable b !! j = Some true \/ readable b !! j = None)
      by (intros j Hj; apply Hpre; apply elem_of_cons; auto).
    simpl in H. destruct (key_values b !! i) as [kv|] eqn:Hk; simpl in H; [|discriminate].
    rewrite bit_is_zero_testbit in H.
    destruct (N.testbit (get_hash P (fst kv)) (L - 1)) eqn:Hbit; simpl in H.
    + destruct (IH b nb H Hnd Hpre') as (I1 & I2 & I3 & I4 & I5).
      split; [|split; [exact I2|split; [|split; [exact I4|]]]].
      * intros j e Hr Hke. destruct (I1 j e Hr Hke) as (Hr0 & Hk0 & Hb0).
        split; [exact Hr0|]. split; [exact Hk0|]. intros Hj. apply elem_of_cons in Hj as [->|Hj]; auto.
        rewrite Hk in Hk0. injection Hk0 as <-. exact Hbit.
      * intros j e Hj Hr Hke. apply elem_of_cons in Hj as [->|Hj]; [|apply I3; auto].
        rewrite Hk in Hke. injection Hke as <-. rewrite Hbit.
        destruct (I5 i Hni) as [-> ->]. auto.
      * intros j Hj. apply I5. intros Hj'. apply Hj. apply elem_of_cons. auto.
    + destruct (remove_index b i) as [[kv' b1]|] eqn:Hri; simpl in H; [|discriminate].
      destruct (bucket_insert nb (fst kv') (snd kv')) as [nb1|] eqn:Hbi; simpl in H; [|discriminate].
      destruct (remove_index_shape _ _ _ _ Hri) as (r & Hr & Hrd1 & Hk' & Hkv1).
      rewrite Hk in Hk'. injection Hk' as <-. destruct kv as [kk vv]. simpl in Hbi, Hbit.
      assert (r = true) as ->.
      { destruct (Hpre i ltac:(apply elem_of_cons; auto)) as [E|E]; rewrite Hr in E; congruence. }
      assert (Hsame : forall j, j <> i -> readable b1 !! j = readable b !! j /\ key_values b1 !! j = key_values b !! j).
      { intros j Hj. rewrite Hrd1, Hkv1. split; apply list_lookup_insert_ne; congruence. }
      assert (Hfalse : readable b1 !! i = Some false).
      { rewrite Hrd1. apply list_lookup_insert_eq. apply lookup_lt_Some in Hr. exact Hr. }
      assert (Hpre1 : forall j, j ∈ rest -> readable b1 !! j = Some true \/ readable b1 !! j = None).
      { intros j Hj. rewrite (proj1 (Hsame j ltac:(intros ->; contradiction))). auto. }
      destruct (IH b1 nb1 H Hnd Hpre1) as (I1 & I2 & I3 & I4 & I5).
      split; [|split; [|split; [|split]]].
      * intros j e Hrj Hkj. destruct (I1 j e Hrj Hkj) as (Hr0 & Hk0 & Hb0).
        destruct (decide (j = i)) as [->|Hne]; [congruence|].
        destruct (Hsame j Hne) as [E1 E2]. rewrite E1 in Hr0. rewrite E2 in Hk0.
        split; [exact Hr0|]. split; [exact Hk0|]. intros Hj.
        apply elem_of_cons in Hj as [->|Hj]; [contradiction|auto].
      * intros e He. destruct (I2 e He) as [He1|[[j [Hrj Hkj]] Hb]].
        -- destruct (bucket_insert_live _ _ _ _ _ Hbi He1) as [ | ->]; [auto|].
           right. split; [exists i; auto|exact Hbit].
        -- right. destruct (decide (j = i)) as [->|Hne]; [congruence|].
           destruct (Hsame j Hne) as [E1 E2]. split; [exists j; rewrite <- E1, <- E2; auto|exact Hb].
      * intros j e Hj Hrj Hkj. apply elem_of_cons in Hj as [->|Hj].
        -- rewrite Hk in Hkj. injection Hkj as <-. cbn [fst]. rewrite Hbit.
           apply I4. eapply bucket_insert_new_live. exact Hbi.
        -- assert (Hne : j <> i) by (intros ->; contradiction).
           destruct (Hsame j Hne) as [E1 E2].
           apply I3; [exact Hj|rewrite E1; exact Hrj|rewrite E2; exact Hkj].
      * intros e He. apply I4. eapply bucket_insert_keeps; eauto.
      * intros j Hj. assert (Hne : j <> i) by (intros ->; apply Hj; apply elem_of_cons; auto).
        destruct (I5 j ltac:(intros Hj'; apply Hj; apply elem_of_cons; auto)) as [E1 E2].
        destruct (Hsame j Hne) as [E3 E4]. rewrite E1, E2, E3, E4. auto.
Qed.

End BucketPageProofs.

Section DirectoryProofs.
Import EH.

Lemma fupd_same {A} (f : nat -> A) i x : fupd f i x i = x.
Proof. unfold fupd. now rewrite Nat.eqb_refl. Qed.

Lemma fupd_other {A} (f : nat -> A) i j x : j <> i -> fupd f i x j = f j.
Proof. intros H. unfold fupd. apply Nat.eqb_neq in H. now rewrite H. Qed.

Lemma get_bucket_page_id_Some d i bp :
  get_bucket_page_id d i = Some bp -> i < DIR_SIZE /\ bp = bucket_page_ids d i.
Proof. unfold get_bucket_page_id. destruct (decide _); intros H; [injection H as <-; auto|discriminate]. Qed.

Lemma get_local_depth_Some d i ld :
  get_local_depth d i = Some ld -> i < DIR_SIZE /\ ld = local_depths d i.
Proof. unfold get_local_depth. destruct (decide _); intros H; [injection H as <-; auto|discriminate]. Qed.

Lemma set_local_depth_Some d i x d' :
  set_local_depth d i x = Some d' -> i < DIR_SIZE /\ global_depth d' = global_depth d /\
  local_depths d' = fupd (local_depths d) i x /\ bucket_page_ids d' = bucket_page_ids d.
Proof. unfold set_local_depth. destruct (decide _); intros H; [injection H as <-; simpl; auto|discriminate]. Qed.

Lemma set_bucket_page_id_Some d i x d' :
  set_bucket_page_id d i x = Some d' -> i < DIR_SIZE /\ global_depth d' = global_depth d /\
  local_depths d' = local_depths d /\ bucket_page_ids d' = fupd (bucket_page_ids d) i x.
Proof. unfold set_bucket_page_id. destruct (decide _); intros H; [injection H as <-; simpl; auto|discriminate]. Qed.

Lemma local_split_loop_spec d Lnew new old is d' :
  local_split_loop d Lnew new old is = Some d' -> NoDup is ->
  global_depth d' = global_depth d /\
  (forall j, j ∈ is -> bucket_page_ids d j = old ->
     local_depths d' j = Lnew /\
     bucket_page_ids d' j = if bit_is_zero (N.of_nat j) (Lnew - 1) then new else old) /\
  (forall j, (j ∈ is -> bucket_page_ids d j <> old) ->
     local_depths d' j = local_depths d j /\ bucket_page_ids d' j = bucket_page_ids d j).
Proof.
  revert d. induction is as [|i rest IH]; intros d H Hnd.
  - simpl in H. injection H as <-. split; [auto|]. split; [|auto].
    intros j Hj. apply elem_of_nil in Hj. contradiction.
  - apply NoDup_cons in Hnd as [Hni Hnd]. simpl in H.
    destruct (get_bucket_page_id d i) as [bp|] eqn:Hg; simpl in H; [|discriminate].
    apply get_bucket_page_id_Some in Hg as [_ ->].
    destruct (N.eqb_spec (bucket_page_ids d i) old) as [Heq|Hne].
    + destruct (set_local_depth d i Lnew) as [d1|] eqn:Hs1; simpl in H; [|discriminate].
      apply set_local_depth_Some in Hs1 as (_ & Hg1 & Hl1 & Hb1).
      set (z := bit_is_zero (N.of_nat i) (Lnew - 1)) in H.
      destruct (if z then set_bucket_page_id d1 i new else Some d1) as [d2|] eqn:Hd2; simpl in H; [|discriminate].
      assert (Hd2s : global_depth d2 = global_depth d /\
                     local_depths d2 = fupd (local_depths d) i Lnew /\
                     bucket_page_ids d2 = if z then fupd (bucket_page_ids d) i new else bucket_page_ids d).
      { destruct z.
        - apply set_bucket_page_id_Some in Hd2 as (_ & -> & -> & ->). rewrite Hb1. auto.
        - injection Hd2 as <-. auto. }
      destruct Hd2s as (Hg2 & Hl2 & Hb2).
      destruct (IH d2 H Hnd) as (I1 & I2 & I3).
      split; [congruence|]. split.
      * intros j Hj Hbj. apply elem_of_cons in Hj as [->|Hj].
        -- destruct (I3 i ltac:(intros; contradiction)) as [E1 E2].
           rewrite E1, E2, Hl2, Hb2, fupd_same. split; [reflexivity|]. fold z.
           destruct z; [apply fupd_same|congruence].
        -- assert (Hji : j <> i) by (intros ->; contradiction).
           apply I2; [exact Hj|]. rewrite Hb2. destruct z; [rewrite fupd_other by exact Hji|]; exact Hbj.
      * intros j Hj. assert (Hji : j <> i) by (intros ->; apply (Hj ltac:(apply elem_of_cons; auto)); exact Heq).
        destruct (I3 j ltac:(intros Hjr; rewrite Hb2; destruct z; [rewrite fupd_other by exact Hji|];
                                 apply Hj; apply elem_of_cons; auto)) as [E1 E2].
        rewrite E1, E2, Hl2, Hb2, fupd_other by exact Hji. split; [reflexivity|].
        destruct z; [apply fupd_other; exact Hji|reflexivity].
    + destruct (IH d H Hnd) as (I1 & I2 & I3).
      split; [exact I1|]. split.
      * intros j Hj Hbj. apply elem_of_cons in Hj as [->|Hj]; [contradiction|auto].
      * intros j Hj. apply I3. intros Hjr. apply Hj. apply elem_of_cons. auto.
Qed.

Lemma global_copy_loop_spec d half is d' :
  global_copy_loop d half is = Some d' -> NoDup is -> (forall i, i ∈ is -> i < half) ->
  global_depth d' = global_depth d /\
  (forall i, i ∈ is -> i + half < DIR_SIZE /\
     bucket_page_ids d' (i + half) = bucket_page_ids d i /\
     local_depths d' (i + half) = local_depths d i) /\
  (forall j, (forall i, i ∈ is -> j <> i + half) ->
     bucket_page_ids d' j = bucket_page_ids d j /\ local_depths d' j = local_depths d j).
Proof.
  revert d. induction is as [|i rest IH]; intros d H Hnd Hlt.
  - simpl in H. injection H as <-. split; [auto|]. split; [|auto].
    intros j Hj. apply elem_of_nil in Hj. contradiction.
  - apply NoDup_cons in Hnd as [Hni Hnd].
    assert (Hi : i < half) by (apply Hlt; apply elem_of_cons; auto).
    assert (Hlt' : forall j, j ∈ rest -> j < half) by (intros j Hj; apply Hlt; apply elem_of_cons; auto).
    simpl in H.
    destruct (get_bucket_page_id d i) as [bp|] eqn:Hg; simpl in H; [|discriminate].
    apply get_bucket_page_id_Some in Hg as [_ ->].
    destruct (set_bucket_page_id d (i + half) (bucket_page_ids d i)) as [d1|] eqn:Hs1; simpl in H; [|discriminate].
    apply set_bucket_page_id_Some in Hs1 as (Hdir & Hg1 & Hl1 & Hb1).
    destruct (get_local_depth d1 i) as [ld|] eqn:Hgl; simpl in H; [|discriminate].
    apply get_local_depth_Some in Hgl as [_ ->].
    destruct (set_local_depth d1 (i + half) (local_depths d1 i)) as [d2|] eqn:Hs2; simpl in H; [|discriminate].
    apply set_local_depth_Some in Hs2 as (_ & Hg2 & Hl2 & Hb2).
    destruct (IH d2 H Hnd Hlt') as (I1 & I2 & I3).
    assert (Hlow : forall j, j < half -> bucket_page_ids d2 j = bucket_page_ids d j /\ local_depths d2 j = local_depths d j).
    { intros j Hj. rewrite Hb2, Hb1, Hl2, Hl1, !fupd_other by lia. auto. }
    split; [congruence|]. split.
    + intros j Hj. apply elem_of_cons in Hj as [->|Hj].
      * destruct (I3 (i + half)) as [E1 E2].
        { intros i' Hi' E. assert (i' = i) as -> by lia. contradiction. }
        rewrite E1, E2, Hb2, Hb1, Hl2, Hl1, !fupd_same. auto.
      * destruct (I2 j Hj) as (D & E1 & E2). rewrite E1, E2. 
        destruct (Hlow j (Hlt' j Hj)) as [F1 F2]. rewrite F1, F2. auto.
    + intros j Hj. destruct (I3 j ltac:(intros i' Hi'; apply Hj; apply elem_of_cons; auto)) as [E1 E2].
      assert (Hji : j <> i + half) by (apply Hj; apply elem_of_cons; auto).
      rewrite E1, E2, Hb2, Hb1, Hl2, Hl1, !fupd_other by exact Hji. auto.
Qed.

Lemma eqbits_refl a L : eqbits a a L.
Proof. intros n _. reflexivity. Qed.
Lemma eqbits_sym a b L : eqbits a b L -> eqbits b a L.
Proof. intros H n Hn. symmetry. auto. Qed.
Lemma eqbits_trans a b c L : eqbits a b L -> eqbits b c L -> eqbits a c L.
Proof. intros H1 H2 n Hn. rewrite H1 by exact Hn. auto. Qed.
Lemma eqbits_mono a b L L' : (L' <= L)%N -> eqbits a b L -> eqbits a b L'.
Proof. intros Hl H n Hn. apply H. lia. Qed.
Lemma eqbits_ext a b L : eqbits a b L -> N.testbit a L = N.testbit b L -> eqbits a b (L + 1).
Proof.
  intros H Hb n Hn. destruct (N.lt_ge_cases n L); [auto|]. replace n with L by lia. exact Hb.
Qed.
Lemma eqbits_small_eq a b G : (a < 2 ^ G)%N -> (b < 2 ^ G)%N -> eqbits a b G -> a = b.
Proof.
  intros Ha Hb H. apply mod_eq_bits in H.
  rewrite !N.mod_small in H by assumption. exact H.
Qed.

Lemma global_split_spec d s new d' :
  global_split_bucket d s new = Some d' ->
  global_depth d' = (global_depth d + 1)%N /\ nslots d + nslots d <= DIR_SIZE /\
  (forall j, j < nslots d ->
     bucket_page_ids d' j = (if Nat.eqb j s then new else bucket_page_ids d j) /\
     local_depths d' j = local_depths d j) /\
  (forall j, j < nslots d ->
     bucket_page_ids d' (j + nslots d) =
       (if Nat.eqb (j + nslots d) s then new else bucket_page_ids d j) /\
     local_depths d' (j + nslots d) = local_depths d j).
Proof.
  unfold global_split_bucket, increment_global_depth. intros H.
  destruct (decide _); simpl in H; [|discriminate].
  set (d1 := mkDir _ _ _ _ _) in H.
  destruct (global_copy_loop d1 _ _) as [d2|] eqn:Hc; simpl in H; [|discriminate].
  apply set_bucket_page_id_Some in H as (_ & Hg & Hl & Hb).
  assert (Hpos : 0 < nslots d) by (unfold nslots; apply Nat.neq_0_lt_0, Nat.pow_nonzero; lia).
  destruct (global_copy_loop_spec _ _ _ _ Hc (NoDup_seq _ _)) as (C1 & C2 & C3).
  { intros i Hi. apply elem_of_seq in Hi. lia. }
  fold (nslots d) in C2, C3.
  split; [rewrite Hg, C1; reflexivity|]. split.
  { destruct (C2 (nslots d - 1)) as [D _]; [apply elem_of_seq; lia|]. lia. }
  split.
  - intros j Hj. destruct (C3 j) as [E1 E2].
    { intros i Hi. apply elem_of_seq in Hi. lia. }
    rewrite Hl, Hb, E2. unfold fupd. rewrite E1. split; reflexivity.
  - intros j Hj. destruct (C2 j) as (_ & E1 & E2); [apply elem_of_seq; lia|].
    rewrite Hl, Hb, E2. unfold fupd. rewrite E1. split; reflexivity.
Qed.

Section Shape.
Variable P : HashParams.

Lemma split_dir_shape d next s Lnew dA old d1 :
  dir_wf d next -> s < nslots d ->
  increment_local_depth d s = Some (Lnew, dA) ->
  get_bucket_page_id dA s = Some old ->
  (if N.ltb (global_depth dA) Lnew then global_split_bucket dA s next
   else local_split_bucket dA Lnew next old) = Some d1 ->
  Lnew = (local_depths d s + 1)%N /\ old = bucket_page_ids d s /\ split_shape d d1 s next.
Proof.
  intros (W0 & W1 & W2 & W3) Hs Hinc Hold Hsplit.
  unfold increment_local_depth in Hinc.
  destruct (get_local_depth d s) as [ld|] eqn:Hgl; simpl in Hinc; [|discriminate].
  apply get_local_depth_Some in Hgl as [_ ->].
  destruct (decide _); [|discriminate].
  destruct (set_local_depth d s _) as [dA'|] eqn:Hsl; simpl in Hinc; [|discriminate].
  injection Hinc as <- <-.
  apply set_local_depth_Some in Hsl as (_ & HgA & HlA & HbA).
  apply get_bucket_page_id_Some in Hold as [_ ->]. rewrite HbA.
  split; [reflexivity|]. split; [reflexivity|].
  set (B := bucket_page_ids d s). set (Ls := local_depths d s).
  set (G := global_depth d). set (n := nslots d).
  assert (HBnext : (B < next)%N) by (apply W3; exact Hs).
  assert (HLsG : (Ls <= G)%N) by (apply W1; exact Hs).
  assert (HsN : (N.of_nat s < 2 ^ G)%N) by (apply lt_pow_N; exact Hs).
  assert (HslotN : forall i, i < n -> (N.of_nat i < 2 ^ G)%N) by (intros i Hi; apply lt_pow_N; exact Hi).
  rewrite HgA in Hsplit. revert Hsplit. fold B Ls G.
  destruct (N.ltb_spec G (Ls + 1)) as [Hglob|Hloc]; intros Hsplit.
  - (* global split *)
    assert (HLs : Ls = G) by lia. unfold Ls in *.
    destruct (global_split_spec _ _ _ _ Hsplit) as (Hg1 & Hn & Lo & Hi).
    rewrite HgA in Hg1. unfold nslots in Hn, Lo, Hi. rewrite HgA in Hn, Lo, Hi.
    change (2 ^ N.to_nat (global_depth d)) with n in Hn, Lo, Hi.
    rewrite HbA, HlA in Lo, Hi. fold Ls in Lo, Hi.
    assert (Hn1 : nslots d1 = n + n) by (unfold n, nslots; rewrite Hg1; apply pow_succ_nat).
    assert (Hcase : forall i, i < nslots d1 -> i < n \/ exists j, j < n /\ i = j + n).
    { intros i H. rewrite Hn1 in H. destruct (Nat.lt_ge_cases i n); [auto|].
      right. exists (i - n). split; lia. }
    assert (Heqs : forall j, j < n -> B = bucket_page_ids d j -> j = s).
    { intros j Hj E. destruct (W2 s j Hs Hj E) as [E1 E2]. rewrite HLs in E2.
      apply Nat2N.inj. apply eqbits_small_eq with G; auto. apply eqbits_sym. exact E2. }
    assert (Hnew : forall j, j < n -> bucket_page_ids d j <> next) by (intros j Hj E; specialize (W3 j Hj); lia).
    split; [rewrite Hg1; lia|]. split; [rewrite Hg1; lia|]. split; [lia|].
    split; [|split; [|split]].
    + intros i Hi1 Hb. destruct (Hcase i Hi1) as [Hi0|(j & Hj & ->)].
      * destruct (Lo i Hi0) as [E1 _]. rewrite E1 in Hb.
        destruct (Nat.eqb_spec i s); [lia|]. apply eq_sym, Heqs in Hb; [contradiction|exact Hi0].
      * destruct (Hi j Hj) as [E1 E2]. rewrite E1 in Hb.
        destruct (Nat.eqb_spec (j + n) s); [lia|]. apply eq_sym, Heqs in Hb as ->; [|exact Hj].
        rewrite E2, fupd_same. split; [reflexivity|].
        unfold n, nslots. rewrite of_nat_add_pow. fold G. split.
        -- rewrite testbit_add_pow2 by exact HsN. rewrite HLs, N.eqb_refl. reflexivity.
        -- intros m Hm. rewrite testbit_add_pow2 by exact HsN.
           destruct (N.eqb_spec m G); [lia|reflexivity].
    + intros i Hi1 Hb. destruct (Hcase i Hi1) as [Hi0|(j & Hj & ->)].
      * destruct (Lo i Hi0) as [E1 E2]. rewrite E1 in Hb.
        destruct (Nat.eqb_spec i s) as [->|]; [|exfalso; apply (Hnew i Hi0 Hb)].
        rewrite E2, fupd_same. split; [reflexivity|]. split; [|apply eqbits_refl].
        rewrite HLs. apply testbit_small_high. exact HsN.
      * destruct (Hi j Hj) as [E1 _]. rewrite E1 in Hb.
        destruct (Nat.eqb_spec (j + n) s); [lia|]. exfalso. apply (Hnew j Hj Hb).
    + intros i Hi1 HbB Hbn. destruct (Hcase i Hi1) as [Hi0|(j & Hj & ->)].
      * destruct (Lo i Hi0) as [E1 E2]. rewrite E1 in HbB, Hbn |- *.
        destruct (Nat.eqb_spec i s); [contradiction|].
        exists i. rewrite E2, fupd_other by assumption. split; [exact Hi0|]. split; [reflexivity|].
        split; [reflexivity|apply eqbits_refl].
      * destruct (Hi j Hj) as [E1 E2]. rewrite E1 in HbB, Hbn |- *.
        destruct (Nat.eqb_spec (j + n) s); [lia|].
        assert (Hjs : j <> s) by (intros ->; apply HbB; reflexivity).
        exists j. rewrite E2, fupd_other by exact Hjs. split; [exact Hj|]. split; [reflexivity|].
        split; [reflexivity|].
        intros m Hm. unfold n, nslots. rewrite of_nat_add_pow. fold G.
        rewrite testbit_add_pow2 by (apply HslotN; exact Hj).
        assert (local_depths d j <= G)%N by (apply W1; exact Hj).
        destruct (N.eqb_spec m G); [lia|reflexivity].
    + intros i0 Hi0 HbB. destruct (Lo i0 Hi0) as [E1 E2]. rewrite E1, E2.
      destruct (Nat.eqb_spec i0 s) as [->|Hne]; [contradiction|].
      rewrite fupd_other by exact Hne. auto.
  - (* local split *)
    unfold local_split_bucket in Hsplit.
    destruct (local_split_loop_spec _ _ _ _ _ _ Hsplit (NoDup_seq _ _)) as (Hg1 & Old & Other).
    rewrite HgA in Hg1. rewrite HbA in Old, Other. rewrite HlA in Other.
    assert (Hn1 : nslots d1 = n) by (unfold n, nslots; rewrite Hg1; reflexivity).
    unfold nslots in Old, Other. rewrite HgA in Old, Other.
    change (2 ^ N.to_nat (global_depth d)) with n in Old, Other. fold Ls in Old, Other.
    replace (Ls + 1 - 1)%N with Ls in Old by lia.
    assert (Hnew : forall j, j < n -> bucket_page_ids d j <> next) by (intros j Hj E; specialize (W3 j Hj); lia).
    assert (Hold : forall j, j < n -> bucket_page_ids d j = B ->
              local_depths d1 j = (Ls + 1)%N /\
              bucket_page_ids d1 j = (if bit_is_zero (N.of_nat j) Ls then next else B) /\
              eqbits (N.of_nat j) (N.of_nat s) Ls).
    { intros j Hj E. destruct (Old j ltac:(apply elem_of_seq; lia) E) as [E1 E2].
      split; [exact E1|]. split; [exact E2|].
      destruct (W2 j s Hj Hs E) as [F1 F2]. rewrite F1 in F2. exact F2. }
    assert (Hoth : forall j, bucket_page_ids d j <> B ->
              local_depths d1 j = local_depths d j /\ bucket_page_ids d1 j = bucket_page_ids d j).
    { intros j E. destruct (Other j ltac:(intros _; exact E)) as [E1 E2].
      assert (Hjs : j <> s) by (intros ->; apply E; reflexivity).
      rewrite E1, E2, fupd_other by exact Hjs. auto. }
    unfold split_shape; cbv zeta. rewrite Hn1. split; [lia|]. split; [lia|]. split; [exact W0|].
    split; [|split; [|split]].
    + intros i Hi Hb. destruct (decide (bucket_page_ids d i = B)) as [E|E].
      * destruct (Hold i Hi E) as (E1 & E2 & E3). rewrite Hb in E2.
        rewrite bit_is_zero_testbit in E2.
        destruct (N.testbit (N.of_nat i) Ls) eqn:Ht; simpl in E2; [|lia].
        split; [exact E1|split; [exact Ht|exact E3]].
      * destruct (Hoth i E) as [_ E2]. exfalso. apply E. rewrite <- E2. exact Hb.
    + intros i Hi Hb. destruct (decide (bucket_page_ids d i = B)) as [E|E].
      * destruct (Hold i Hi E) as (E1 & E2 & E3). rewrite Hb in E2.
        rewrite bit_is_zero_testbit in E2.
        destruct (N.testbit (N.of_nat i) Ls) eqn:Ht; simpl in E2; [lia|].
        split; [exact E1|split; [exact Ht|exact E3]].
      * destruct (Hoth i E) as [_ E2]. exfalso. apply (Hnew i Hi). congruence.
    + intros i Hi HbB Hbn. destruct (decide (bucket_page_ids d i = B)) as [E|E].
      * destruct (Hold i Hi E) as (E1 & E2 & E3). exfalso.
        destruct (bit_is_zero (N.of_nat i) Ls); [apply Hbn|apply HbB]; rewrite E2; reflexivity.
      * destruct (Hoth i E) as [E1 E2]. exists i. rewrite E1, E2.
        split; [exact Hi|]. split; [reflexivity|]. split; [reflexivity|apply eqbits_refl].
    + intros i0 Hi0 HbB. destruct (Hoth i0 HbB) as [E1 E2]. auto.
Qed.

End Shape.

End DirectoryProofs.

Section HashIndexLemmas.
Import EH.
Variable P : HashParams.

Lemma Nupd_same {A} (f : N -> A) p x : Nupd f p x p = x.
Proof. unfold Nupd. now rewrite N.eqb_refl. Qed.

Lemma Nupd_other {A} (f : N -> A) p q x : q <> p -> Nupd f p x q = f q.
Proof. intros H. unfold Nupd. apply N.eqb_neq in H. now rewrite H. Qed.

Lemma empty_bucket_not_live e : ~ live (empty_bucket P) e.
Proof.
  intros [i [Hr _]]. simpl in Hr. apply lookup_replicate in Hr as [Hr _]. discriminate.
Qed.

Lemma is_full_readable (b : HashBucketPage P) i r :
  is_full b = true -> readable b !! i = Some r -> r = true.
Proof.
  unfold is_full. intros H Hi. apply forallb_forall with (x := r) in H; [exact H|].
  apply list_elem_of_In. eapply list_elem_of_lookup_2. exact Hi.
Qed.

Lemma dir_wf_mono d n n' : dir_wf d n -> (n <= n')%N -> dir_wf d n'.
Proof.
  intros (W0 & W1 & W2 & W3) Hn. split; [exact W0|]. split; [exact W1|]. split; [exact W2|].
  intros i Hi. specialize (W3 i Hi). lia.
Qed.

Lemma slot_props d next k :
  dir_wf d next ->
  bucket_index_of_key P k d < nslots d /\
  addr_ok d k (bucket_page_ids d (bucket_index_of_key P k d)).
Proof.
  intros (W0 & W1 & W2 & W3).
  set (s := bucket_index_of_key P k d).
  assert (Hs : N.of_nat s = (get_hash P k mod 2 ^ global_depth d)%N)
    by (unfold s, bucket_index_of_key; apply N2Nat.id).
  assert (Hlt : s < nslots d).
  { unfold nslots. apply lt_pow_N. rewrite Hs. apply N.mod_lt. apply N.pow_nonzero. lia. }
  split; [exact Hlt|].
  intros i Hi Hb. destruct (W2 i s Hi Hlt Hb) as [E1 E2].
  assert (HL : (local_depths d s <= global_depth d)%N) by (apply W1; exact Hlt).
  apply eqbits_trans with (N.of_nat s); [|apply eqbits_sym; exact E2].
  intros n Hn. rewrite Hs, N.mod_pow2_bits_low by lia. reflexivity.
Qed.

Lemma split_ok (st : HState P) s b' d1 st1 :
  let d := directory st in
  let S := buckets st in
  let B := bucket_page_ids d s in
  dir_wf d (next_page_id st) -> inv_bits d S -> s < nslots d -> is_full (S B) = true ->
  split_bucket st s (S B) d = Some (b', d1, st1) ->
  let S2 := Nupd (buckets st1) B b' in
  next_page_id st1 = (next_page_id st + 1)%N /\
  dir_wf d1 (next_page_id st1) /\ inv_bits d1 S2 /\
  (forall p e, (p < next_page_id st)%N -> live (S2 p) e -> live (S p) e) /\
  (forall p e, live (S2 p) e -> exists q, live (S q) e) /\
  (forall (k : Key P) p, p <> B -> addr_ok d1 k p -> addr_ok d k p).
Proof.
  intros d S B Hwf Hinv Hs Hfull H S2.
  unfold split_bucket in H.
  destruct (increment_local_depth d s) as [[Lnew dA]|] eqn:Hinc; simpl in H; [|discriminate].
  destruct (get_bucket_page_id dA s) as [old|] eqn:Hold; simpl in H; [|discriminate].
  destruct (if N.ltb (global_depth dA) Lnew then global_split_bucket dA s (next_page_id st)
            else local_split_bucket dA Lnew (next_page_id st) old) as [d2|] eqn:Hsp;
    simpl in H; [|discriminate].
  rewrite Nupd_same in H.
  destruct (rehash_loop Lnew (S B) (empty_bucket P) (seq 0 (length (key_values (S B)))))
    as [[b'' nb']|] eqn:Hre; simpl in H; [|discriminate].
  injection H as -> -> <-.
  set (next := next_page_id st) in *.
  destruct (split_dir_shape d next s Lnew dA old d1 Hwf Hs Hinc Hold Hsp) as (HL & Hod & Sh).
  fold B in Hod.
  assert (HLm : (Lnew - 1)%N = local_depths d s) by lia.
  destruct (rehash_loop_spec _ _ _ _ _ _ _ Hre (NoDup_seq _ _)) as (R1 & R2 & R3 & _ & _).
  { intros i _. destruct (readable (S B) !! i) as [r|] eqn:Hr; [left|right; reflexivity].
    rewrite (is_full_readable _ _ _ Hfull Hr). reflexivity. }
  rewrite HLm in R1, R2, R3.
  destruct Hwf as (W0 & W1 & W2 & W3).
  destruct Sh as (Sg & SL & S0 & Sb & Sn & Sc & Sd). fold B in Sb, Sc, Sd.
  set (Ls := local_depths d s) in *.
  assert (HBn : (B < next)%N) by (apply W3; exact Hs).
  assert (HinvB : forall e, live (S B) e -> eqbits (get_hash P (fst e)) (N.of_nat s) Ls)
    by (intros e He; apply Hinv; assumption).
  assert (S2B : S2 B = b').
  { unfold S2. simpl. apply Nupd_same. }
  assert (S2n : S2 next = nb').
  { unfold S2. simpl. rewrite Nupd_other by lia. apply Nupd_same. }
  assert (S2o : forall p, p <> B -> p <> next -> S2 p = S p).
  { intros p H1 H2. unfold S2. simpl. rewrite !Nupd_other by assumption. reflexivity. }
  assert (Lb' : forall e, live b' e -> live (S B) e /\ N.testbit (get_hash P (fst e)) Ls = true).
  { intros e [i [Hr Hk]]. destruct (R1 i e Hr Hk) as (Hr0 & Hk0 & Hb0).
    split; [exists i; auto|]. apply Hb0. apply elem_of_seq.
    apply lookup_lt_Some in Hk0. lia. }
  assert (Lnb : forall e, live nb' e -> live (S B) e /\ N.testbit (get_hash P (fst e)) Ls = false).
  { intros e He. destruct (R2 e He) as [Hc|Hc]; [|exact Hc].
    exfalso. apply (empty_bucket_not_live e Hc). }
  assert (Hsub : nslots d <= nslots d1).
  { unfold nslots. apply Nat.pow_le_mono_r; lia. }
  split; [reflexivity|]. split; [|split; [|split; [|split]]].
  - (* dir_wf *)
    simpl. split; [exact S0|]. split; [|split].
    + intros i Hi.
      destruct (decide (bucket_page_ids d1 i = B)) as [E|E]; [destruct (Sb i Hi E) as (-> & _); lia|].
      destruct (decide (bucket_page_ids d1 i = next)) as [E'|E']; [destruct (Sn i Hi E') as (-> & _); lia|].
      destruct (Sc i Hi E E') as (i0 & Hi0 & _ & <- & _). specialize (W1 i0 Hi0). lia.
    + intros i j Hi Hj Hij.
      destruct (decide (bucket_page_ids d1 i = B)) as [E|E].
      * destruct (Sb i Hi E) as (Li & Ti & Ei). destruct (Sb j Hj ltac:(congruence)) as (Lj & Tj & Ej).
        rewrite Li, Lj. split; [reflexivity|]. apply eqbits_ext; [|congruence].
        apply eqbits_trans with (N.of_nat s); [exact Ei|apply eqbits_sym; exact Ej].
      * destruct (decide (bucket_page_ids d1 i = next)) as [E'|E'].
        -- destruct (Sn i Hi E') as (Li & Ti & Ei). destruct (Sn j Hj ltac:(congruence)) as (Lj & Tj & Ej).
           rewrite Li, Lj. split; [reflexivity|]. apply eqbits_ext; [|congruence].
           apply eqbits_trans with (N.of_nat s); [exact Ei|apply eqbits_sym; exact Ej].
        -- destruct (Sc i Hi E E') as (i0 & Hi0 & Bi0 & Li0 & Ei0).
           destruct (Sc j Hj ltac:(congruence) ltac:(congruence)) as (j0 & Hj0 & Bj0 & Lj0 & Ej0).
           destruct (W2 i0 j0 Hi0 Hj0 ltac:(congruence)) as [F1 F2].
           assert (Lij : local_depths d1 i = local_depths d1 j) by congruence.
           split; [exact Lij|].
           apply eqbits_trans with (N.of_nat i0); [exact Ei0|].
           apply eqbits_trans with (N.of_nat j0); [rewrite <- Li0; exact F2|].
           rewrite Lij. apply eqbits_sym. exact Ej0.
    + intros i Hi.
      destruct (decide (bucket_page_ids d1 i = B)) as [E|E]; [rewrite E; lia|].
      destruct (decide (bucket_page_ids d1 i = next)) as [E'|E']; [rewrite E'; lia|].
      destruct (Sc i Hi E E') as (i0 & Hi0 & <- & _). specialize (W3 i0 Hi0). lia.
  - (* inv_bits *)
    intros i e Hi Hl.
    destruct (decide (bucket_page_ids d1 i = B)) as [E|E].
    + rewrite E, S2B in Hl. destruct (Lb' e Hl) as [HlB Hbit].
      destruct (Sb i Hi E) as (-> & Ti & Ei). apply eqbits_ext.
      * apply eqbits_trans with (N.of_nat s); [apply HinvB; exact HlB|apply eqbits_sym; exact Ei].
      * rewrite Hbit, Ti. reflexivity.
    + destruct (decide (bucket_page_ids d1 i = next)) as [E'|E'].
      * rewrite E', S2n in Hl. destruct (Lnb e Hl) as [HlB Hbit].
        destruct (Sn i Hi E') as (-> & Ti & Ei). apply eqbits_ext.
        -- apply eqbits_trans with (N.of_nat s); [apply HinvB; exact HlB|apply eqbits_sym; exact Ei].
        -- rewrite Hbit, Ti. reflexivity.
      * rewrite S2o in Hl by assumption.
        destruct (Sc i Hi E E') as (i0 & Hi0 & Bi0 & Li0 & Ei0).
        rewrite <- Bi0 in Hl. rewrite <- Li0 in Ei0 |- *.
        apply eqbits_trans with (N.of_nat i0); [apply Hinv; assumption|apply eqbits_sym; exact Ei0].
  - (* frame *)
    intros p e Hp Hl. destruct (decide (p = B)) as [->|Hne].
    + rewrite S2B in Hl. apply Lb'. exact Hl.
    + rewrite S2o in Hl by lia. exact Hl.
  - intros p e Hl. destruct (decide (p = B)) as [->|Hne].
    + rewrite S2B in Hl. exists B. apply Lb'. exact Hl.
    + destruct (decide (p = next)) as [->|Hne'].
      * rewrite S2n in Hl. exists B. apply Lnb. exact Hl.
      * rewrite S2o in Hl by assumption. exists p. exact Hl.
  - intros k p Hp Ha i0 Hi0 Hb0.
    destruct (Sd i0 Hi0 ltac:(congruence)) as [E1 E2].
    rewrite <- E2. apply Ha; [lia|congruence].
Qed.

Lemma insert_ok fuel : forall (st st' : HState P) k v,
  dir_wf (directory st) (next_page_id st) -> inv_bits (directory st) (buckets st) ->
  insert_with_lock fuel st k v = Some st' ->
  dir_wf (directory st') (next_page_id st') /\ inv_bits (directory st') (buckets st') /\
  (next_page_id st <= next_page_id st')%N /\
  (forall p e, (p < next_page_id st)%N -> live (buckets st' p) e ->
     live (buckets st p) e \/ (e = (k, v) /\ addr_ok (directory st) k p)) /\
  (forall p e, live (buckets st' p) e -> (exists q, live (buckets st q) e) \/ e = (k, v)).
Proof.
  induction fuel as [|fuel IH]; intros st st' k v Hwf Hinv H; [discriminate|].
  simpl in H.
  set (d := directory st) in *. set (S := buckets st) in *.
  destruct (slot_props d (next_page_id st) k Hwf) as [Hs Haddr].
  set (s := bucket_index_of_key P k d) in *.
  destruct (get_bucket_page_id d s) as [bp|] eqn:Hg; simpl in H; [|discriminate].
  apply get_bucket_page_id_Some in Hg as [_ ->].
  set (B := bucket_page_ids d s) in *.
  destruct (is_full (S B)) eqn:Hfull.
  - destruct (split_bucket st s (S B) d) as [[[b' d1] st1]|] eqn:Hsp; simpl in H; [|discriminate].
    destruct (split_ok st s b' d1 st1 Hwf Hinv Hs Hfull Hsp)
      as (Hn1 & Hwf1 & Hinv1 & Hfr1 & Hex1 & Had1).
    change (bucket_page_ids (directory st) s) with B in Hinv1, Hfr1, Hex1, Had1.
    change (buckets st) with S in Hfr1, Hex1.
    set (st2 := update_directory_and_bucket st1 d1 B b') in H.
    destruct (insert_with_lock fuel st2 k v) as [st3|] eqn:Hrec; simpl in H; [|discriminate].
    injection H as <-.
    destruct (IH st2 st3 k v Hwf1 Hinv1 Hrec) as (Hwf3 & _ & Hn3 & Hfr3 & Hex3).
    simpl in Hn3. fold S in Hfr1, Hex1.
    assert (HS2B : Nupd (buckets st1) B b' B = b') by apply Nupd_same.
    split; [|split; [|split; [|split]]]; simpl.
    + eapply dir_wf_mono; [exact Hwf1|exact Hn3].
    + intros i e Hi Hl.
      destruct (decide (bucket_page_ids d1 i = B)) as [E|E].
      * rewrite E, Nupd_same in Hl. apply Hinv1; [exact Hi|]. rewrite E, HS2B. exact Hl.
      * rewrite Nupd_other in Hl by exact E.
        assert (Hlt : (bucket_page_ids d1 i < next_page_id st2)%N).
        { destruct Hwf1 as (_ & _ & _ & W3). apply W3. exact Hi. }
        destruct (Hfr3 _ e Hlt Hl) as [Hl2|[-> Ha]].
        -- apply Hinv1; [exact Hi|exact Hl2].
        -- apply Ha; [exact Hi|reflexivity].
    + simpl in Hn1. lia.
    + intros p e Hp Hl. destruct (decide (p = B)) as [->|Hne].
      * rewrite Nupd_same in Hl. left. apply (Hfr1 B); [exact Hp|rewrite HS2B; exact Hl].
      * rewrite Nupd_other in Hl by exact Hne.
        destruct (Hfr3 p e ltac:(simpl; lia) Hl) as [Hl2|[-> Ha]].
        -- left. apply (Hfr1 p); [exact Hp|exact Hl2].
        -- right. split; [reflexivity|]. apply (Had1 k p Hne Ha).
    + intros p e Hl. destruct (decide (p = B)) as [->|Hne].
      * rewrite Nupd_same in Hl. left. apply (Hex1 B). rewrite HS2B. exact Hl.
      * rewrite Nupd_other in Hl by exact Hne.
        destruct (Hex3 p e Hl) as [[q Hq] | ->]; [|right; reflexivity].
        left. apply (Hex1 q). exact Hq.
  - destruct (bucket_insert (S B) k v) as [b'|] eqn:Hbi; simpl in H; [|discriminate].
    injection H as <-.
    split; [|split; [|split; [|split]]]; simpl.
    + exact Hwf.
    + intros i e Hi Hl.
      destruct (decide (bucket_page_ids d i = B)) as [E|E].
      * rewrite E, Nupd_same in Hl.
        destruct (bucket_insert_live _ _ _ _ _ _ Hbi Hl) as [Hl0| ->].
        -- apply Hinv; [exact Hi|]. rewrite E. exact Hl0.
        -- apply Haddr; [exact Hi|exact E].
      * rewrite Nupd_other in Hl by exact E. apply Hinv; assumption.
    + lia.
    + intros p e Hp Hl. destruct (decide (p = B)) as [->|Hne].
      * rewrite Nupd_same in Hl.
        destruct (bucket_insert_live _ _ _ _ _ _ Hbi Hl) as [Hl0| ->]; [left; exact Hl0|].
        right. split; [reflexivity|exact Haddr].
      * rewrite Nupd_other in Hl by exact Hne. left. exact Hl.
    + intros p e Hl. destruct (decide (p = B)) as [->|Hne].
      * rewrite Nupd_same in Hl.
        destruct (bucket_insert_live _ _ _ _ _ _ Hbi Hl) as [Hl0| ->]; [left; exists B; exact Hl0|].
        right. reflexivity.
      * rewrite Nupd_other in Hl by exact Hne. left. exists p. exact Hl.
Qed.

Lemma remove_ok (st st' : HState P) k r :
  dir_wf (directory st) (next_page_id st) -> inv_bits (directory st) (buckets st) ->
  remove st k = Some (r, st') ->
  dir_wf (directory st') (next_page_id st') /\ inv_bits (directory st') (buckets st') /\
  (forall p e, live (buckets st' p) e -> live (buckets st p) e).
Proof.
  intros Hwf Hinv H. unfold remove in H.
  destruct (get_bucket_page_id _ _) as [bp|] eqn:Hg; simpl in H; [|discriminate].
  destruct (bucket_remove (buckets st bp) k) as [[r0 b']|] eqn:Hbr; simpl in H; [|discriminate].
  injection H as <- <-.
  assert (Hfr : forall p e, live (Nupd (buckets st) bp b' p) e -> live (buckets st p) e).
  { intros p e Hl. destruct (decide (p = bp)) as [->|Hne].
    - rewrite Nupd_same in Hl. eapply bucket_remove_live; eauto.
    - rewrite Nupd_other in Hl by exact Hne. exact Hl. }
  split; [exact Hwf|]. split; [|exact Hfr].
  intros i e Hi Hl. apply Hinv; [exact Hi|]. apply Hfr. exact Hl.
Qed.

Lemma setup_ok log :
  dir_wf (directory (setup_new_hashmap P log)) (next_page_id (setup_new_hashmap P log)) /\
  inv_bits (directory (setup_new_hashmap P log)) (buckets (setup_new_hashmap P log)).
Proof.
  split.
  - unfold dir_wf, nslots. simpl. split; [unfold DIR_SIZE; lia|].
    split; [|split].
    + intros i Hi. destruct i as [|[|i]]; simpl; lia.
    + intros i j Hi Hj Hb. destruct i as [|[|i]]; destruct j as [|[|j]]; simpl in Hb; try lia;
        (split; [reflexivity|apply eqbits_refl]).
    + intros i Hi. destruct i as [|[|i]]; simpl; lia.
  - intros i e _ Hl. exfalso. apply (empty_bucket_not_live e Hl).
Qed.

Lemma reachable_ok (st : HState P) :
  reachable P st -> dir_wf (directory st) (next_page_id st) /\ inv_bits (directory st) (buckets st).
Proof.
  induction 1 as [log|st fuel k v st' _ [Hwf Hinv] H|st k r st' _ [Hwf Hinv] H].
  - apply setup_ok.
  - destruct (insert_ok fuel st st' k v Hwf Hinv H) as (? & ? & _). auto.
  - destruct (remove_ok st st' k r Hwf Hinv H) as (? & ? & _). auto.
Qed.

Lemma inv_bits_dir_invariant (st : HState P) :
  inv_bits (directory st) (buckets st) -> dir_invariant st.
Proof.
  intros H i e Hi Hl. apply mod_eq_bits. apply H; assumption.
Qed.

End HashIndexLemmas.

(* ================================================================== *)
(** ** Extendible hashing: properties of the index *)

Section HashIndexProperties.
Import EH.

Lemma find_live_absent (P : HashParams) kvs rd k n :
  (forall j kv, kvs !! j = Some kv -> key_eqb P (fst kv) k = true -> rd !! (n + j) = Some false) ->
  find_live P kvs rd k n = Some None.
Proof.
  revert n. induction kvs as [|kv kvs IH]; intros n H; simpl; [reflexivity|].
  destruct (key_eqb P (fst kv) k) eqn:E.
  - rewrite <- (Nat.add_0_r n), (H 0 kv eq_refl E), Nat.add_0_r.
    apply IH. intros j kv' Hj Ej. replace (S n + j) with (n + S j) by lia. exact (H (S j) kv' Hj Ej).
  - apply IH. intros j kv' Hj Ej. replace (S n + j) with (n + S j) by lia. exact (H (S j) kv' Hj Ej).
Qed.

(** C1: a key inserted through the split path is lost. The index of
    [main.rs] (u32 keys and values, 409 slots per bucket) is filled with
    the 409 first keys whose hash is even, which fill bucket page 1 of
    slot 0. Inserting 2004 (hash mod 4 = 2, slot 0) then splits that
    bucket and inserts 2004 successfully, but a subsequent lookup of 2004
    finds nothing: [insert_with_lock] writes its stale copies of the
    directory and bucket pages back after the recursive insert. *)
Theorem insert_after_split_loses_key :
  match insert_all 10 (setup_new_hashmap u32_index 0)
          (map (fun x => (x, x)) u32_even_hash_keys) with
  | Some st0 =>
      is_full (buckets st0 1%N) = true /\
      bucket_index_of_key u32_index 2004%N (directory st0) = 0 /\
      (get_hash_u32 2004 mod 4 = 2)%N /\
      match insert_with_lock 10 st0 2004%N 2004%N with
      | Some st1 => lookup st1 2004%N = None
      | None => False
      end
  | None => False
  end.
Proof. vm_compute. repeat split. Qed.

(** C6: the directory invariant [hash(k) mod 2^local_depth[i] = i mod
    2^local_depth[i]] for the live entries of every slot [i < 2^G] holds in
    every state reached by inserts and removes; an insert makes live only
    entries that were already live somewhere or the inserted pair, and a
    remove makes nothing live; the rehash of a full bucket keeps exactly
    its live entries whose hash has bit [L-1] set and moves to the fresh
    page exactly those whose bit [L-1] is 0. *)
Theorem insert_preserves_dir_invariant (P : HashParams) :
  (forall st, reachable P st -> dir_invariant st) /\
  (forall st fuel k v st' p e, reachable P st -> insert_with_lock fuel st k v = Some st' ->
     live (buckets st' p) e -> (exists q, live (buckets st q) e) \/ e = (k, v)) /\
  (forall st k r st' p e, reachable P st -> remove st k = Some (r, st') ->
     live (buckets st' p) e -> live (buckets st p) e) /\
  (forall (L : N) (b b' nb' : HashBucketPage P), is_full b = true ->
     rehash_loop L b (empty_bucket P) (seq 0 (length (key_values b))) = Some (b', nb') ->
     (forall e, live b' e <-> live b e /\ N.testbit (get_hash P (fst e)) (L - 1) = true) /\
     (forall e, live nb' e <-> live b e /\ N.testbit (get_hash P (fst e)) (L - 1) = false)).
Proof.
  split; [|split; [|split]].
  - intros st H. apply inv_bits_dir_invariant. apply (reachable_ok P st H).
  - intros st fuel k v st' p e Hr Hi Hl. destruct (reachable_ok P st Hr) as [Hwf Hinv].
    destruct (insert_ok P fuel st st' k v Hwf Hinv Hi) as (_ & _ & _ & _ & H5). exact (H5 p e Hl).
  - intros st k r st' p e Hr Hm Hl. destruct (reachable_ok P st Hr) as [Hwf Hinv].
    destruct (remove_ok P st st' k r Hwf Hinv Hm) as (_ & _ & H3). exact (H3 p e Hl).
  - intros L b b' nb' Hfull Hre.
    destruct (rehash_loop_spec P L b (empty_bucket P) b' nb' _ Hre (NoDup_seq _ _))
      as (R1 & R2 & R3 & _ & _).
    { intros i _. destruct (readable b !! i) as [r|] eqn:E; [left|right; reflexivity].
      f_equal. exact (is_full_readable P b i r Hfull E). }
    assert (Hin : forall i e, key_values b !! i = Some e -> i ∈ seq 0 (length (key_values b))).
    { intros i e Hk. apply elem_of_seq. apply lookup_lt_Some in Hk. lia. }
    split; intros e; split.
    + intros [i [Hr Hk]]. destruct (R1 i e Hr Hk) as (Hr0 & Hk0 & Hb).
      split; [exists i; auto|]. exact (Hb (Hin i e Hk0)).
    + intros [[i [Hr Hk]] Hb]. pose proof (R3 i e (Hin i e Hk) Hr Hk) as H3.
      rewrite Hb in H3. destruct H3 as [H3 H4]. exists i; auto.
    + intros Hl. destruct (R2 e Hl) as [Hn|Hb]; [|exact Hb].
      exfalso. exact (empty_bucket_not_live P e Hn).
    + intros [[i [Hr Hk]] Hb]. pose proof (R3 i e (Hin i e Hk) Hr Hk) as H3.
      rewrite Hb in H3. exact H3.
Qed.

Lemma insert_preserves_dir_invariant_witness :
  dir_invariant (setup_new_hashmap u32_index 0) /\
  let fb := mkBucket (P := u32_index) (replicate 409 true) (replicate 409 false)
              (map (fun x => (N.of_nat x, N.of_nat x)) (seq 0 409)) in
  exists b' nb',
    rehash_loop 1 fb (empty_bucket u32_index) (seq 0 (length (key_values fb))) = Some (b', nb') /\
    forall e, live nb' e <-> live fb e /\ N.testbit (get_hash u32_index (fst e)) 0 = false.
Proof.
  split; [exact (proj1 (insert_preserves_dir_invariant u32_index) _ (reach_setup _ 0))|].
  intros fb.
  assert (Hs : match rehash_loop 1 fb (empty_bucket u32_index) (seq 0 (length (key_values fb)))
                with Some _ => true | None => false end = true)
    by (unfold fb; vm_compute; reflexivity).
  destruct (rehash_loop 1 fb (empty_bucket u32_index) (seq 0 (length (key_values fb))))
    as [[b' nb']|] eqn:E; [|discriminate Hs].
  exists b', nb'. split; [reflexivity|].
  pose proof (proj2 (proj2 (proj2 (insert_preserves_dir_invariant u32_index))) 1%N fb b' nb'
               ltac:(unfold fb; vm_compute; reflexivity) E) as [_ H].
  intros e. rewrite (H e). reflexivity.
Defined.

(** C10: removing a key that has no live entry in the bucket its slot
    addresses succeeds with no result and leaves the directory, the page
    counter and every bucket page as they were. *)
Theorem remove_absent_key_unchanged (P : HashParams) (st : HState P) (k : Key P) (bp : N) :
  get_bucket_page_id (directory st) (bucket_index_of_key P k (directory st)) = Some bp ->
  length (readable (buckets st bp)) = length (key_values (buckets st bp)) ->
  (forall e, live (buckets st bp) e -> key_eqb P (fst e) k = false) ->
  exists st', remove st k = Some (None, st') /\ directory st' = directory st /\
    next_page_id st' = next_page_id st /\ forall p, buckets st' p = buckets st p.
Proof.
  intros Hg Hlen Habs. unfold remove. rewrite Hg. simpl.
  unfold bucket_remove. rewrite find_live_absent.
  - simpl. eexists. split; [reflexivity|]. simpl. split; [reflexivity|]. split; [reflexivity|].
    intros p. unfold Nupd. destruct (N.eqb_spec p bp) as [->|_]; reflexivity.
  - intros j kv Hk He. simpl.
    destruct (readable (buckets st bp) !! j) as [[]|] eqn:Er.
    + exfalso. rewrite (Habs kv (ex_intro _ j (conj Er Hk))) in He. discriminate.
    + reflexivity.
    + apply lookup_ge_None in Er. apply lookup_lt_Some in Hk. lia.
Qed.

Lemma remove_absent_key_unchanged_witness :
  get_bucket_page_id (directory (setup_new_hashmap u32_index 0))
    (bucket_index_of_key u32_index 7%N (directory (setup_new_hashmap u32_index 0))) = Some 1%N /\
  exists st', remove (setup_new_hashmap u32_index 0) 7%N = Some (None, st') /\
    directory st' = directory (setup_new_hashmap u32_index 0) /\
    next_page_id st' = next_page_id (setup_new_hashmap u32_index 0) /\
    forall p, buckets st' p = buckets (setup_new_hashmap u32_index 0) p.
Proof.
  split; [vm_compute; reflexivity|].
  apply (remove_absent_key_unchanged u32_index (setup_new_hashmap u32_index 0) 7%N 1%N).
  - vm_compute. reflexivity.
  - vm_compute. reflexivity.
  - intros e He. exfalso. exact (empty_bucket_not_live u32_index e He).
Defined.

End HashIndexProperties.

(* ================================================================== *)
(** ** Buffer pool: an update reaches the file *)

Section UpdateFlushProofs.
Import BP.

Lemma vec_set_frames_kept {Page} (d d' : list (option Page)) i x :
  vec_set d i (Some x) = Some d' -> frames_kept d d' /\ d' !! i = Some (Some x).
Proof.
  unfold vec_set. case_decide; [|discriminate]. intros [= <-]. split.
  - intros j pg Hj. destruct (decide (j = i)) as [->|Hne].
    + exists x. by apply list_lookup_insert_eq.
    + exists pg. by rewrite list_lookup_insert_ne.
  - by apply list_lookup_insert_eq.
Qed.

Lemma load_page_from_disk_spec {Page} disk0 (st st' : BufferPool Page) pid fi :
  load_page_from_disk disk0 st pid fi = Some st' ->
  dirty_frames_filled st ->
  dirty_frames_filled st' /\ page_table st' !! pid = Some (PageTableEntry_new fi).
Proof.
  unfold load_page_from_disk. destruct (vec_set _ _ _) as [d|] eqn:Hv; [|discriminate].
  cbn [mbind option_bind]. intros [= <-] Hdf.
  apply vec_set_frames_kept in Hv as [Hk _]. split; [|simpl; by rewrite lookup_insert_eq].
  intros p e He Hd. simpl in He. destruct (decide (p = pid)) as [->|Hne].
  - rewrite lookup_insert_eq in He. injection He as <-. discriminate.
  - rewrite lookup_insert_ne in He by done. destruct (Hdf p e He Hd) as [pg Hpg].
    exact (Hk _ _ Hpg).
Qed.

Lemma load_page_spec {Page} disk0 (st st1 : BufferPool Page) pid fi :
  load_page disk0 st pid = Some (Some fi, st1) ->
  dirty_frames_filled st ->
  dirty_frames_filled st1 /\
  exists e, page_table st1 !! pid = Some e /\ frame_index e = fi.
Proof.
  unfold load_page. intros Hl Hdf.
  destruct (page_table st !! pid) as [e|] eqn:He.
  - injection Hl as <- <-. split.
    + intros p e' He' Hd. simpl in He'. destruct (decide (p = pid)) as [->|Hne].
      * rewrite lookup_insert_eq in He'. injection He' as <-. simpl in Hd |- *.
        exact (Hdf pid e He Hd).
      * rewrite lookup_insert_ne in He' by done. exact (Hdf p e' He' Hd).
    + eexists. simpl. rewrite lookup_insert_eq. split; [reflexivity|done].
  - destruct (Nat.eqb _ _).
    + destruct (lru_pop_least_recently_used _) as [[index|] lru]; [|discriminate].
      simpl in Hl. destruct (page_table st !! index) as [pte|] eqn:Hpte; [|discriminate].
      destruct (dirty pte) eqn:Hd.
      * destruct (data st !! frame_index pte) as [[pg|]|]; try discriminate.
        cbn [mbind option_bind] in Hl.
        destruct (load_page_from_disk _ _ _ _) as [st3|] eqn:H3; [|discriminate].
        injection Hl as <- <-.
        apply load_page_from_disk_spec in H3 as [? ?]; [eauto|].
        intros p e' He' Hd'. exact (Hdf p e' He' Hd').
      * cbn [mbind option_bind] in Hl.
        destruct (load_page_from_disk _ _ _ _) as [st3|] eqn:H3; [|discriminate].
        injection Hl as <- <-.
        apply load_page_from_disk_spec in H3 as [? ?]; [eauto|].
        intros p e' He' Hd'. exact (Hdf p e' He' Hd').
    + destruct (first_none (data st)) as [f|]; [|discriminate].
      cbn [mbind option_bind] in Hl.
      destruct (load_page_from_disk _ _ _ _) as [st3|] eqn:H3; [|discriminate].
      injection Hl as <- <-.
      apply load_page_from_disk_spec in H3 as [? ?]; eauto.
Qed.

Lemma find_app_first {A} (f : A -> bool) (l1 l2 : list A) y :
  y ∈ l1 -> f y = true -> exists x, find f (l1 ++ l2) = Some x /\ x ∈ l1 /\ f x = true.
Proof.
  induction l1 as [|a l1 IH]; intros Hy Hf; [inversion Hy|]. simpl.
  destruct (f a) eqn:Ha; [exists a; split; [done|split; [left|done]]|].
  apply elem_of_cons in Hy as [->|Hy]; [congruence|].
  destruct (IH Hy Hf) as (x & ? & ? & ?). exists x. split; [done|split; [by right|done]].
Qed.

(** [update_page] followed by [unload_all_pages_and_write_to_file]: when
    every dirty page-table entry names a filled frame, a successful
    [update_page] of a page is flushed without panicking and the file then
    holds the new content of that page, whatever the pool evicted to serve
    the update. *)
Theorem update_page_then_flush_persists {Page} (disk0 : nat -> Page)
  (st st1 : BufferPool Page) (pid : nat) (new_data : Page) :
  dirty_frames_filled st ->
  update_page disk0 st pid new_data = Some (ROk, st1) ->
  exists st2, unload_all_pages_and_write_to_file st1 = Some st2 /\
    read_page disk0 st2 pid = new_data.
Proof.
  intros Hdf. unfold update_page.
  destruct (load_page disk0 st pid) as [[[fi|] st0]|] eqn:Hl; cbn [mbind option_bind];
    [|discriminate|discriminate].
  apply load_page_spec in Hl as [Hdf0 (e & He & Hfi)]; [|done].
  rewrite He. destruct (vec_set (data st0) fi (Some new_data)) as [d|] eqn:Hv;
    cbn [mbind option_bind]; [|discriminate].
  intros [= <-]. apply vec_set_frames_kept in Hv as [Hk Hnew].
  set (pt := <[pid := mkPTE (frame_index e) true (ref_count e)]> (page_table st0)).
  assert (Hpt : pt !! pid = Some (mkPTE fi true (ref_count e))).
  { unfold pt. rewrite lookup_insert_eq. by subst fi. }
  unfold unload_all_pages_and_write_to_file. cbn [data page_table disk_writes].
  destruct (flush_entries_spec d (map_to_list pt) (disk_writes st0)) as (nw & Hrun & Hnd & Hmem).
  - apply NoDup_fst_map_to_list.
  - intros p e' Hin Hd. apply elem_of_map_to_list in Hin.
    destruct (decide (p = pid)) as [->|Hne].
    + rewrite Hpt in Hin. injection Hin as <-. simpl. eauto.
    + unfold pt in Hin. rewrite lookup_insert_ne in Hin by done.
      destruct (Hdf0 p e' Hin Hd) as [pg Hpg]. exact (Hk _ _ Hpg).
  - rewrite Hrun. cbn [mbind option_bind]. eexists. split; [reflexivity|].
    unfold read_page. cbn [disk_writes].
    assert (Hin : (pid, new_data) ∈ nw).
    { apply Hmem. exists (mkPTE fi true (ref_count e)).
      rewrite elem_of_map_to_list. done. }
    destruct (find_app_first (fun w => Nat.eqb (fst w) pid) nw (disk_writes st0) _ Hin)
      as ([p pg] & Hfind & Hx & Hf); [simpl; apply Nat.eqb_refl|].
    rewrite Hfind. simpl in Hf. apply Nat.eqb_eq in Hf. subst p.
    apply Hmem in Hx as (e' & Hin' & _ & Hpg). apply elem_of_map_to_list in Hin'.
    rewrite Hpt in Hin'. injection Hin' as <-. simpl in Hpg. congruence.
Qed.

Lemma update_page_then_flush_persists_witness :
  dirty_frames_filled (@BufferPool_new nat) /\
  exists st1, update_page (fun p : nat => p) BufferPool_new 3 42 = Some (ROk, st1) /\
  exists st2, unload_all_pages_and_write_to_file st1 = Some st2 /\
    read_page (fun p : nat => p) st2 3 = 42.
Proof.
  assert (H : dirty_frames_filled (@BufferPool_new nat)).
  { intros p e He. simpl in He. rewrite lookup_empty in He. discriminate. }
  split; [exact H|]. eexists. split; [vm_compute; reflexivity|].
  apply (update_page_then_flush_persists (fun p : nat => p) BufferPool_new _ 3 42 H).
  vm_compute. reflexivity.
Defined.

End UpdateFlushProofs.

(* ================================================================== *)
(** ** Extendible hashing: remove, insert and the global split *)

Section HashIndexOpsProofs.
Import EH.

Lemma find_live_found (P : HashParams) kvs rd k n idx :
  find_live P kvs rd k n = Some (Some idx) ->
  n <= idx /\ exists kv, kvs !! (idx - n) = Some kv /\ key_eqb P (fst kv) k = true.
Proof.
  revert n. induction kvs as [|kv kvs IH]; intros n H; simpl in H; [discriminate|].
  destruct (key_eqb P (fst kv) k) eqn:E.
  - destruct (rd !! n) as [[]|]; [| |discriminate].
    + injection H as <-. split; [lia|]. exists kv. rewrite Nat.sub_diag. auto.
    + destruct (IH _ H) as [Hle (kv' & Hk & Ek)]. split; [lia|].
      exists kv'. replace (idx - n) with (S (idx - S n)) by lia. auto.
  - destruct (IH _ H) as [Hle (kv' & Hk & Ek)]. split; [lia|].
    exists kv'. replace (idx - n) with (S (idx - S n)) by lia. auto.
Qed.

Lemma first_false_exists (l : list bool) :
  forallb (fun r => r) l = false -> exists i, first_false l = Some i /\ i < length l.
Proof.
  induction l as [|[] l IH]; simpl; intros H; [discriminate| |].
  - destruct (IH H) as (i & -> & Hi). exists (S i). simpl. split; [done|lia].
  - exists 0. split; [done|lia].
Qed.

(** [ExtendibleHashing::remove] of a key that it finds: the returned pair
    has that key and was live in some slot of the bucket the key's
    directory slot addresses; the slot is made unreadable and reset to the
    default pair; the directory, the page counter and the other bucket
    pages are unchanged. *)
Theorem remove_returns_live_entry (P : HashParams) (st st' : HState P) (k : Key P) bp e :
  get_bucket_page_id (directory st) (bucket_index_of_key P k (directory st)) = Some bp ->
  remove st k = Some (Some e, st') ->
  key_eqb P (fst e) k = true /\
  (exists i, readable (buckets st bp) !! i = Some true /\
             key_values (buckets st bp) !! i = Some e /\
             readable (buckets st' bp) !! i = Some false /\
             key_values (buckets st' bp) !! i = Some (key_default P, value_default P)) /\
  directory st' = directory st /\ next_page_id st' = next_page_id st /\
  (forall p, p <> bp -> buckets st' p = buckets st p).
Proof.
  intros Hg. unfold remove. rewrite Hg. cbn [mbind option_bind].
  unfold bucket_remove, toggle_readable.
  destruct (find_live P _ _ k 0) as [[idx|]|] eqn:Hf; cbn [mbind option_bind]; try discriminate.
  pose proof (find_live_true P _ _ _ _ _ Hf) as Hr.
  apply find_live_found in Hf as [_ (kv & Hkv & Ek)]. rewrite Nat.sub_0_r in Hkv.
  rewrite Hr. cbn [mbind option_bind key_values]. rewrite Hkv. cbn [mbind option_bind].
  intros [= <- <-]. split; [exact Ek|]. split; [|split; [done|split; [done|]]].
  - exists idx. simpl. rewrite Nupd_same. simpl. split; [done|split; [done|]].
    split; apply list_lookup_insert_eq.
    + apply lookup_lt_Some in Hr. exact Hr.
    + apply lookup_lt_Some in Hkv. exact Hkv.
  - intros p Hp. simpl. apply Nupd_other. exact Hp.
Qed.

(** [insert_with_lock] into a bucket that is not full (with its three
    vectors of equal length) succeeds without a split: the pair becomes
    live in that bucket, every pair live there stays live, and the
    directory, the page counter and the other bucket pages are
    unchanged. *)
Theorem insert_into_non_full_bucket (P : HashParams) fuel (st : HState P) k v bp :
  get_bucket_page_id (directory st) (bucket_index_of_key P k (directory st)) = Some bp ->
  is_full (buckets st bp) = false ->
  length (has_been_occupied (buckets st bp)) = length (readable (buckets st bp)) ->
  length (key_values (buckets st bp)) = length (readable (buckets st bp)) ->
  exists st', insert_with_lock (S fuel) st k v = Some st' /\
    directory st' = directory st /\ next_page_id st' = next_page_id st /\
    live (buckets st' bp) (k, v) /\
    (forall e, live (buckets st bp) e -> live (buckets st' bp) e) /\
    (forall p, p <> bp -> buckets st' p = buckets st p).
Proof.
  intros Hg Hfull Hocc Hkv. cbn [insert_with_lock]. rewrite Hg. cbn [mbind option_bind].
  rewrite Hfull.
  set (b := buckets st bp) in *.
  assert (Hins : exists b', bucket_insert b k v = Some b').
  { unfold bucket_insert, first_free_index, toggle_readable, set_has_been_occupied.
    destruct (first_false_exists _ Hfull) as (i & Hi & Hlt). rewrite Hi. cbn [mbind option_bind].
    rewrite (first_false_lookup _ _ Hi). cbn [mbind option_bind has_been_occupied].
    destruct (lookup_lt_is_Some_2 (has_been_occupied b) i) as [o Ho]; [lia|].
    rewrite Ho. cbn [mbind option_bind key_values].
    rewrite decide_True by lia. eexists. reflexivity. }
  destruct Hins as [b' Hins]. rewrite Hins. cbn [mbind option_bind].
  eexists. split; [reflexivity|]. simpl. split; [done|split; [done|]].
  rewrite Nupd_same. split; [|split].
  - exact (bucket_insert_new_live P _ _ _ _ Hins).
  - intros e He. exact (bucket_insert_keeps P _ _ _ _ _ Hins He).
  - intros p Hp. apply Nupd_other. exact Hp.
Qed.

(** [global_split_bucket] panics whenever the global depth is at least 9:
    the copy loop writes slot [i + 2^G], past the 512 slots of the
    directory arrays, already at [i = 0]. *)
Theorem global_split_bucket_deep_panics (d : HashDirectoryPage) s new :
  (9 <= global_depth d)%N -> global_split_bucket d s new = None.
Proof.
  intros HG. unfold global_split_bucket, increment_global_depth.
  destruct (decide (global_depth d + 1 < 256)%N) as [Hlt|]; [|reflexivity].
  cbn [mbind option_bind].
  assert (Hpow : 512 <= 2 ^ N.to_nat (global_depth d)).
  { change 512 with (2 ^ 9). apply Nat.pow_le_mono_r; lia. }
  destruct (2 ^ N.to_nat (global_depth d)) as [|n] eqn:E; [lia|].
  cbn [seq global_copy_loop].
  unfold get_bucket_page_id at 1. rewrite decide_True by (unfold DIR_SIZE; lia).
  cbn [mbind option_bind]. unfold set_bucket_page_id.
  rewrite (decide_False (P := 0 + S n < DIR_SIZE)) by (unfold DIR_SIZE; lia). reflexivity.
Qed.

Lemma remove_returns_live_entry_witness :
  let P := mkHashParams N N N.eqb 0%N 0%N (fun k => k) 2 in
  let st := mkHState (new_empty 0 1 2 0)
              (fun _ => @mkBucket P [false; true] [true; true] [(3%N, 3%N); (7%N, 7%N)]) 3 in
  get_bucket_page_id (directory st) (bucket_index_of_key P 7%N (directory st)) = Some 2%N /\
  exists st', remove st 7%N = Some (Some (7%N, 7%N), st') /\
  key_eqb P (fst (7%N, 7%N)) 7%N = true /\
  (exists i, readable (buckets st 2%N) !! i = Some true /\
             key_values (buckets st 2%N) !! i = Some (7%N, 7%N) /\
             readable (buckets st' 2%N) !! i = Some false /\
             key_values (buckets st' 2%N) !! i = Some (key_default P, value_default P)) /\
  directory st' = directory st /\ next_page_id st' = next_page_id st /\
  (forall p, p <> 2%N -> buckets st' p = buckets st p).
Proof.
  intros P st. split; [vm_compute; reflexivity|].
  eexists. split; [vm_compute; reflexivity|].
  apply (remove_returns_live_entry P st _ 7%N 2%N (7%N, 7%N)); vm_compute; reflexivity.
Defined.

Lemma insert_into_non_full_bucket_witness :
  let P := mkHashParams N N N.eqb 0%N 0%N (fun k => k) 4 in
  let st := setup_new_hashmap P 0 in
  get_bucket_page_id (directory st) (bucket_index_of_key P 7%N (directory st)) = Some 2%N /\
  is_full (buckets st 2%N) = false /\
  length (has_been_occupied (buckets st 2%N)) = length (readable (buckets st 2%N)) /\
  length (key_values (buckets st 2%N)) = length (readable (buckets st 2%N)) /\
  exists st', insert_with_lock 1 st 7%N 7%N = Some st' /\
    directory st' = directory st /\ next_page_id st' = next_page_id st /\
    live (buckets st' 2%N) (7%N, 7%N) /\
    (forall e, live (buckets st 2%N) e -> live (buckets st' 2%N) e) /\
    (forall p, p <> 2%N -> buckets st' p = buckets st p).
Proof.
  intros P st. split; [vm_compute; reflexivity|]. split; [vm_compute; reflexivity|].
  split; [vm_compute; reflexivity|]. split; [vm_compute; reflexivity|].
  apply (insert_into_non_full_bucket P 0 st 7%N 7%N 2%N); vm_compute; reflexivity.
Defined.

Lemma global_split_bucket_deep_panics_witness :
  (9 <= global_depth (mkDir 0 0 9 (fun _ => 0%N) (fun _ => 1%N)))%N /\
  global_split_bucket (mkDir 0 0 9 (fun _ => 0%N) (fun _ => 1%N)) 0 5%N = None.
Proof.
  split; [simpl; lia|]. apply global_split_bucket_deep_panics. simpl. lia.
Defined.

End HashIndexOpsProofs.

(* ================================================================== *)
(** ** Page codecs *)

(** Slices and fixed-width little-endian integers of bincode. *)

Section CodecLemmas.
Import BPT.

Import BPT.

Lemma slice_length (l s : bytes) a b : slice l a b = Some s -> length s = b - a.
Proof.
  unfold slice. destruct (decide _) as [H|]; [|done]. intros [= <-].
  rewrite length_take, length_drop. lia.
Qed.

Lemma slice_prefix (l1 l2 : bytes) n : n = length l1 -> slice (l1 ++ l2) 0 n = Some l1.
Proof.
  intros ->. unfold slice. rewrite decide_True by (rewrite length_app; lia).
  rewrite drop_0, Nat.sub_0_r, take_app_length. done.
Qed.

Lemma slice_app_r (l1 l2 : bytes) a b : length l1 <= a -> a <= b ->
  slice (l1 ++ l2) a b = slice l2 (a - length l1) (b - length l1).
Proof.
  intros H Hab. unfold slice. rewrite length_app.
  rewrite drop_app_ge by lia.
  destruct (decide (a <= b /\ b <= length l1 + length l2)) as [HA|HA];
    destruct (decide (a - length l1 <= b - length l1 /\ b - length l1 <= length l2)) as [HB|HB];
    try (exfalso; lia); [|done].
  do 2 f_equal. lia.
Qed.

Lemma slice_app_l (l1 l2 : bytes) a b : a <= b -> b <= length l1 ->
  slice (l1 ++ l2) a b = slice l1 a b.
Proof.
  intros H1 H2. unfold slice. rewrite length_app.
  rewrite !decide_True by lia. rewrite drop_app_le by lia.
  rewrite take_app_le by (rewrite length_drop; lia). done.
Qed.

Lemma decode_uint_app w (l1 l2 : bytes) : length l1 = w -> decode_uint w (l1 ++ l2) = Some (decode_le l1).
Proof.
  intros <-. unfold decode_uint. rewrite decide_True by (rewrite length_app; lia).
  by rewrite take_app_length.
Qed.

Lemma decode_uint_exact w (l : bytes) : length l = w -> decode_uint w l = Some (decode_le l).
Proof.
  intros <-. unfold decode_uint. rewrite decide_True by lia. by rewrite take_ge.
Qed.

Lemma write_at_app (l1 l2 bs : bytes) : length bs <= length l2 ->
  write_at (l1 ++ l2) (length l1) bs = l1 ++ bs ++ drop (length bs) l2.
Proof.
  intros H. unfold write_at. rewrite take_app_length, drop_app_add. done.
Qed.

End CodecLemmas.


Section ByteRange.
Import BPT.

Import BPT.

Lemma decode_le_range (l : bytes) : byte_range l -> (0 <= decode_le l < 256 ^ Z.of_nat (length l))%Z.
Proof.
  induction 1 as [|b l Hb Hl IH]; simpl; [lia|].
  rewrite Nat2Z.inj_succ, Z.pow_succ_r by lia. nia.
Qed.

Lemma encode_decode_le (l : bytes) : byte_range l -> encode_uint (length l) (decode_le l) = l.
Proof.
  induction 1 as [|b l Hb Hl IH]; simpl; [done|].
  pose proof (decode_le_range l Hl).
  f_equal.
  - rewrite (Z.mul_comm 256), Z.mod_add by lia. apply Z.mod_small; lia.
  - rewrite (Z.mul_comm 256), Z.div_add by lia. rewrite Z.div_small by lia. by rewrite Z.add_0_l.
Qed.

Lemma decode_uint_encode w (l : bytes) x : byte_range l ->
  decode_uint w l = Some x -> encode_uint w x = take w l.
Proof.
  intros Hr. unfold decode_uint. destruct (decide _); [|done]. intros [= <-].
  rewrite <- (encode_decode_le (take w l)) at 2 by (by apply Forall_take).
  rewrite length_take. f_equal. lia.
Qed.

End ByteRange.


(** *** [table/table_page.rs] *)

Section TablePageCodecProofs.
Import TP.

Import TP.
Lemma length_encode_vec_u8 d : length (encode_vec_u8 d) = 8 + length d.
Proof. unfold encode_vec_u8. rewrite length_app. by rewrite length_encode_uint. Qed.

Lemma write_tuples_panics : forall hs ts res idx i th t,
  hs !! i = Some th -> ts !! i = Some t ->
  (tuple_size th < 8 + Z.of_nat (length (tdata t)))%Z ->
  write_tuples res idx hs ts = None.
Proof.
  induction hs as [|th0 hs IH]; intros ts res idx i th t Hh Ht Hs; [done|].
  simpl. destruct (encode_into_slice _ _ _ _) as [res1|]; simpl; [|done].
  destruct ts as [|t0 ts]; [done|]. simpl.
  destruct (u16_checked _) as [e|] eqn:He; simpl; [|done].
  destruct i as [|i]; simpl in Hh, Ht.
  - injection Hh as <-. injection Ht as <-.
    unfold encode_into_slice. destruct (BPT.slice _ _ _); simpl; [|done].
    rewrite decide_False; [done|].
    unfold u16_checked in He. destruct ((0 <=? _)%Z && _)%Z eqn:Hb; [|done].
    injection He as <-. apply andb_prop in Hb as [Hb _]. apply Z.leb_le in Hb. lia.
  - destruct (encode_into_slice _ _ _ _); simpl; [|done]. eapply IH; eauto.
Qed.

Lemma to_raw_page_panics_gen p i th t :
  tuple_headers p !! i = Some th -> tuples p !! i = Some t ->
  (tuple_size th < 8 + Z.of_nat (length (tdata t)))%Z ->
  to_raw_page p = None.
Proof.
  intros Hh Ht Hs. unfold to_raw_page.
  destruct (encode_into_slice _ 0 4 _); simpl; [|done].
  destruct (encode_into_slice _ 4 6 _); simpl; [|done].
  destruct (encode_into_slice _ 6 8 _); simpl; [|done].
  eapply write_tuples_panics; eauto.
Qed.


Lemma encode_into_slice_app (l1 l2 enc : BPT.bytes) a b :
  a = length l1 -> b = a + length enc -> length enc <= length l2 ->
  encode_into_slice (l1 ++ l2) a b enc = Some (l1 ++ enc ++ drop (length enc) l2).
Proof.
  intros -> -> H. unfold encode_into_slice.
  rewrite slice_app_r by lia. rewrite Nat.sub_diag.
  replace (length l1 + length enc - length l1) with (length enc) by lia.
  unfold BPT.slice. rewrite decide_True by lia. simpl.
  rewrite decide_True by lia. by rewrite write_at_app.
Qed.

Lemma to_raw_page_header p :
  to_raw_page p =
  write_tuples (BPT.encode_uint 4 (own_pid p) ++ BPT.encode_uint 2 (free_space_pointer p) ++
                BPT.encode_uint 2 (tuple_count p) ++ replicate 4088 0%Z)
               8 (tuple_headers p) (tuples p).
Proof.
  unfold to_raw_page. change (replicate BPT.PAGE_SIZE 0%Z) with ([] ++ replicate 4096 0%Z).
  rewrite encode_into_slice_app by (rewrite ?length_encode_uint, ?length_replicate; simpl; lia).
  rewrite app_nil_l, length_encode_uint, drop_replicate. cbn [mbind option_bind].
  rewrite encode_into_slice_app by (rewrite ?length_encode_uint, ?length_replicate; simpl; lia).
  rewrite length_encode_uint, drop_replicate. cbn [mbind option_bind].
  rewrite app_assoc.
  rewrite encode_into_slice_app by (rewrite ?length_app, ?length_encode_uint, ?length_replicate; simpl; lia).
  rewrite length_encode_uint, drop_replicate, <- app_assoc. cbn [mbind option_bind]. done.
Qed.

Lemma read_tuples_shape data own : forall n i sid hs ts,
  read_tuples data own i sid n = Some (hs, ts) ->
  length hs = n /\ length ts = n /\
  forall j th t, hs !! j = Some th -> ts !! j = Some t ->
    length (tdata t) = Z.to_nat (tuple_size th) /\ own_rid t = mkRid own (Z.of_nat (sid + j)).
Proof.
  induction n as [|n IH]; intros i sid hs ts Hr; simpl in Hr.
  - injection Hr as <- <-. split; [done|]. split; [done|]. intros j th t Hj. done.
  - destruct (BPT.slice data i (i + 5)) as [sl|]; simpl in Hr; [|done].
    destruct (decode_tuple_header sl) as [th0|]; simpl in Hr; [|done].
    destruct (BPT.slice data _ _) as [td|] eqn:Htd; simpl in Hr; [|done].
    destruct (read_tuples data own (i + 5) (S sid) n) as [[hs' ts']|] eqn:Hrec; simpl in Hr; [|done].
    injection Hr as <- <-. simpl.
    destruct (IH _ _ _ _ Hrec) as (H1 & H2 & H3).
    split; [lia|]. split; [lia|].
    intros [|j] th t Hh Ht; simpl in Hh, Ht.
    + injection Hh as <-. injection Ht as <-. simpl. split.
      * apply slice_length in Htd. lia.
      * f_equal. lia.
    + destruct (H3 j th t Hh Ht) as [Ha Hb]. split; [done|]. rewrite Hb. f_equal. lia.
Qed.

Lemma from_raw_page_shape_of data p :
  from_raw_page data = Some (Some p) ->
  length (tuple_headers p) = Z.to_nat (tuple_count p) /\
  length (tuples p) = Z.to_nat (tuple_count p) /\
  forall j th t, tuple_headers p !! j = Some th -> tuples p !! j = Some t ->
    length (tdata t) = Z.to_nat (tuple_size th) /\ own_rid t = mkRid (own_pid p) (Z.of_nat j).
Proof.
  unfold from_raw_page. intros H.
  destruct (BPT.slice data 0 4); simpl in H; [|done].
  destruct (BPT.decode_uint 4 _) as [own|]; [|done]. 
  destruct (BPT.slice data 4 6); simpl in H; [|done].
  destruct (BPT.decode_uint 2 _) as [fsp|]; [|done].
  destruct (BPT.slice data 6 8); simpl in H; [|done].
  destruct (BPT.decode_uint 2 _) as [cnt|]; [|done].
  destruct (read_tuples data own 8 0 (Z.to_nat cnt)) as [[hs ts]|] eqn:Hr; simpl in H; [|done].
  injection H as <-. simpl. apply read_tuples_shape in Hr as (H1 & H2 & H3).
  split; [done|]. split; [done|]. intros j th t Hh Ht. apply (H3 j th t Hh Ht).
Qed.

(** A table page decoded by [from_raw_page] with at least one tuple cannot
    be encoded again: [to_raw_page] writes each tuple as a [Vec<u8>] with
    an 8-byte length prefix into [tuple_size] bytes, which the decoder set
    to the bare data length, so the first tuple does not fit. *)
Theorem from_raw_page_then_to_raw_page_panics data p :
  from_raw_page data = Some (Some p) -> (0 < tuple_count p)%Z -> to_raw_page p = None.
Proof.
  intros H Hc. destruct (from_raw_page_shape_of data p H) as (H1 & H2 & H3).
  destruct (tuple_headers p !! 0) as [th|] eqn:Eh; [|apply lookup_ge_None_1 in Eh; lia].
  destruct (tuples p !! 0) as [t|] eqn:Et; [|apply lookup_ge_None_1 in Et; lia].
  apply (to_raw_page_panics_gen p 0 th t Eh Et).
  destruct (H3 0 th t Eh Et) as [Hl _]. lia.
Qed.

Lemma from_raw_page_header own fsp cnt rest :
  (0 <= own < 4294967296)%Z -> (0 <= fsp < 65536)%Z -> (0 <= cnt < 65536)%Z ->
  from_raw_page (BPT.encode_uint 4 own ++ BPT.encode_uint 2 fsp ++ BPT.encode_uint 2 cnt ++ rest) =
  r ← read_tuples (BPT.encode_uint 4 own ++ BPT.encode_uint 2 fsp ++ BPT.encode_uint 2 cnt ++ rest)
                  own 8 0 (Z.to_nat cnt);
  Some (Some (mkTP own fsp cnt r.1 r.2)).
Proof.
  intros Ho Hf Hc. unfold from_raw_page.
  rewrite (slice_prefix _ _ 4) by (rewrite length_encode_uint; done).
  rewrite (slice_app_r _ _ 4 6) by (rewrite ?length_encode_uint; lia).
  rewrite (slice_app_r _ _ 6 8) by (rewrite ?length_encode_uint; lia).
  rewrite length_encode_uint. cbn [Nat.sub].
  rewrite (slice_prefix _ _ 2) by (rewrite length_encode_uint; done).
  rewrite (slice_app_r _ _ 2 4) by (rewrite ?length_encode_uint; lia).
  rewrite length_encode_uint. cbn [Nat.sub].
  rewrite (slice_prefix _ _ 2) by (rewrite length_encode_uint; done).
  cbn [mbind option_bind].
  rewrite !decode_uint_exact by (apply length_encode_uint).
  rewrite !decode_encode_uint by (simpl; lia). reflexivity.
Qed.

(** A table page without tuples and with its header fields in range is
    encoded by [to_raw_page] into 4096 bytes that [from_raw_page] decodes
    back to the same page. *)
Theorem empty_table_page_round_trip own fsp :
  (0 <= own < 4294967296)%Z -> (0 <= fsp < 65536)%Z ->
  exists raw, to_raw_page (mkTP own fsp 0 [] []) = Some raw /\ length raw = BPT.PAGE_SIZE /\
    from_raw_page raw = Some (Some (mkTP own fsp 0 [] [])).
Proof.
  intros Ho Hf. rewrite to_raw_page_header. cbn [write_tuples tuple_headers tuples own_pid free_space_pointer tuple_count].
  eexists. split; [reflexivity|].
  split; [rewrite !length_app, !length_encode_uint, length_replicate; done|].
  rewrite from_raw_page_header by lia. reflexivity.
Qed.

(** [TablePage::from_raw_page]: a decoded page has [tuple_count] slot
    headers and tuples; every tuple holds exactly [tuple_size] bytes and
    carries the rid [(own_pid, slot)]. *)
Theorem from_raw_page_shape data p :
  from_raw_page data = Some (Some p) ->
  length (tuple_headers p) = Z.to_nat (tuple_count p) /\
  length (tuples p) = Z.to_nat (tuple_count p) /\
  forall j th t, tuple_headers p !! j = Some th -> tuples p !! j = Some t ->
    length (tdata t) = Z.to_nat (tuple_size th) /\ own_rid t = mkRid (own_pid p) (Z.of_nat j).
Proof. exact (from_raw_page_shape_of data p). Qed.

(** After a successful [TablePage::insert], [to_raw_page] panics: the new
    header records the bare data length as [tuple_size], too small for
    the length-prefixed encoding of the tuple. *)
Theorem insert_then_to_raw_page_panics p d rid p1 :
  length (tuples p) = length (tuple_headers p) ->
  insert p d = Some (Some rid, p1) ->
  to_raw_page p1 = None.
Proof.
  intros Hl Hi. unfold insert in Hi.
  destruct (u16_checked (free_space_pointer p - _)) as [fsp|] eqn:E1; simpl in Hi; [|done].
  destruct (u16_checked (tuple_count p + 1)) as [c1|] eqn:E2; simpl in Hi; [|done].
  destruct (u16_checked (c1 * _)) as [lhs|]; simpl in Hi; [|done].
  destruct (fsp <=? lhs)%Z; [done|].
  destruct (u16_checked (tuple_count p + 1)); simpl in Hi; [|done].
  injection Hi as <- <-.
  apply (to_raw_page_panics_gen _ (length (tuple_headers p)) (mkTH fsp (Z.of_nat (length d) mod 65536) false)
          (mkTuple d (mkRid (own_pid p) (Z.of_nat (length (tuple_headers p)))))); simpl.
  - by rewrite list_lookup_middle.
  - by rewrite list_lookup_middle.
  - pose proof (Z.mod_le (Z.of_nat (length d)) 65536). lia.
Qed.

(** On a page whose header and tuple vectors both have [tuple_count]
    entries, the tuple added by a successful [insert] is returned by
    [remove] at the slot of the returned rid. *)
Theorem insert_then_remove p d rid p1 :
  (0 <= tuple_count p)%Z ->
  length (tuple_headers p) = Z.to_nat (tuple_count p) ->
  length (tuples p) = length (tuple_headers p) ->
  insert p d = Some (Some rid, p1) ->
  exists p2, remove p1 (Z.to_nat (slot_id rid)) = Some (Some (mkTuple d rid), p2).
Proof.
  intros H0 Hc Hl Hi. unfold insert in Hi.
  destruct (u16_checked (free_space_pointer p - _)) as [fsp|] eqn:E1; simpl in Hi; [|done].
  destruct (u16_checked (tuple_count p + 1)) as [c1|] eqn:E2; simpl in Hi; [|done].
  destruct (u16_checked (c1 * _)) as [lhs|]; simpl in Hi; [|done].
  destruct (fsp <=? lhs)%Z; [done|].
  destruct (u16_checked (tuple_count p + 1)) as [cnt|] eqn:E3; simpl in Hi; [|done].
  injection Hi as <- <-. simpl. rewrite Nat2Z.id.
  unfold u16_checked in E3. destruct (_ && _) eqn:Hb in E3; [|done]. injection E3 as <-.
  assert (Hc2 : Z.of_nat (length (tuple_headers p)) = tuple_count p) by (rewrite Hc; apply Z2Nat.id; lia).
  simplify_eq. unfold remove. simpl. rewrite (proj2 (Z.leb_gt _ _)) by lia.
  rewrite list_lookup_middle by done. simpl.
  unfold vec_set. rewrite decide_True by (rewrite length_app; simpl; lia). simpl.
  rewrite list_lookup_middle by done. simpl.
  rewrite decide_True by (rewrite length_app; simpl; lia). simpl.
  eexists. reflexivity.
Qed.

(** [TablePage::remove] of a live slot below [tuple_count] returns its
    tuple, marks the header free, replaces the tuple by an empty one with
    the rid [(own_pid, slot)], leaves the other slots unchanged, and a
    second [remove] of the slot returns nothing and changes nothing. *)
Theorem remove_live_slot p s th t :
  (Z.of_nat s < tuple_count p)%Z ->
  tuple_headers p !! s = Some th -> free th = false ->
  tuples p !! s = Some t ->
  exists p', remove p s = Some (Some t, p') /\
    tuple_headers p' !! s = Some (mkTH (tuple_offset th) (tuple_size th) true) /\
    tuples p' !! s = Some (mkTuple [] (mkRid (own_pid p) (Z.of_nat s mod 4294967296))) /\
    (forall j, j <> s -> tuple_headers p' !! j = tuple_headers p !! j /\
                         tuples p' !! j = tuples p !! j) /\
    remove p' s = Some (None, p').
Proof.
  intros Hs Hh Hf Ht. unfold remove. rewrite (proj2 (Z.leb_gt _ _)) by lia.
  rewrite Hh. simpl. rewrite Hf. unfold vec_set.
  pose proof (lookup_lt_Some _ _ _ Hh). pose proof (lookup_lt_Some _ _ _ Ht).
  rewrite decide_True by lia. simpl. rewrite Ht. simpl.
  rewrite decide_True by lia. simpl.
  eexists. split; [reflexivity|]. simpl.
  split; [apply list_lookup_insert_eq; lia|].
  split; [apply list_lookup_insert_eq; lia|].
  split; [intros j Hj; rewrite !list_lookup_insert_ne by lia; done|].
  rewrite (proj2 (Z.leb_gt _ _)) by (simpl; lia). simpl.
  rewrite (list_lookup_insert_eq (tuple_headers p)) by lia. reflexivity.
Qed.

(** [TablePage::remove] of a slot past the end of the header vector
    panics, also when the slot is at or above [tuple_count]: the early
    return prints [tuple_headers[slot_id].free]. *)
Theorem remove_past_headers_panics p s :
  length (tuple_headers p) <= s -> remove p s = None.
Proof.
  intros H. unfold remove. rewrite (lookup_ge_None_2 _ _ H).
  by destruct (_ <=? _)%Z.
Qed.

Lemma insert_then_to_raw_page_panics_witness :
  length (tuples (mkTP 0 4096 0 [] [])) = length (tuple_headers (mkTP 0 4096 0 [] [])) /\
  exists rid p1, insert (mkTP 0 4096 0 [] []) [1; 2; 3]%Z = Some (Some rid, p1) /\
    to_raw_page p1 = None.
Proof.
  split; [reflexivity|]. do 2 eexists. split; [vm_compute; reflexivity|].
  eapply (insert_then_to_raw_page_panics (mkTP 0 4096 0 [] []) [1; 2; 3]%Z); [reflexivity|].
  vm_compute. reflexivity.
Defined.

Lemma insert_then_remove_witness :
  exists rid p1, insert (mkTP 0 4096 0 [] []) [1; 2; 3]%Z = Some (Some rid, p1) /\
    exists p2, remove p1 (Z.to_nat (slot_id rid)) = Some (Some (mkTuple [1; 2; 3]%Z rid), p2).
Proof.
  do 2 eexists. split; [vm_compute; reflexivity|].
  apply (insert_then_remove (mkTP 0 4096 0 [] []) [1; 2; 3]%Z).
  - simpl. lia.
  - reflexivity.
  - reflexivity.
  - vm_compute. reflexivity.
Defined.

Lemma remove_live_slot_witness :
  let p := mkTP 0 4000 1 [mkTH 4000 11 false] [mkTuple [7]%Z (mkRid 0 0)] in
  (Z.of_nat 0 < tuple_count p)%Z /\
  exists p', remove p 0 = Some (Some (mkTuple [7]%Z (mkRid 0 0)), p') /\
    tuple_headers p' !! 0 = Some (mkTH 4000 11 true) /\
    tuples p' !! 0 = Some (mkTuple [] (mkRid 0 (Z.of_nat 0 mod 4294967296))) /\
    (forall j, j <> 0 -> tuple_headers p' !! j = tuple_headers p !! j /\
                         tuples p' !! j = tuples p !! j) /\
    remove p' 0 = Some (None, p').
Proof.
  intros p. split; [simpl; lia|].
  apply (remove_live_slot p 0 (mkTH 4000 11 false)); [simpl; lia|reflexivity|reflexivity|reflexivity].
Defined.

Lemma remove_past_headers_panics_witness :
  length (tuple_headers (mkTP 0 4000 5 [] [])) <= 2 /\ remove (mkTP 0 4000 5 [] []) 2 = None.
Proof.
  split; [simpl; lia|]. apply remove_past_headers_panics. simpl. lia.
Defined.

Lemma from_raw_page_shape_witness :
  exists p, from_raw_page table_page_bytes_one_tuple = Some (Some p) /\
  length (tuple_headers p) = Z.to_nat (tuple_count p) /\
  length (tuples p) = Z.to_nat (tuple_count p) /\
  forall j th t, tuple_headers p !! j = Some th -> tuples p !! j = Some t ->
    length (tdata t) = Z.to_nat (tuple_size th) /\ own_rid t = mkRid (own_pid p) (Z.of_nat j).
Proof.
  eexists. split; [vm_compute; reflexivity|].
  apply (from_raw_page_shape table_page_bytes_one_tuple). vm_compute. reflexivity.
Defined.

Lemma from_raw_page_then_to_raw_page_panics_witness :
  exists p, from_raw_page table_page_bytes_one_tuple = Some (Some p) /\
    (0 < tuple_count p)%Z /\ to_raw_page p = None.
Proof.
  eexists. split; [vm_compute; reflexivity|]. split; [vm_compute; reflexivity|].
  apply (from_raw_page_then_to_raw_page_panics table_page_bytes_one_tuple).
  - vm_compute. reflexivity.
  - vm_compute. reflexivity.
Defined.

Lemma empty_table_page_round_trip_witness :
  (0 <= 3 < 4294967296)%Z /\ (0 <= 4096 < 65536)%Z /\
  exists raw, to_raw_page (mkTP 3 4096 0 [] []) = Some raw /\ length raw = BPT.PAGE_SIZE /\
    from_raw_page raw = Some (Some (mkTP 3 4096 0 [] [])).
Proof.
  split; [lia|]. split; [lia|]. apply empty_table_page_round_trip; lia.
Defined.
End TablePageCodecProofs.


(** *** [table/table_directory_page.rs] *)

Section TableDirectoryProofs.
Import TD.

Import TD.

Lemma length_encode_entry e : length (encode_entry e) = 5.
Proof. unfold encode_entry. by rewrite length_app, !length_encode_uint. Qed.

Lemma decode_entries_encode : forall es rest,
  Forall (fun e => (0 <= capacity e < 256)%Z /\ (0 <= de_page_id e < 4294967296)%Z) es ->
  decode_entries (concat (map encode_entry es) ++ rest) (length es) = Some es.
Proof.
  induction es as [|e es IH]; intros rest Hf; [done|].
  inversion Hf as [|? ? [Hc Hp] Hf']; subst.
  cbn [length map concat decode_entries]. rewrite <- app_assoc.
  change (encode_entry e) with (BPT.encode_uint 1 (capacity e) ++ BPT.encode_uint 4 (de_page_id e)).
  rewrite <- app_assoc.
  rewrite decode_uint_app by apply length_encode_uint.
  rewrite (drop_app_length' _ _ 1) by (by rewrite length_encode_uint).
  rewrite decode_uint_app by apply length_encode_uint.
  rewrite app_assoc, (drop_app_length' _ _ 5) by (rewrite length_app, !length_encode_uint; done).
  rewrite !decode_encode_uint by (simpl; lia). cbn [mbind option_bind].
  rewrite IH by done. destruct e; done.
Qed.

Lemma decode_entries_bytes : forall n bs es, BPT.byte_range bs ->
  decode_entries bs n = Some es ->
  length es = n /\ concat (map encode_entry es) = take (5 * n) bs.
Proof.
  induction n as [|n IH]; intros bs es Hr H; simpl in H.
  - injection H as <-. done.
  - destruct (BPT.decode_uint 1 bs) as [c|] eqn:E1; simpl in H; [|done].
    destruct (BPT.decode_uint 4 (drop 1 bs)) as [pid|] eqn:E2; simpl in H; [|done].
    destruct (decode_entries (drop 5 bs) n) as [r|] eqn:E3; simpl in H; [|done].
    injection H as <-.
    destruct (IH _ _ (Forall_drop _ _ _ Hr) E3) as [Hl Hc].
    split; [simpl; lia|]. cbn [map concat].
    change (encode_entry (mkDE c pid)) with (BPT.encode_uint 1 c ++ BPT.encode_uint 4 pid).
    rewrite (decode_uint_encode 1 bs c Hr E1).
    rewrite (decode_uint_encode 4 (drop 1 bs) pid (Forall_drop _ _ _ Hr) E2).
    rewrite Hc, take_take_drop. simpl (1 + 4). rewrite take_take_drop.
    f_equal. lia.
Qed.

Lemma length_concat_entries es : length (concat (map encode_entry es)) = 5 * length es.
Proof. induction es as [|e es IH]; [done|]. cbn [map concat length]. rewrite length_app, length_encode_entry, IH. lia. Qed.

Lemma length_encode p : length (encode p) = 16 + 5 * length (entries p).
Proof. unfold encode. rewrite !length_app, !length_encode_uint, length_concat_entries. lia. Qed.

Lemma write_at_whole (enc : BPT.bytes) : length enc = BPT.PAGE_SIZE ->
  BPT.write_at (replicate BPT.PAGE_SIZE 0%Z) 0 enc = enc.
Proof.
  intros H. unfold BPT.write_at. rewrite take_0, drop_ge by (rewrite length_replicate; lia).
  by rewrite app_nil_l, app_nil_r.
Qed.

Lemma drop_app_encode n w x (l : BPT.bytes) : w <= n -> drop n (BPT.encode_uint w x ++ l) = drop (n - w) l.
Proof. intros H. rewrite drop_app_ge; rewrite length_encode_uint; done. Qed.

(** [TableDirectoryPage]: a page with [ENTRY_COUNT] entries and every
    field in the range of its integer type is encoded by [to_raw_page]
    into 4096 bytes that [from_raw_page] decodes back to the same page. *)
Theorem table_directory_round_trip p :
  length (entries p) = ENTRY_COUNT ->
  (0 <= own_pid p < 4294967296)%Z -> (0 <= lsn p < 4294967296)%Z ->
  (0 <= prev_directory p < 4294967296)%Z -> (0 <= next_directory p < 4294967296)%Z ->
  Forall (fun e => (0 <= capacity e < 256)%Z /\ (0 <= de_page_id e < 4294967296)%Z) (entries p) ->
  exists raw, to_raw_page p = Some raw /\ length raw = BPT.PAGE_SIZE /\ from_raw_page raw = Some p.
Proof.
  intros Hl H1 H2 H3 H4 He.
  assert (Hlen : length (encode p) = BPT.PAGE_SIZE) by (rewrite length_encode, Hl; done).
  unfold to_raw_page. rewrite decide_True by lia. rewrite write_at_whole by done.
  eexists. split; [reflexivity|]. split; [done|].
  unfold from_raw_page, encode.
  repeat (rewrite ?drop_0; rewrite drop_app_encode by lia; cbn [Nat.sub]).
  rewrite ?drop_0.
  rewrite !decode_uint_app by apply length_encode_uint.
  rewrite !decode_encode_uint by (simpl; lia). cbn [mbind option_bind].
  rewrite <- (app_nil_r (concat _)), <- Hl, decode_entries_encode by done.
  destruct p; reflexivity.
Qed.

(** [TableDirectoryPage]: encoding the page that [from_raw_page] decodes
    from a 4096-byte page gives back exactly those bytes. *)
Theorem table_directory_decode_encode raw p :
  length raw = BPT.PAGE_SIZE -> BPT.byte_range raw ->
  from_raw_page raw = Some p -> to_raw_page p = Some raw.
Proof.
  intros Hl Hr H. unfold from_raw_page in H.
  destruct (BPT.decode_uint 4 raw) as [o|] eqn:E1; cbn [mbind option_bind] in H; [|done].
  destruct (BPT.decode_uint 4 (drop 4 raw)) as [l|] eqn:E2; cbn [mbind option_bind] in H; [|done].
  destruct (BPT.decode_uint 4 (drop 8 raw)) as [pv|] eqn:E3; cbn [mbind option_bind] in H; [|done].
  destruct (BPT.decode_uint 4 (drop 12 raw)) as [nx|] eqn:E4; cbn [mbind option_bind] in H; [|done].
  destruct (decode_entries (drop 16 raw) ENTRY_COUNT) as [es|] eqn:E5; cbn [mbind option_bind] in H; [|done].
  injection H as <-.
  destruct (decode_entries_bytes _ _ _ (Forall_drop _ _ _ Hr) E5) as [Hes Hc].
  assert (Henc : encode (mkTD o l pv nx es) = raw).
  { unfold encode. cbn [own_pid lsn prev_directory next_directory entries].
    rewrite (decode_uint_encode 4 raw o Hr E1).
    rewrite (decode_uint_encode 4 _ l (Forall_drop _ _ _ Hr) E2).
    rewrite (decode_uint_encode 4 _ pv (Forall_drop _ _ _ Hr) E3).
    rewrite (decode_uint_encode 4 _ nx (Forall_drop _ _ _ Hr) E4).
    rewrite Hc. change (5 * ENTRY_COUNT) with 4080.
    rewrite !app_assoc.
    do 4 (rewrite take_take_drop; cbn [Nat.add]).
    apply take_ge. rewrite Hl. done. }
  unfold to_raw_page. rewrite Henc, decide_True by lia. rewrite write_at_whole by done. done.
Qed.

Lemma table_directory_round_trip_witness :
  let p := mkTD 1 2 3 4 (replicate ENTRY_COUNT (mkDE 5 6)) in
  length (entries p) = ENTRY_COUNT /\
  exists raw, to_raw_page p = Some raw /\ length raw = BPT.PAGE_SIZE /\ from_raw_page raw = Some p.
Proof.
  intros p. split; [apply length_replicate|].
  apply table_directory_round_trip.
  - apply length_replicate.
  - simpl; lia.
  - simpl; lia.
  - simpl; lia.
  - simpl; lia.
  - apply Forall_replicate. simpl; lia.
Defined.

Lemma table_directory_decode_encode_witness :
  exists p, from_raw_page (replicate BPT.PAGE_SIZE 0%Z) = Some p /\
    to_raw_page p = Some (replicate BPT.PAGE_SIZE 0%Z).
Proof.
  eexists. split; [vm_compute; reflexivity|].
  apply table_directory_decode_encode.
  - apply length_replicate.
  - apply Forall_replicate. lia.
  - vm_compute. reflexivity.
Defined.
End TableDirectoryProofs.


(** *** [extendible_hashing/hash_directory_page.rs] *)

Section DirectoryCodecProofs.
Import EH.

Import EH.

Lemma decode_u32s_encode : forall (xs : list Z) rest,
  Forall (fun x => (0 <= x < 4294967296)%Z) xs ->
  decode_u32s (concat (map (BPT.encode_uint 4) xs) ++ rest) (length xs) = Some xs.
Proof.
  induction xs as [|x xs IH]; intros rest Hf; [done|].
  inversion Hf; subst. cbn [length map concat decode_u32s].
  rewrite <- app_assoc, decode_uint_app by apply length_encode_uint.
  rewrite (drop_app_length' _ _ 4) by (by rewrite length_encode_uint).
  rewrite decode_encode_uint by (simpl; lia). cbn [mbind option_bind].
  rewrite IH by done. done.
Qed.

Lemma decode_u32s_encode_exact (xs : list Z) :
  Forall (fun x => (0 <= x < 4294967296)%Z) xs ->
  decode_u32s (concat (map (BPT.encode_uint 4) xs)) (length xs) = Some xs.
Proof. intros H. rewrite <- (app_nil_r (concat _)). by apply decode_u32s_encode. Qed.

Lemma length_concat_u32s (xs : list Z) : length (concat (map (BPT.encode_uint 4) xs)) = 4 * length xs.
Proof.
  induction xs as [|x xs IH]; [done|]. cbn [map concat length].
  rewrite length_app, length_encode_uint, IH. lia.
Qed.

Lemma nth_map_seq (f : nat -> Z) n i : i < n -> nth i (map f (seq 0 n)) 0%Z = f i.
Proof.
  intros H. rewrite (nth_indep _ _ (f 0)) by (rewrite length_map, length_seq; done).
  rewrite map_nth, seq_nth by done. done.
Qed.

Ltac skip_prefix a b :=
  rewrite (slice_app_r _ _ a b) by (rewrite ?length_encode_uint; cbn [length]; lia);
  rewrite ?length_encode_uint, ?length_map, ?length_seq; cbn [Nat.sub length].

Lemma dir_from_layout (pid log gd : Z) (ld bps rest : list Z) :
  length ld = 512 -> length bps = 512 ->
  (0 <= pid < 4294967296)%Z -> (0 <= log < 4294967296)%Z ->
  Forall (fun x => (0 <= x < 4294967296)%Z) bps ->
  dir_from_raw_page (BPT.encode_uint 4 pid ++ BPT.encode_uint 4 log ++ [gd] ++ ld ++
                     concat (map (BPT.encode_uint 4) bps) ++ rest) =
  Some (mkDir (Z.to_N pid) (Z.to_N log) (Z.to_N gd)
              (fun i => Z.to_N (nth i ld 0%Z)) (fun i => Z.to_N (nth i bps 0%Z))).
Proof.
  intros HLD HBL Hp Hl Hb.
  assert (HBL' : length (concat (map (BPT.encode_uint 4) bps)) = 2048)
    by (rewrite length_concat_u32s, HBL; done).
  unfold dir_from_raw_page.
  rewrite (slice_prefix _ _ 4) by (rewrite length_encode_uint; done).
  skip_prefix 4 8.
  rewrite (slice_prefix _ _ 4) by (rewrite length_encode_uint; done).
  rewrite lookup_app_r by (rewrite length_encode_uint; lia). rewrite length_encode_uint. cbn [Nat.sub].
  rewrite lookup_app_r by (rewrite length_encode_uint; lia). rewrite length_encode_uint. cbn [Nat.sub].
  skip_prefix 9 521. skip_prefix 5 517. skip_prefix 1 513.
  rewrite (slice_prefix _ _ 512) by done.
  skip_prefix 521 2569. skip_prefix 517 2565. skip_prefix 513 2561.
  rewrite (slice_app_r _ _ 512 2560) by (rewrite ?HLD; lia). rewrite HLD. cbn [Nat.sub].
  rewrite (slice_prefix _ _ 2048) by done.
  cbn [app lookup list_lookup mbind option_bind].
  rewrite !decode_uint_exact by apply length_encode_uint.
  rewrite !decode_encode_uint by (simpl; lia). cbn [mbind option_bind].
  replace DIR_SIZE with (length bps) by done.
  rewrite decode_u32s_encode_exact by done. reflexivity.
Qed.

(** [HashDirectoryPage]: with every field in the range of its integer type,
    [to_raw_page] gives 4096 bytes from which [from_raw_page] reads back
    the page id, the log id, the global depth and the 512 local depths and
    bucket page ids. *)
Theorem dir_page_round_trip d :
  (dir_page_id d < 4294967296)%N -> (log_id d < 4294967296)%N -> (global_depth d < 256)%N ->
  (forall i, i < DIR_SIZE -> (local_depths d i < 256)%N /\ (bucket_page_ids d i < 4294967296)%N) ->
  exists raw, dir_to_raw_page d = Some raw /\ length raw = BPT.PAGE_SIZE /\
  exists d', dir_from_raw_page raw = Some d' /\
    dir_page_id d' = dir_page_id d /\ log_id d' = log_id d /\ global_depth d' = global_depth d /\
    forall i, i < DIR_SIZE ->
      local_depths d' i = local_depths d i /\ bucket_page_ids d' i = bucket_page_ids d i.
Proof.
  intros Hp Hl Hg Hi.
  set (LD := map (fun i => Z.of_N (local_depths d i)) (seq 0 DIR_SIZE)).
  set (BPS := map (fun i => Z.of_N (bucket_page_ids d i)) (seq 0 DIR_SIZE)).
  assert (HB : concat (map (fun i => BPT.encode_uint 4 (Z.of_N (bucket_page_ids d i))) (seq 0 DIR_SIZE))
               = concat (map (BPT.encode_uint 4) BPS)) by (unfold BPS; rewrite map_map; done).
  assert (HLD : length LD = 512) by (unfold LD; rewrite length_map, length_seq; done).
  assert (HBS : length BPS = 512) by (unfold BPS; rewrite length_map, length_seq; done).
  assert (HBL : length (concat (map (BPT.encode_uint 4) BPS)) = 2048)
    by (rewrite length_concat_u32s, HBS; done).
  assert (HF : Forall (fun x => (0 <= x < 4294967296)%Z) BPS).
  { unfold BPS. apply Forall_forall. intros x Hx. apply list_elem_of_In, in_map_iff in Hx as (i & <- & Hx).
    apply in_seq in Hx. destruct (Hi i ltac:(lia)). lia. }

  unfold dir_to_raw_page. fold LD. rewrite HB.
  rewrite decide_True by (rewrite !length_app, !length_encode_uint, HLD, HBL; unfold BPT.PAGE_SIZE; simpl; lia).
  eexists. split; [reflexivity|].
  split; [rewrite !length_app, length_replicate, !length_encode_uint, HLD, HBL; unfold BPT.PAGE_SIZE; simpl; lia|].
  rewrite <- !app_assoc, dir_from_layout by (try done; lia).
  eexists. split; [reflexivity|]. cbn [dir_page_id log_id global_depth local_depths bucket_page_ids].
  rewrite !N2Z.id. split; [done|]. split; [done|]. split; [done|].
  intros i Hlt. unfold LD, BPS. rewrite !nth_map_seq by done. rewrite !N2Z.id. done.
Qed.

Lemma dir_page_round_trip_witness :
  let d := new_empty 0 1 2 0 in
  (forall i, i < DIR_SIZE -> (local_depths d i < 256)%N /\ (bucket_page_ids d i < 4294967296)%N) /\
  exists raw, dir_to_raw_page d = Some raw /\ length raw = BPT.PAGE_SIZE /\
  exists d', dir_from_raw_page raw = Some d' /\
    dir_page_id d' = dir_page_id d /\ log_id d' = log_id d /\ global_depth d' = global_depth d /\
    forall i, i < DIR_SIZE ->
      local_depths d' i = local_depths d i /\ bucket_page_ids d' i = bucket_page_ids d i.
Proof.
  intros d.
  assert (H : forall i, i < DIR_SIZE ->
                (local_depths d i < 256)%N /\ (bucket_page_ids d i < 4294967296)%N).
  { intros i _. simpl. destruct (Nat.eqb i 0); [lia|]. destruct (Nat.eqb i 1); lia. }
  split; [exact H|]. apply dir_page_round_trip; [simpl; lia|simpl; lia|simpl; lia|exact H].
Defined.
End DirectoryCodecProofs.


(** *** [extendible_hashing/hash_bucket_page.rs] *)

Section BucketCodecProofs.
Import EH.

Import EH.


Lemma lookup_map_nth {A B} (f : A -> B) (l : list A) d i :
  i < length l -> map f l !! i = Some (f (nth i l d)).
Proof. revert i. induction l as [|x l IH]; intros [|i] H; simpl in *; try lia; auto. apply IH. lia. Qed.

Lemma map_nth_seq_id {A} (l : list A) d : map (fun i => nth i l d) (seq 0 (length l)) = l.
Proof.
  induction l as [|x l IH]; [done|]. simpl. f_equal.
  rewrite <- seq_shift, map_map. exact IH.
Qed.

Lemma length_kv_bytes kv : length (kv_bytes kv) = 8.
Proof. unfold kv_bytes. by rewrite length_app, !length_encode_uint. Qed.

Lemma slice_concat_kv : forall (l : list (N * N)) i,
  i < length l -> BPT.slice (concat (map kv_bytes l)) (8 * i) (8 * i + 8) = Some (kv_bytes (nth i l (0%N, 0%N))).
Proof.
  induction l as [|x l IH]; intros i H; simpl in H; [lia|].
  cbn [map concat]. destruct i as [|i].
  - simpl (8 * 0 + 8). rewrite (slice_prefix _ _ 8) by (by rewrite length_kv_bytes). done.
  - rewrite slice_app_r by (rewrite ?length_kv_bytes; lia). rewrite length_kv_bytes.
    replace (8 * S i - 8) with (8 * i) by lia. replace (8 * S i + 8 - 8) with (8 * i + 8) by lia.
    apply IH. lia.
Qed.

Lemma read_bucket_ok data n (rs os : list bool) (kvs : list (N * N)) : forall is,
  (forall i, In i is ->
     data !! i = Some (bool_byte (nth i rs false)) /\
     data !! (i + n) = Some (bool_byte (nth i os false)) /\
     BPT.slice data (8 * i + n * 2) (8 * i + n * 2 + 8) = Some (kv_bytes (nth i kvs (0%N, 0%N))) /\
     (Z.of_N (fst (nth i kvs (0%N, 0%N))) < 4294967296)%Z /\
     (Z.of_N (snd (nth i kvs (0%N, 0%N))) < 4294967296)%Z) ->
  read_bucket data n is =
  Some (map (fun i => nth i rs false) is, map (fun i => nth i os false) is,
        map (fun i => nth i kvs (0%N, 0%N)) is).
Proof.
  induction is as [|i is IH]; intros H; [done|].
  destruct (H i (or_introl eq_refl)) as (H1 & H2 & H3 & H4 & H5).
  cbn [read_bucket]. rewrite H1, H2. cbn [mbind option_bind].
  rewrite H3. cbn [mbind option_bind]. unfold kv_bytes.
  rewrite decode_uint_app by apply length_encode_uint.
  rewrite (drop_app_length' _ _ 4) by (by rewrite length_encode_uint).
  rewrite decode_uint_exact by apply length_encode_uint.
  rewrite !decode_encode_uint by (simpl; lia). cbn [mbind option_bind].
  rewrite IH by (intros j Hj; apply H; right; done). cbn [map].
  rewrite !N2Z.id. destruct (nth i kvs _). destruct (nth i rs false), (nth i os false); done.
Qed.

(** [HashBucketPage<u32, u32>]: a bucket with 409 entries in each of its
    three vectors is encoded by [to_raw_page] into 4096 bytes that
    [from_raw_page] decodes back to the same bucket. *)
Theorem bucket_page_round_trip (b : HashBucketPage u32_index) :
  length (readable b) = 409 -> length (has_been_occupied b) = 409 ->
  length (key_values b) = 409 ->
  Forall (fun kv : N * N => (fst kv < 4294967296)%N /\ (snd kv < 4294967296)%N) (key_values b) ->
  exists raw, bucket_to_raw_page b = Some raw /\ length raw = BPT.PAGE_SIZE /\
    bucket_from_raw_page raw = Some b.
Proof.
  intros HR HO HK HF. destruct b as [rs os kvs]. cbn [readable has_been_occupied key_values] in *.
  unfold bucket_to_raw_page. cbn [readable has_been_occupied key_values].
  change (map (fun kv : N * N => BPT.encode_uint 4 (Z.of_N kv.1) ++ BPT.encode_uint 4 (Z.of_N kv.2)) kvs)
    with (map kv_bytes kvs).
  assert (HL : length (concat (map kv_bytes kvs)) = 8 * length kvs).
  { clear. induction kvs as [|kv kvs IH]; [done|]. cbn [map concat length].
    rewrite length_app, length_kv_bytes, IH. lia. }
  rewrite decide_True by (rewrite !length_app, !length_map, HL, HR, HO, HK; unfold BPT.PAGE_SIZE; lia).
  eexists. split; [reflexivity|].
  split; [rewrite !length_app, length_replicate, !length_map, HL, HR, HO, HK; unfold BPT.PAGE_SIZE; lia|].
  unfold bucket_from_raw_page. change (BPT.PAGE_SIZE / (1 + 1 + 4 + 4)) with 409.
  rewrite (read_bucket_ok _ 409 rs os kvs).
  - cbn [mbind option_bind].
    rewrite <- HR at 1. rewrite map_nth_seq_id. rewrite <- HO at 1. rewrite map_nth_seq_id. 
    rewrite <- HK at 1. rewrite map_nth_seq_id. reflexivity.
  - intros i Hi. apply in_seq in Hi. rewrite <- !app_assoc.
    split; [|split; [|split]].
    + rewrite lookup_app_l by (rewrite length_map; lia).
      apply lookup_map_nth. lia.
    + rewrite lookup_app_r by (rewrite length_map; lia). rewrite length_map, HR.
      rewrite lookup_app_l by (rewrite length_map; lia).
      replace (i + 409 - 409) with i by lia. apply lookup_map_nth. lia.
    + rewrite slice_app_r by (rewrite ?length_map, ?HR, ?HO; lia). rewrite length_map, HR.
      rewrite slice_app_r by (rewrite ?length_map, ?HR, ?HO; lia). rewrite length_map, HO.
      replace (8 * i + 409 * 2 - 409 - 409) with (8 * i) by lia.
      replace (8 * i + 409 * 2 + 8 - 409 - 409) with (8 * i + 8) by lia.
      rewrite slice_app_l by (rewrite ?HL, ?HK; lia). apply slice_concat_kv. cbn [Key Value u32_index] in HK |- *. lia.
    + assert (Hin : In (nth i kvs (0%N, 0%N)) kvs) by (apply nth_In; lia).
      rewrite List.Forall_forall in HF. destruct (HF _ Hin) as [Ha Hb].
      split; apply (N2Z.inj_lt _ 4294967296); assumption.
Qed.

Lemma bucket_page_round_trip_witness :
  length (readable (empty_bucket u32_index)) = 409 /\
  exists raw, bucket_to_raw_page (empty_bucket u32_index) = Some raw /\
    length raw = BPT.PAGE_SIZE /\ bucket_from_raw_page raw = Some (empty_bucket u32_index).
Proof.
  split; [apply length_replicate|].
  apply bucket_page_round_trip.
  - apply length_replicate.
  - apply length_replicate.
  - apply length_replicate.
  - unfold empty_bucket. cbn [key_values]. apply Forall_replicate. simpl. lia.
Defined.
End BucketCodecProofs.


(* ================================================================== *)
(** ** B+ tree leaf pages: insert and remove *)

Section LeafOpsProofs.
Import BPT.

Import BPT.

Lemma keys_sorted_cons x r : keys_sorted (x :: r) = true ->
  Forall (fun y => (x < y)%Z) r /\ keys_sorted r = true.
Proof.
  revert x. induction r as [|y r IH]; intros x H; [done|].
  simpl in H. apply andb_prop in H as [Hxy Hr]. apply Z.ltb_lt in Hxy.
  split; [|done]. destruct (IH y Hr) as [Hf _].
  constructor; [done|]. eapply Forall_impl; [exact Hf|]. simpl; lia.
Qed.

Lemma keys_sorted_split ks k : keys_sorted ks = true ->
  exists A B, ks = A ++ B /\ Forall (fun x => (x < k)%Z) A /\ Forall (fun x => (k <= x)%Z) B.
Proof.
  induction ks as [|x r IH]; intros H.
  - exists [], []. done.
  - destruct (keys_sorted_cons x r H) as [Hf Hr].
    destruct (Z_lt_le_dec x k) as [Hx|Hx].
    + destruct (IH Hr) as (A & B & -> & HA & HB). exists (x :: A), B. repeat constructor; done.
    + exists [], (x :: r). split; [done|]. split; [done|]. constructor; [done|].
      eapply Forall_impl; [exact Hf|]. simpl; lia.
Qed.

Lemma keys_sorted_insert A B k : keys_sorted (A ++ B) = true ->
  Forall (fun x => (x < k)%Z) A -> Forall (fun x => (k < x)%Z) B ->
  keys_sorted (A ++ k :: B) = true.
Proof.
  induction A as [|a A IH]; intros H HA HB; simpl.
  - destruct B as [|b B]; [done|]. inversion HB; subst. simpl in H.
    apply andb_true_intro. split; [by apply Z.ltb_lt|done].
  - inversion HA; subst. destruct A as [|a' A].
    + simpl. apply andb_true_intro. split; [by apply Z.ltb_lt|].
      apply IH; [exact (proj2 (keys_sorted_cons a B H))|done|done].
    + simpl in H |- *. apply andb_prop in H as [Hs1 Hs2].
      apply andb_true_intro. split; [done|]. apply (IH Hs2); done.
Qed.

Lemma search_pos_split A B k : Forall (fun x => (x < k)%Z) A -> Forall (fun x => (k <= x)%Z) B ->
  search_pos (A ++ B) k = length A.
Proof.
  unfold search_pos. intros HA HB. rewrite List.filter_app, length_app.
  assert (E1 : List.filter (fun x => (x <? k)%Z) A = A).
  { induction HA; simpl; [done|]. rewrite (proj2 (Z.ltb_lt _ _)) by done. by f_equal. }
  assert (E2 : List.filter (fun x => (x <? k)%Z) B = []).
  { induction HB; simpl; [done|]. rewrite (proj2 (Z.ltb_ge _ _)) by done. done. }
  rewrite E1, E2. simpl. lia.
Qed.

Lemma find_index_app_lt A B k : Forall (fun x => (x < k)%Z) A ->
  find_index (A ++ B) k = Nat.add (length A) <$> find_index B k.
Proof.
  induction 1 as [|a A Ha HA IH]; simpl.
  - by destruct (find_index B k).
  - rewrite (proj2 (Z.eqb_neq _ _)) by lia. rewrite IH. by destruct (find_index B k).
Qed.

Lemma find_index_gt B k : Forall (fun x => (k < x)%Z) B -> find_index B k = None.
Proof.
  induction 1; simpl; [done|]. rewrite (proj2 (Z.eqb_neq _ _)) by lia. by rewrite IHForall.
Qed.

Lemma get_insert_other : forall (ks : list Z) (rs : list Rid) p k r k',
  k' <> k -> p <= length ks -> length rs = length ks ->
  (i ← find_index (take p ks ++ k :: drop p ks) k'; (take p rs ++ r :: drop p rs) !! i) =
  (i ← find_index ks k'; rs !! i).
Proof.
  induction ks as [|x ks IH]; intros rs p k r k' Hne Hp Hl.
  - destruct rs; [|done]. destruct p; [|simpl in Hp; lia]. simpl.
    rewrite (proj2 (Z.eqb_neq _ _)) by done. done.
  - destruct rs as [|y rs]; [done|]. destruct p as [|p].
    + simpl. rewrite (proj2 (Z.eqb_neq k' k)) by done.
      destruct (Z.eqb k' x); simpl; [done|]. by destruct (find_index ks k').
    + simpl. destruct (Z.eqb k' x); [done|].
      simpl in Hp, Hl. specialize (IH rs p k r k' Hne ltac:(lia) ltac:(lia)).
      destruct (find_index (take p ks ++ k :: drop p ks) k') eqn:E1,
               (find_index ks k') eqn:E2; simpl in *; done.
Qed.

Lemma get_remove_other : forall (ks : list Z) (rs : list Rid) p k',
  ks !! p <> Some k' -> length rs = length ks ->
  (i ← find_index (take p ks ++ drop (S p) ks) k'; (take p rs ++ drop (S p) rs) !! i) =
  (i ← find_index ks k'; rs !! i).
Proof.
  induction ks as [|x ks IH]; intros rs p k' Hne Hl.
  - destruct rs; [|done]. destruct p; done.
  - destruct rs as [|y rs]; [done|]. destruct p as [|p].
    + simpl in *. rewrite (proj2 (Z.eqb_neq k' x)) by congruence.
      rewrite ?drop_0. destruct (find_index ks k'); simpl; done.
    + simpl. destruct (Z.eqb k' x); [done|].
      simpl in Hne, Hl. specialize (IH rs p k' Hne ltac:(lia)).
      destruct (find_index (take p ks ++ drop (S p) ks) k') eqn:E1,
               (find_index ks k') eqn:E2; simpl in *; done.
Qed.

Lemma drop_middle {T} (A B : list T) k : drop (S (length A)) (A ++ k :: B) = B.
Proof. induction A as [|a A IH]; [done|]. exact IH. Qed.

(** [BPlusTreeLeafPage::insert] of a key absent from a leaf with sorted
    keys (not full, as many rids as keys) keeps the keys sorted and the
    header unchanged; [get_rid_of] then finds the new rid for the key and
    the old result for every other key. *)
Theorem leaf_insert_lookup l k r :
  keys_sorted (keys l) = true -> length (rids l) = length (keys l) ->
  l_current_size (lheader l) <> l_max_size (lheader l) ->
  find_index (keys l) k = None ->
  exists pos l', leaf_insert l k r = Some (Some pos, l') /\
    lheader l' = lheader l /\ keys_sorted (keys l') = true /\
    get_rid_of l' k = Some r /\
    forall k', k' <> k -> get_rid_of l' k' = get_rid_of l k'.
Proof.
  intros Hs Hl Hc Hf. destruct l as [h ks rs]. cbn [keys rids lheader] in *.
  destruct (keys_sorted_split ks k Hs) as (A & B & -> & HA & HB).
  assert (HB' : Forall (fun x => (k < x)%Z) B).
  { rewrite find_index_app_lt in Hf by done.
    clear -HB Hf. induction HB as [|b B Hb HB IH]; [done|]. simpl in Hf.
    destruct (Z.eqb_spec k b); [done|]. constructor; [lia|].
    apply IH. by destruct (find_index B k). }
  unfold leaf_insert. cbn [keys rids lheader].
  rewrite (proj2 (Z.eqb_neq _ _)) by done.
  rewrite search_pos_split by done.
  unfold vec_insert. rewrite !decide_True by (rewrite ?length_app in *; lia).
  cbn [mbind option_bind].
  rewrite take_app_length, drop_app_length.
  eexists _, _. split; [reflexivity|]. split; [done|]. split.
  { cbn [keys]. apply keys_sorted_insert; done. }
  split.
  - unfold get_rid_of. cbn [keys rids].
    rewrite find_index_app_lt by done. simpl. rewrite Z.eqb_refl. simpl.
    rewrite Nat.add_0_r. apply list_lookup_middle. rewrite length_take. rewrite length_app in Hl. lia.
  - intros k' Hk'. unfold get_rid_of. cbn [keys rids].
    rewrite <- (take_app_length A B) at 1. rewrite <- (drop_app_length A B) at 2.
    apply get_insert_other; [done|rewrite length_app; lia|done].
Qed.

(** [BPlusTreeLeafPage::remove] of a key present in a leaf with sorted
    keys (as many rids as keys, not at half size) returns the key and its
    rid, leaves the header unchanged, and afterwards the key is absent and
    every other key keeps its rid. *)
Theorem leaf_remove_present l k r :
  keys_sorted (keys l) = true -> length (rids l) = length (keys l) ->
  l_current_size (lheader l) <> Z.div (l_max_size (lheader l)) 2 ->
  get_rid_of l k = Some r ->
  exists l', leaf_remove l k = Some (Some (k, r), l') /\
    lheader l' = lheader l /\ get_rid_of l' k = None /\
    forall k', k' <> k -> get_rid_of l' k' = get_rid_of l k'.
Proof.
  intros Hs Hl Hc Hg. destruct l as [h ks rs]. cbn [keys rids lheader] in *.
  destruct (keys_sorted_split ks k Hs) as (A & B & -> & HA & HB).
  unfold get_rid_of in Hg. cbn [keys rids] in Hg.
  rewrite find_index_app_lt in Hg by done.
  destruct B as [|b B]; [done|].
  assert (Hsb : keys_sorted (b :: B) = true).
  { clear -Hs. induction A as [|a A IH]; [done|]. apply IH. apply (keys_sorted_cons a _ Hs). }
  destruct (keys_sorted_cons b B Hsb) as [HbB _].
  inversion HB as [|? ? Hb HB']; subst.
  destruct (Z.eqb_spec k b) as [<-|Hne].
  2:{ exfalso. simpl in Hg. rewrite (proj2 (Z.eqb_neq _ _)) in Hg by done.
      rewrite find_index_gt in Hg; [done|]. eapply Forall_impl; [exact HbB|]. simpl; lia. }
  simpl in Hg. rewrite Z.eqb_refl in Hg. simpl in Hg. rewrite Nat.add_0_r in Hg.
  unfold leaf_remove. cbn [keys rids lheader].
  rewrite (proj2 (Z.eqb_neq _ _)) by done.
  rewrite search_pos_split by done.
  unfold vec_remove. rewrite list_lookup_middle by done. cbn [mbind option_bind].
  rewrite Hg. cbn [mbind option_bind].
  rewrite take_app_length, drop_middle.
  eexists. split; [reflexivity|]. split; [done|]. split.
  - unfold get_rid_of. cbn [keys rids]. rewrite find_index_app_lt by done.
    rewrite find_index_gt by done. done.
  - intros k' Hk'. unfold get_rid_of. cbn [keys rids].
    pose proof (get_remove_other (A ++ k :: B) rs (length A) k') as G.
    rewrite take_app_length, drop_middle in G.
    apply G; [rewrite list_lookup_middle by done; congruence|done].
Qed.

Lemma keys_sorted_suffix A B : keys_sorted (A ++ B) = true -> keys_sorted B = true.
Proof. induction A as [|a A IH]; [done|]. intros H. apply IH. apply (keys_sorted_cons a _ H). Qed.



(** [BPlusTreeLeafPage::insert] leaves [current_size] unchanged, so an
    insert at a position at or past [current_size] is invisible to
    [to_raw_page]: the encoded page is the one of the leaf before the
    insert. *)
Theorem leaf_insert_past_current_size_lost key_width l k r pos l1 :
  leaf_insert l k r = Some (Some pos, l1) ->
  Z.to_nat (l_current_size (lheader l)) <= pos ->
  leaf_to_raw_page key_width l1 = leaf_to_raw_page key_width l.
Proof.
  intros Hi Hp. destruct l as [h ks rs].
  unfold leaf_insert in Hi. cbn [keys rids lheader] in *.
  destruct (Z.eqb _ _); [done|].
  unfold vec_insert in Hi.
  destruct (decide (search_pos ks k <= length ks)) as [H1|]; [|done].
  destruct (decide (search_pos ks k <= length rs)) as [H2|]; [|done].
  cbn [mbind option_bind] in Hi. injection Hi as <- <-.
  unfold leaf_to_raw_page. cbn [keys rids lheader].
  set (cs := Z.to_nat (l_current_size h)) in *.
  assert (Ek : take cs (take (search_pos ks k) ks ++ k :: drop (search_pos ks k) ks) = take cs ks).
  { rewrite take_app_le by (rewrite length_take; lia). rewrite take_take. f_equal. lia. }
  assert (Er : take cs (take (search_pos ks k) rs ++ r :: drop (search_pos ks k) rs) = take cs rs).
  { rewrite take_app_le by (rewrite length_take; lia). rewrite take_take. f_equal. lia. }
  rewrite Ek, Er.
  rewrite (decide_True (P := cs <= length (take (search_pos ks k) ks ++ k :: drop (search_pos ks k) ks)))
    by (rewrite length_app, length_take; simpl; lia).
  rewrite (decide_True (P := cs <= length ks)) by lia.
  rewrite (decide_True (P := cs <= length (take (search_pos ks k) rs ++ r :: drop (search_pos ks k) rs)))
    by (rewrite length_app, length_take; simpl; lia).
  rewrite (decide_True (P := cs <= length rs)) by lia.
  done.
Qed.

Lemma leaf_insert_lookup_witness :
  let l := mkLeaf (mkLH 0 1 0 2 10 0 0 0) [5; 9]%Z [mkRid 1 1; mkRid 1 2] in
  keys_sorted (keys l) = true /\ find_index (keys l) 7 = None /\
  exists pos l', leaf_insert l 7 (mkRid 1 3) = Some (Some pos, l') /\
    lheader l' = lheader l /\ keys_sorted (keys l') = true /\
    get_rid_of l' 7 = Some (mkRid 1 3) /\
    forall k', k' <> 7%Z -> get_rid_of l' k' = get_rid_of l k'.
Proof.
  intros l. split; [reflexivity|]. split; [reflexivity|].
  apply leaf_insert_lookup; [reflexivity|reflexivity|unfold l; vm_compute; congruence|reflexivity].
Defined.

Lemma leaf_remove_present_witness :
  let l := mkLeaf (mkLH 0 1 0 2 10 0 0 0) [5; 9]%Z [mkRid 1 1; mkRid 1 2] in
  get_rid_of l 9 = Some (mkRid 1 2) /\
  exists l', leaf_remove l 9 = Some (Some (9%Z, mkRid 1 2), l') /\
    lheader l' = lheader l /\ get_rid_of l' 9 = None /\
    forall k', k' <> 9%Z -> get_rid_of l' k' = get_rid_of l k'.
Proof.
  intros l. split; [reflexivity|].
  apply leaf_remove_present; [reflexivity|reflexivity|unfold l; vm_compute; congruence|reflexivity].
Defined.



Lemma leaf_insert_past_current_size_lost_witness :
  let l := mkLeaf (mkLH 0 1 0 1 10 0 0 0) [5]%Z [mkRid 1 1] in
  exists pos l1, leaf_insert l 7 (mkRid 1 3) = Some (Some pos, l1) /\
    Z.to_nat (l_current_size (lheader l)) <= pos /\
    leaf_to_raw_page 4 l1 = leaf_to_raw_page 4 l.
Proof.
  intros l. do 2 eexists. split; [vm_compute; reflexivity|].
  split; [unfold l; simpl; lia|].
  eapply (leaf_insert_past_current_size_lost 4 l 7 (mkRid 1 3));
    [vm_compute; reflexivity|unfold l; simpl; lia].
Defined.
End LeafOpsProofs.
